(** * AV1 video converter: the conversion pipeline

    A shallow embedding of the conversion pipeline of the AV1 video
    converter: the Go back end ([app.go]: [getVideoInfo], [ConvertVideo],
    [monitorProgress], [sanitizeFileName]) and the queue driver of the
    Svelte front end ([App.svelte]: [updateProgressVideo] and the event
    handlers around it), followed by the rest of the application: the
    selection of files and of the destination folder, the configuration
    file, the search for the tools and the cleaning of the logs in the back
    end; the list of waiting videos and its editing in the front end.

    Conventions.
    - A Go [string] is a sequence of bytes: [list ascii] here, one [ascii]
      per byte.  Literals are written [go "..."].
    - A Go [rune] and a Go [int] are [Z]; a [float64] is a [spec_float] of
      the Standard Library's IEEE 754 specification at precision 53 and
      maximal exponent 1024, so division by zero, infinities and NaN behave
      as they do in Go.
    - Library functions the program calls ([utf8], [strings], [bufio],
      [regexp], [strconv], [path/filepath], [encoding/json]) are embedded
      next to the code that uses them, each under the name Go gives it.
      They follow the Go the program needs (Wails v2: Go 1.18 or later)
      on a 64-bit Unix: [int] is [int64], paths are separated by [/].
    - What the operating system decides (process exit status, file
      contents at a poll, success of [mkdir]) is an explicit argument.
    - The first part holds the definitions, the second the properties. *)

From Stdlib Require Import ZArith Bool Ascii String Lia.
From Stdlib Require Import Numbers.DecimalString.
From Stdlib Require Import List.
From Stdlib Require Import Floats.SpecFloat.
From Stdlib Require Import Sorting.Permutation.
Import ListNotations.

Local Open Scope Z_scope.

(** ** Go strings as byte lists *)

Abbreviation gostring := (list ascii).

Definition go (s : string) : gostring := list_ascii_of_string s.

Definition byteZ (c : ascii) : Z := Z.of_N (N_of_ascii c).

Definition zbyte (z : Z) : ascii := ascii_of_N (Z.to_N (z mod 256)).

Definition gostring_eqb (a b : gostring) : bool :=
  if list_eq_dec ascii_dec a b then true else false.

(** ** Package [unicode/utf8] *)

Module utf8.

Definition RuneError : Z := 0xFFFD.
Definition MaxRune : Z := 0x10FFFF.
Definition RuneSelf : Z := 0x80.
Definition surrogateMin : Z := 0xD800.
Definition surrogateMax : Z := 0xDFFF.

Definition maskx : Z := 0x3F.
Definition mask2 : Z := 0x1F.
Definition mask3 : Z := 0x0F.
Definition mask4 : Z := 0x07.
Definition tx : Z := 0x80.
Definition t2 : Z := 0xC0.
Definition t3 : Z := 0xE0.
Definition t4 : Z := 0xF0.
Definition locb : Z := 0x80.
Definition hicb : Z := 0xBF.

(** The table [first] together with [acceptRanges]: what the first byte of
    a sequence announces. *)
Inductive firstInfo : Type :=
| as_ascii
| xx_invalid
| lead (size : nat) (lo hi : Z).

Definition first (b : Z) : firstInfo :=
  if b <? 0x80 then as_ascii
  else if b <? 0xC2 then xx_invalid
  else if b <? 0xE0 then lead 2 locb hicb
  else if b =? 0xE0 then lead 3 0xA0 hicb
  else if b <? 0xED then lead 3 locb hicb
  else if b =? 0xED then lead 3 locb 0x9F
  else if b <? 0xF0 then lead 3 locb hicb
  else if b =? 0xF0 then lead 4 0x90 hicb
  else if b <? 0xF4 then lead 4 locb hicb
  else if b =? 0xF4 then lead 4 locb 0x8F
  else xx_invalid.

Definition outside (lo hi b : Z) : bool := (b <? lo) || (hi <? b).

(** [utf8.DecodeRuneInString]: the rune at the head of [s] and its width in
    bytes; [(RuneError, 0)] on the empty string and [(RuneError, 1)] on a
    byte that starts no valid encoding. *)
Definition DecodeRune (s : gostring) : Z * nat :=
  match s with
  | [] => (RuneError, 0%nat)
  | c0 :: t =>
    let s0 := byteZ c0 in
    match first s0 with
    | as_ascii => (s0, 1%nat)
    | xx_invalid => (RuneError, 1%nat)
    | lead sz lo hi =>
      if (length s <? sz)%nat then (RuneError, 1%nat) else
      match t with
      | [] => (RuneError, 1%nat)
      | c1 :: t1 =>
        let s1 := byteZ c1 in
        if outside lo hi s1 then (RuneError, 1%nat) else
        if (sz <=? 2)%nat then
          (Z.lor (Z.shiftl (Z.land s0 mask2) 6) (Z.land s1 maskx), 2%nat)
        else
        match t1 with
        | [] => (RuneError, 1%nat)
        | c2 :: t2 =>
          let s2 := byteZ c2 in
          if outside locb hicb s2 then (RuneError, 1%nat) else
          if (sz <=? 3)%nat then
            (Z.lor (Z.lor (Z.shiftl (Z.land s0 mask3) 12)
                          (Z.shiftl (Z.land s1 maskx) 6))
                   (Z.land s2 maskx), 3%nat)
          else
          match t2 with
          | [] => (RuneError, 1%nat)
          | c3 :: _ =>
            let s3 := byteZ c3 in
            if outside locb hicb s3 then (RuneError, 1%nat) else
            (Z.lor (Z.lor (Z.lor (Z.shiftl (Z.land s0 mask4) 18)
                                 (Z.shiftl (Z.land s1 maskx) 12))
                          (Z.shiftl (Z.land s2 maskx) 6))
                   (Z.land s3 maskx), 4%nat)
          end
        end
      end
    end
  end.

(** [utf8.AppendRune] on an empty buffer: the encoding of [r], the encoding
    of [RuneError] when [r] is a surrogate or out of range. *)
Definition enc3 (r : Z) : gostring :=
  [ zbyte (Z.lor t3 (Z.shiftr r 12));
    zbyte (Z.lor tx (Z.land (Z.shiftr r 6) maskx));
    zbyte (Z.lor tx (Z.land r maskx)) ].

Definition EncodeRune (r : Z) : gostring :=
  if (0 <=? r) && (r <? RuneSelf) then [zbyte r]
  else if (0 <=? r) && (r <=? 0x7FF) then
    [ zbyte (Z.lor t2 (Z.shiftr r 6)); zbyte (Z.lor tx (Z.land r maskx)) ]
  else if (r <? 0) || (MaxRune <? r)
          || ((surrogateMin <=? r) && (r <=? surrogateMax)) then enc3 RuneError
  else if r <=? 0xFFFF then enc3 r
  else
    [ zbyte (Z.lor t4 (Z.shiftr r 18));
      zbyte (Z.lor tx (Z.land (Z.shiftr r 12) maskx));
      zbyte (Z.lor tx (Z.land (Z.shiftr r 6) maskx));
      zbyte (Z.lor tx (Z.land r maskx)) ].

(** Number of runes of [s], as [range] and [utf8.RuneCountInString] count
    them; [skip] bytes of the current rune are still to be passed. *)
Fixpoint RuneCount_from (skip : nat) (s : gostring) : nat :=
  match s with
  | [] => 0%nat
  | _ :: t =>
    match skip with
    | S k => RuneCount_from k t
    | O => S (RuneCount_from (snd (DecodeRune s) - 1) t)
    end
  end.

Definition RuneCountInString (s : gostring) : nat := RuneCount_from 0 s.

(** [utf8.ValidString]. *)
Fixpoint Valid_from (skip : nat) (s : gostring) : bool :=
  match s with
  | [] => true
  | _ :: t =>
    match skip with
    | S k => Valid_from k t
    | O =>
      let '(r, w) := DecodeRune s in
      if (r =? RuneError) && (w =? 1)%nat then false
      else Valid_from (w - 1) t
    end
  end.

Definition ValidString (s : gostring) : bool := Valid_from 0 s.

End utf8.

(** ** Package [strings] *)

Module strings.

(** [strings.Map]: every rune of [s], invalid bytes read as [RuneError] of
    width one, is replaced by the encoding of its image; a negative image
    drops the rune. *)
Fixpoint Map_from (mapping : Z -> Z) (skip : nat) (s : gostring) : gostring :=
  match s with
  | [] => []
  | _ :: t =>
    match skip with
    | S k => Map_from mapping k t
    | O =>
      let '(r, w) := utf8.DecodeRune s in
      let r' := mapping r in
      (if r' <? 0 then [] else utf8.EncodeRune r')
        ++ Map_from mapping (w - 1) t
    end
  end.

Definition Map (mapping : Z -> Z) (s : gostring) : gostring :=
  Map_from mapping 0 s.

Fixpoint HasPrefix (s prefix : gostring) : bool :=
  match prefix, s with
  | [], _ => true
  | p :: ps, c :: cs => Ascii.eqb p c && HasPrefix cs ps
  | _ :: _, [] => false
  end.

Definition HasSuffix (s suffix : gostring) : bool :=
  HasPrefix (rev s) (rev suffix).

Definition TrimSuffix (s suffix : gostring) : gostring :=
  if HasSuffix s suffix then firstn (length s - length suffix) s else s.

Fixpoint Contains (s substr : gostring) : bool :=
  HasPrefix s substr ||
  match s with
  | [] => false
  | _ :: t => Contains t substr
  end.

End strings.

(** ** [sanitizeFileName] (app.go) *)

Definition rune_of (c : string) : Z :=
  match c with
  | String a _ => byteZ a
  | EmptyString => 0
  end.

Definition underscore : Z := rune_of "_".

(** The nine runes the anonymous function of [sanitizeFileName] tests. *)
Definition invalidRunes : list Z :=
  [ rune_of "/"; 92 (* backslash *); rune_of ":"; rune_of "*"; rune_of "?";
    34 (* double quote *); rune_of "<"; rune_of ">"; rune_of "|" ].

Definition isInvalidRune (r : Z) : bool :=
  existsb (Z.eqb r) invalidRunes.

Definition sanitizeRune (r : Z) : Z :=
  if isInvalidRune r then underscore else r.

Definition maxFileNameLen : nat := 200.

Definition sanitizeFileName (fileName : gostring) : gostring :=
  let fileName := strings.Map sanitizeRune fileName in
  if (maxFileNameLen <? length fileName)%nat
  then firstn maxFileNameLen fileName
  else fileName.

(** Predicates used to state what [sanitizeFileName] guarantees. *)

Definition isASCII (c : ascii) : Prop := byteZ c < 0x80.

(** A byte that is none of the nine characters [sanitizeFileName] replaces. *)
Definition allowedByte (c : ascii) : Prop := isInvalidRune (byteZ c) = false.

(** What [sanitizeFileName] does to one ASCII byte. *)
Definition sanitizeByte (c : ascii) : ascii :=
  if isInvalidRune (byteZ c) then "_"%char else c.

(** File names used as examples: [e_acute] is the two bytes of U+00E9. *)
Definition e_acute : gostring := ["195"%char; "169"%char].

Definition name250 : gostring := concat (repeat e_acute 250).

Definition name201 : gostring := "a"%char :: concat (repeat e_acute 100).

(** ** Package [unicode] *)

Module unicode.

(** [unicode.IsSpace]: the Latin-1 cases of the switch, then the
    [White_Space] table. *)
Definition IsSpace (r : Z) : bool :=
  if (0 <=? r) && (r <=? 0xFF) then
    existsb (Z.eqb r) [9; 10; 11; 12; 13; 32; 0x85; 0xA0]
  else
    (r =? 0x1680) || ((0x2000 <=? r) && (r <=? 0x200A))
    || (r =? 0x2028) || (r =? 0x2029) || (r =? 0x202F)
    || (r =? 0x205F) || (r =? 0x3000).

End unicode.

(** ** [strings.TrimSpace] *)

Module trim.

Definition RuneStart (b : Z) : bool := negb (Z.land b 0xC0 =? 0x80).

(** [utf8.DecodeLastRuneInString]: looks back at most [UTFMax] bytes for
    the byte that starts the last rune. *)
Definition lastRuneAt (s : gostring) (k : nat) : option (Z * nat) :=
  let n := length s in
  if (k <=? n)%nat && RuneStart (byteZ (nth (n - k) s "000"%char)) then
    let '(r, size) := utf8.DecodeRune (skipn (n - k) s) in
    Some (if (size =? k)%nat then (r, size) else (utf8.RuneError, 1%nat))
  else None.

Definition DecodeLastRune (s : gostring) : Z * nat :=
  match rev s with
  | [] => (utf8.RuneError, 0%nat)
  | c :: _ =>
    if byteZ c <? utf8.RuneSelf then (byteZ c, 1%nat)
    else
      match lastRuneAt s 2 with
      | Some res => res
      | None =>
        match lastRuneAt s 3 with
        | Some res => res
        | None =>
          match lastRuneAt s 4 with
          | Some res => res
          | None => (utf8.RuneError, 1%nat)
          end
        end
      end
  end.

Fixpoint TrimLeft_from (skip : nat) (s : gostring) : gostring :=
  match s with
  | [] => []
  | _ :: t =>
    match skip with
    | S k => TrimLeft_from k t
    | O =>
      let '(r, w) := utf8.DecodeRune s in
      if unicode.IsSpace r then TrimLeft_from (w - 1) t else s
    end
  end.

(** One iteration per rune removed; [fuel] bounds the number of runes. *)
Fixpoint TrimRight_fuel (fuel : nat) (s : gostring) : gostring :=
  match fuel with
  | O => s
  | S f =>
    let '(r, size) := DecodeLastRune s in
    if (size =? 0)%nat then s
    else if unicode.IsSpace r
         then TrimRight_fuel f (firstn (length s - size) s)
         else s
  end.

Definition TrimSpace (s : gostring) : gostring :=
  let s := TrimLeft_from 0 s in TrimRight_fuel (length s) s.

End trim.

(** ** Package [path/filepath], Unix flavour

    The program looks for its tools under [/usr/local/bin] and
    [/opt/homebrew/bin]: paths are Unix paths, the separator is [/] and
    there are no volume names. *)

Module filepath.

Definition Separator : ascii := "/"%char.

Definition IsPathSeparator (c : ascii) : bool := Ascii.eqb c Separator.

Fixpoint dropSeparators (r : gostring) : gostring :=
  match r with
  | c :: r' => if IsPathSeparator c then dropSeparators r' else r
  | [] => []
  end.

Fixpoint lastElemRev (r : gostring) : gostring :=
  match r with
  | c :: r' => if IsPathSeparator c then [] else c :: lastElemRev r'
  | [] => []
  end.

(** [filepath.Base]: the last element of the path once trailing separators
    are gone; ["."] for the empty path, ["/"] for a path of separators. *)
Definition Base (path : gostring) : gostring :=
  match path with
  | [] => go "."
  | _ =>
    match rev (lastElemRev (dropSeparators (rev path))) with
    | [] => [Separator]
    | elem => elem
    end
  end.

(** [filepath.Ext]: walks back from the end to the last dot of the last
    element; [acc] is the part already walked over. *)
Fixpoint Ext_rev (r acc : gostring) : gostring :=
  match r with
  | [] => []
  | c :: r' =>
    if IsPathSeparator c then []
    else if Ascii.eqb c "."%char then c :: acc
    else Ext_rev r' (c :: acc)
  end.

Definition Ext (path : gostring) : gostring := Ext_rev (rev path) [].

(** The elements between separators, left to right. *)
Fixpoint splitElems (cur_rev path : gostring) : list gostring :=
  match path with
  | [] => [rev cur_rev]
  | c :: t =>
    if IsPathSeparator c then rev cur_rev :: splitElems [] t
    else splitElems (c :: cur_rev) t
  end.

Definition isDotDot (e : gostring) : bool := gostring_eqb e (go "..").

(** The loop of [filepath.Clean], one path element at a time: [out] holds
    the elements written so far, last one first.  An empty element and ["."]
    are skipped; [".."] removes the last real element, is kept when the
    path is relative and nothing is left to remove, and is dropped at the
    root. *)
Fixpoint cleanElems (rooted : bool) (out : list gostring)
         (elems : list gostring) : list gostring :=
  match elems with
  | [] => out
  | e :: rest =>
    if gostring_eqb e [] || gostring_eqb e (go ".") then
      cleanElems rooted out rest
    else if isDotDot e then
      match out with
      | top :: out' =>
        if isDotDot top
        then cleanElems rooted (if rooted then out else e :: out) rest
        else cleanElems rooted out' rest
      | [] => cleanElems rooted (if rooted then out else [e]) rest
      end
    else cleanElems rooted (e :: out) rest
  end.

Fixpoint joinElems (elems : list gostring) : gostring :=
  match elems with
  | [] => []
  | [e] => e
  | e :: rest => e ++ Separator :: joinElems rest
  end.

Definition Clean (path : gostring) : gostring :=
  match path with
  | [] => go "."
  | c :: _ =>
    let rooted := IsPathSeparator c in
    let out := rev (cleanElems rooted [] (splitElems [] path)) in
    if rooted then Separator :: joinElems out
    else match out with
         | [] => go "."
         | _ => joinElems out
         end
  end.

(** [filepath.Join]: leading empty elements are ignored, the rest is
    joined with separators and cleaned. *)
Fixpoint Join (elem : list gostring) : gostring :=
  match elem with
  | [] => []
  | e :: rest =>
    match e with
    | [] => Join rest
    | _ => Clean (joinElems elem)
    end
  end.

(** A path element without separator, and one that [Clean] keeps as it
    is (not empty, not ["."], not [".."]). *)
Definition noSeparator (e : gostring) : Prop :=
  Forall (fun c => IsPathSeparator c = false) e.

Definition realElem (e : gostring) : Prop :=
  gostring_eqb e [] || gostring_eqb e (go ".") = false /\ isDotDot e = false.

End filepath.

(** ** Package [bufio]: a [Scanner] with the default split function *)

Module bufio.

Definition MaxScanTokenSize : N := 65536.

Definition LF : ascii := "010"%char.
Definition CR : ascii := "013"%char.

(** [dropCR], on the reversed line. *)
Definition dropCR_rev (line_rev : gostring) : gostring :=
  match line_rev with
  | c :: r => if Ascii.eqb c CR then rev r else rev line_rev
  | [] => []
  end.

(** The tokens [Scan] delivers while it reads [data] to the end of the
    file, and, when it stops on [ErrTooLong], the bytes it has not read.
    [cur_rev] is the line being read and [n] its length: a line that fills
    the buffer of [MaxScanTokenSize] bytes before its newline stops the
    scanner.  A last line without newline is delivered as it stands. *)
Fixpoint scanLines (cur_rev : gostring) (n : N) (data : gostring)
  : list gostring * option gostring :=
  match data with
  | [] =>
    (match cur_rev with [] => [] | _ => [dropCR_rev cur_rev] end, None)
  | c :: t =>
    if Ascii.eqb c LF then
      let '(toks, err) := scanLines [] 0%N t in
      (dropCR_rev cur_rev :: toks, err)
    else if (MaxScanTokenSize <=? N.succ n)%N then ([], Some t)
    else scanLines (c :: cur_rev) (N.succ n) t
  end.

Definition Scan (data : gostring) : list gostring * option gostring :=
  scanLines [] 0%N data.

End bufio.

(** ** Package [regexp], for the two patterns of the monitor

    A pattern is a sequence of literals and of repeated character classes;
    a repetition is greedy and gives characters back when the rest of the
    pattern does not match, and the match that starts leftmost wins.  Both
    patterns test ASCII classes only, so matching byte by byte and matching
    rune by rune find the same positions. *)

Module regexp.

Inductive item : Type :=
| Lit (l : gostring)
| Rep (cls : ascii -> bool) (min : nat) (capture : bool).

Definition regex := list item.

Fixpoint span (cls : ascii -> bool) (s : gostring) : nat :=
  match s with
  | c :: t => if cls c then S (span cls t) else 0%nat
  | [] => 0%nat
  end.

(** A greedy repetition tries its longest run first and gives characters
    back one at a time: [attempt k] is what the rest of the pattern finds
    when the repetition keeps [k] characters. *)
Fixpoint give_back {T : Type} (attempt : nat -> option T) (k : nat)
  : option T :=
  match attempt k with
  | Some r => Some r
  | None =>
    match k with
    | S k' => give_back attempt k'
    | O => None
    end
  end.

(** A match of [re] at the head of [s]: the captured groups and what is
    left of [s] after the match. *)
Fixpoint match_here (re : regex) (s : gostring)
  : option (list gostring * gostring) :=
  match re with
  | [] => Some ([], s)
  | Lit l :: re' =>
    if strings.HasPrefix s l then match_here re' (skipn (length l) s)
    else None
  | Rep cls min capture :: re' =>
    give_back
      (fun k =>
         if (min <=? k)%nat then
           match match_here re' (skipn k s) with
           | Some (groups, rest) =>
             Some (if capture then firstn k s :: groups else groups, rest)
           | None => None
           end
         else None)
      (span cls s)
  end.

(** [FindStringSubmatch]: the whole match followed by the groups, [[]]
    (Go's [nil]) when the pattern matches nowhere. *)
Fixpoint FindStringSubmatch (re : regex) (s : gostring) : list gostring :=
  match match_here re s with
  | Some (groups, rest) => firstn (length s - length rest) s :: groups
  | None =>
    match s with
    | _ :: t => FindStringSubmatch re t
    | [] => []
    end
  end.

(** Perl classes as Go's syntax package defines them. *)
Definition perl_s (c : ascii) : bool :=
  existsb (Z.eqb (byteZ c)) [9; 10; 12; 13; 32].

Definition perl_S (c : ascii) : bool := negb (perl_s c).

Definition perl_d (c : ascii) : bool :=
  (48 <=? byteZ c) && (byteZ c <=? 57).

End regexp.

(** ** [float64] *)

Module float64.

Definition prec : Z := 53.
Definition emax : Z := 1024.

Definition of_int (n : Z) : spec_float := binary_normalize prec emax n 0 false.

Definition div : spec_float -> spec_float -> spec_float := SFdiv prec emax.
Definition mul : spec_float -> spec_float -> spec_float := SFmul prec emax.
Definition sub : spec_float -> spec_float -> spec_float := SFsub prec emax.

(** Go's [x > y], [x < y] and [x <= y]: false as soon as one side is NaN. *)
Definition gt (x y : spec_float) : bool := SFltb y x.
Definition lt (x y : spec_float) : bool := SFltb x y.
Definition le (x y : spec_float) : bool := SFleb x y.

Definition zero : spec_float := S754_zero false.
Definition hundred : spec_float := of_int 100.

Definition is_inf (x : spec_float) : bool :=
  match x with S754_infinity _ => true | _ => false end.

End float64.

(** ** Package [strconv] *)

Module strconv.

Definition digitVal (c : ascii) : Z := byteZ c - 48.

Definition isDigit (c : ascii) : bool := regexp.perl_d c.

Definition decimal (ds : gostring) : Z :=
  fold_left (fun acc c => 10 * acc + digitVal c) ds 0.

(** [strconv.ParseFloat(s, 64)] on the texts the monitor passes to it,
    which are non-empty runs of decimal digits: the float nearest to the
    number, and [ErrRange] with an infinite value when the number is beyond
    the largest float.  Every other text is answered with [ErrSyntax] here;
    the monitor never passes one. *)
Inductive NumError : Type := ErrSyntax | ErrRange.

Definition ParseFloat (s : gostring) : spec_float * option NumError :=
  match s with
  | [] => (float64.zero, Some ErrSyntax)
  | _ =>
    if forallb isDigit s then
      let f := float64.of_int (decimal s) in
      if float64.is_inf f then (f, Some ErrRange) else (f, None)
    else (float64.zero, Some ErrSyntax)
  end.

Definition maxInt64 : Z := 2 ^ 63 - 1.
Definition minInt64 : Z := - 2 ^ 63.

(** [strconv.Atoi] on a 64-bit platform: an optional sign and decimal
    digits; zero with [ErrSyntax] on any other text, the nearest bound of
    [int64] with [ErrRange] when the number does not fit. *)
Definition Atoi (s : gostring) : Z * option NumError :=
  let '(neg, ds) :=
    match s with
    | c :: t =>
      if Ascii.eqb c "-"%char then (true, t)
      else if Ascii.eqb c "+"%char then (false, t)
      else (false, s)
    | [] => (false, s)
    end in
  match ds with
  | [] => (0, Some ErrSyntax)
  | _ =>
    if forallb isDigit ds then
      let n := decimal ds in
      if neg then
        if - minInt64 <? n then (minInt64, Some ErrRange) else (- n, None)
      else
        if maxInt64 <? n then (maxInt64, Some ErrRange) else (n, None)
    else (0, Some ErrSyntax)
  end.

End strconv.

(** ** Events sent to the front end ([runtime.EventsEmit]) *)

Inductive Event : Type :=
| ConversionProgress (progress : spec_float) (speed : gostring)
| ConversionComplete (outputPath : gostring)
| ConversionError (message : gostring)
| ConversionNext.

Definition isCompletion (e : Event) : bool :=
  match e with ConversionComplete _ => true | _ => false end.

Definition isProgress (e : Event) : bool :=
  match e with ConversionProgress _ _ => true | _ => false end.

(** ** [monitorProgress] (app.go) *)

Module Monitor.

Import regexp.

(** [frame=\s*(\d+)] and [speed=(\S+)]. *)
Definition frameRegex : regex :=
  [Lit (go "frame="); Rep perl_s 0 false; Rep perl_d 1 true].

Definition speedRegex : regex :=
  [Lit (go "speed="); Rep perl_S 1 true].

(** The monitor's variables that live across iterations: the position of
    the open log file and [lastProgress]. *)
Record state : Type := mkState {
  position : nat;
  lastProgress : spec_float
}.

Definition initial : state := mkState 0 float64.zero.

(** [file.Seek(off, 2)] on a file of [size] bytes: the new position, or
    the error of a seek before the start of the file ([lseek] fails with
    [EINVAL] when the resulting offset would be negative), which leaves the
    position where it was. *)
Definition Seek_end (off : Z) (size pos : nat) : nat * bool :=
  let target := Z.of_nat size + off in
  if target <? 0 then (pos, true) else (Z.to_nat target, false).

(** [progress := (currentFrame / float64(totalFrames)) * 100], cut at 100. *)
Definition percentage (currentFrame : spec_float) (totalFrames : Z)
  : spec_float :=
  let progress :=
    float64.mul (float64.div currentFrame (float64.of_int totalFrames))
                float64.hundred in
  if float64.gt progress float64.hundred then float64.hundred else progress.

(** The block under "Parse progress information", up to the comparison with
    [lastProgress]: the percentage and speed read from [lastLine], if any. *)
Definition parseProgress (totalFrames : Z) (lastLine : gostring)
  : option (spec_float * gostring) :=
  if strings.Contains lastLine (go "frame=") then
    let frameMatch := FindStringSubmatch frameRegex lastLine in
    let speedMatch := FindStringSubmatch speedRegex lastLine in
    if (1 <? length frameMatch)%nat && (1 <? length speedMatch)%nat then
      match strconv.ParseFloat (nth 1 frameMatch []) with
      | (currentFrame, None) =>
        let speed := trim.TrimSpace (nth 1 speedMatch []) in
        Some (percentage currentFrame totalFrames, speed)
      | (_, Some _) => None
      end
    else None
  else None.

(** What one pass through the [default] branch reads: the bytes from the
    position the seek leaves to the end of [content], the file at that
    moment.  The result of [Seek] is discarded, as in the source. *)
Definition readTail (pos : nat) (content : gostring) : nat * gostring :=
  let pos1 := fst (Seek_end (-1024) (length content) pos) in
  (pos1, skipn pos1 content).

(** One pass through the [default] branch of the loop. *)
Definition tick (totalFrames : Z) (st : state) (content : gostring)
  : state * list Event :=
  let '(pos1, data) := readTail (position st) content in
  match bufio.Scan data with
  | (_, Some unread) =>
    (mkState (length content - length unread) (lastProgress st), [])
  | (tokens, None) =>
    let pos2 := Nat.max pos1 (length content) in
    let lastLine := last tokens [] in
    match parseProgress totalFrames lastLine with
    | Some (progress, speed) =>
      if float64.gt progress (lastProgress st)
      then (mkState pos2 progress, [ConversionProgress progress speed])
      else (mkState pos2 (lastProgress st), [])
    | None => (mkState pos2 (lastProgress st), [])
    end
  end.

(** The iterations before the [done] channel is seen closed: [polls] is
    the content of the log file at each of them. *)
Fixpoint ticks (totalFrames : Z) (st : state) (polls : list gostring)
  : state * list Event :=
  match polls with
  | [] => (st, [])
  | content :: rest =>
    let '(st1, ev1) := tick totalFrames st content in
    let '(st2, ev2) := ticks totalFrames st1 rest in
    (st2, ev1 ++ ev2)
  end.

(** The sample of the [done] branch: progress 100, speed [""]. *)
Definition finalSample : Event := ConversionProgress float64.hundred [].

(** A run of [monitorProgress]: nothing when the log file cannot be opened;
    otherwise the samples of the polls, then the sample of the [done]
    branch, after which the function returns. *)
Definition monitorProgress (opened : bool) (totalFrames : Z)
           (polls : list gostring) : list Event :=
  if opened then snd (ticks totalFrames initial polls) ++ [finalSample]
  else [].

Definition progressOf (e : Event) : option spec_float :=
  match e with
  | ConversionProgress p _ => Some p
  | _ => None
  end.

Fixpoint percentages (evs : list Event) : list spec_float :=
  match evs with
  | [] => []
  | e :: rest =>
    match progressOf e with
    | Some p => p :: percentages rest
    | None => percentages rest
    end
  end.

(** What [frame=\s*(\d+)] finds at the head of [s]: after [frame=] and the
    whole run of white space, the whole run of digits, which must not be
    empty. *)
Definition frameAt (s : gostring) : option (list gostring * gostring) :=
  if strings.HasPrefix s (go "frame=") then
    let s1 := skipn 6 s in
    let s2 := skipn (span perl_s s1) s1 in
    let m := span perl_d s2 in
    if (1 <=? m)%nat then Some ([firstn m s2], skipn m s2) else None
  else None.

Definition speedAt (s : gostring) : option (list gostring * gostring) :=
  if strings.HasPrefix s (go "speed=") then
    let s1 := skipn 6 s in
    let m := span perl_S s1 in
    if (1 <=? m)%nat then Some ([firstn m s1], skipn m s1) else None
  else None.

(** The two fields in the words of the specification: digits that follow
    [frame=] after optional white space, and a character that is no white
    space right after [speed=]. *)
Definition hasFrameField (line : gostring) : Prop :=
  exists pre ws d post,
    line = pre ++ go "frame=" ++ ws ++ d :: post /\
    Forall (fun c => perl_s c = true) ws /\ perl_d d = true.

Definition hasSpeedField (line : gostring) : Prop :=
  exists pre c post,
    line = pre ++ go "speed=" ++ c :: post /\ perl_S c = true.

(** The groups the two patterns capture in [line]. *)
Definition frameDigits (line : gostring) : gostring :=
  nth 1 (FindStringSubmatch frameRegex line) [].

Definition speedToken (line : gostring) : gostring :=
  nth 1 (FindStringSubmatch speedRegex line) [].

(** [chain R [x1; x2; x3; ...]]: [R x1 x2], [R x2 x3], ... *)
Fixpoint chain {A : Type} (R : A -> A -> Prop) (l : list A) : Prop :=
  match l with
  | x :: ((y :: _) as t) => R x y /\ chain R t
  | _ => True
  end.

Definition nonDecreasing (l : list spec_float) : Prop :=
  chain (fun x y => float64.le x y = true) l.

Definition strictlyIncreasing (l : list spec_float) : Prop :=
  chain (fun x y => float64.lt x y = true /\ x <> y) l.

(** [l] is strictly increasing and starts above [x]. *)
Fixpoint increasingFrom (x : spec_float) (l : list spec_float) : Prop :=
  match l with
  | [] => True
  | y :: t => float64.gt y x = true /\ increasingFrom y t
  end.

End Monitor.

(** ** [ConvertVideo] (app.go) *)

Record App : Type := mkApp {
  appDir : gostring;
  ffmpegPath : gostring;
  ffprobePath : gostring;
  lastDestination : gostring
}.

(** What the operating system answers during one call of [ConvertVideo]:
    for each step that can fail, the error it returns, if any. *)
Record EncoderRun : Type := mkRun {
  MkdirAll_error : option gostring;
  Create_error : option gostring;
  Start_error : option gostring;
  Wait_error : option gostring
}.

(** What a call of [ConvertVideo] does, seen from outside: the error it
    returns, the events it emits itself in order, the command it started,
    the monitor it spawned (log path and frame count), and whether it
    closed [done]. *)
Record Conversion : Type := mkConversion {
  returned : option gostring;
  emitted : list Event;
  started : option (list gostring);
  monitor : option (gostring * Z);
  doneClosed : bool
}.

Definition outputSuffix : gostring := go "_av1.mp4".

Definition outputFileName (inputPath : gostring) : gostring :=
  let base := filepath.Base inputPath in
  sanitizeFileName (strings.TrimSuffix base (filepath.Ext base)).

Definition outputPath (inputPath outputFolder : gostring) : gostring :=
  filepath.Join [outputFolder; outputFileName inputPath ++ outputSuffix].

Definition logFilePath (a : App) (inputPath : gostring) : gostring :=
  filepath.Join [appDir a; go "logs";
                 outputFileName inputPath ++ go "_ffmpeg.log"].

Definition ffmpegArgs (a : App) (inputPath out : gostring) : list gostring :=
  [ ffmpegPath a; go "-i"; inputPath; go "-c:v"; go "libsvtav1";
    go "-crf"; go "30"; go "-preset"; go "6";
    go "-svtav1-params"; go "tune=0"; go "-c:a"; go "copy"; go "-y"; out ].

Definition ConvertVideo (a : App) (os : EncoderRun)
           (inputPath outputFolder : gostring) (totalFrames : Z)
  : Conversion :=
  let out := outputPath inputPath outputFolder in
  match MkdirAll_error os with
  | Some err =>
    mkConversion (Some (go "failed to create output directory: " ++ err))
                 [] None None false
  | None =>
    match Create_error os with
    | Some err =>
      mkConversion (Some (go "failed to create log file: " ++ err))
                   [] None None false
    | None =>
      let cmd := ffmpegArgs a inputPath out in
      match Start_error os with
      | Some err =>
        mkConversion (Some (go "failed to start FFmpeg: " ++ err))
                     [] None None false
      | None =>
        let mon := Some (logFilePath a inputPath, totalFrames) in
        match Wait_error os with
        | Some err =>
          mkConversion (Some (go "FFmpeg error: " ++ err))
                       [ConversionError err] (Some cmd) mon true
        | None =>
          mkConversion None [ConversionComplete out; ConversionNext]
                       (Some cmd) mon true
        end
      end
    end
  end.

(** ** The queue driver of the front end (App.svelte) *)

Record VideoInfo : Type := mkVideoInfo {
  FullPath : gostring;
  Duration : gostring;
  FrameCount : Z;
  Codec : gostring;
  Size : gostring
}.

Module Frontend.

(** A call [window.go.main.App.ConvertVideo(fullPath, folder, frameCount)]. *)
Record Call : Type := mkCall {
  callInput : gostring;
  callFolder : gostring;
  callFrames : Z
}.

(** The component's variables, and the calls to the back end made so far.
    An entry of [selectedVideos] is a video object, [Some], or
    [undefined], [None], which [drop] can leave in the array.
    [progressVideo] is a video object, [Some], or a value that tests as
    false, [None]: [null], or [undefined] once such an entry was taken off
    the list; the component only ever tests it. *)
Record state : Type := mkState {
  selectedVideos : list (option VideoInfo);
  progressVideo : option VideoInfo;
  destinationFolder : gostring;
  conversionProgress : spec_float;
  conversionSpeed : gostring;
  errorMessage : gostring;
  showErrorPopup : bool;
  calls : list Call
}.

Definition setProgressVideo (v : option VideoInfo) (s : state) : state :=
  mkState (selectedVideos s) v (destinationFolder s) (conversionProgress s)
          (conversionSpeed s) (errorMessage s) (showErrorPopup s) (calls s).

Definition setSelectedVideos (l : list (option VideoInfo)) (s : state)
  : state :=
  mkState l (progressVideo s) (destinationFolder s) (conversionProgress s)
          (conversionSpeed s) (errorMessage s) (showErrorPopup s) (calls s).

Definition showError (message : gostring) (s : state) : state :=
  mkState (selectedVideos s) (progressVideo s) (destinationFolder s)
          (conversionProgress s) (conversionSpeed s) message true (calls s).

(** [startConversion], up to its [await]: with a video in progress and a
    destination it resets the progress display and calls the back end. *)
Definition startConversion (s : state) : state :=
  match progressVideo s, destinationFolder s with
  | Some v, _ :: _ =>
    mkState (selectedVideos s) (progressVideo s) (destinationFolder s)
            float64.zero [] (errorMessage s) (showErrorPopup s)
            (calls s ++ [mkCall (FullPath v) (destinationFolder s)
                                (FrameCount v)])
  | _, _ => s
  end.

(** The test of [updateProgressVideo]:
    [!progressVideo && selectedVideos.length > 0]. *)
Definition canStart (s : state) : bool :=
  match progressVideo s, selectedVideos s with
  | None, _ :: _ => true
  | _, _ => false
  end.

(** [updateProgressVideo]: the state it leaves, and whether it acted, that
    is, took the head off the list and stored it in [progressVideo].
    Whether a job is started with it is up to [startConversion]. *)
Definition updateProgressVideo (s : state) : state * bool :=
  match progressVideo s, selectedVideos s with
  | None, v :: rest =>
    (startConversion (setSelectedVideos rest (setProgressVideo v s)),
     true)
  | _, _ => (s, false)
  end.

Definition advance (s : state) : state := fst (updateProgressVideo s).

(** The handlers registered in [onMount] and the [catch] of
    [startConversion]. *)
Definition onProgress (progress : spec_float) (speed : gostring) (s : state)
  : state :=
  mkState (selectedVideos s) (progressVideo s) (destinationFolder s)
          progress speed (errorMessage s) (showErrorPopup s) (calls s).

Definition onComplete (s : state) : state :=
  advance (setProgressVideo None s).

Definition onError (error : gostring) (s : state) : state :=
  advance (setProgressVideo None (showError error s)).

Definition onNext (s : state) : state := advance s.

(** What a call to the back end is rejected with, as far as
    [err.message] reads it: a string, which has no property [message], or
    an [Error] object with its message.  The Wails runtime rejects the
    call with the text of the error the Go method returned, a string. *)
Inductive Thrown : Type :=
| ThrownString (text : gostring)
| ThrownError (message : gostring).

(** [err.message] as string concatenation renders it. *)
Definition message_of (err : Thrown) : gostring :=
  match err with
  | ThrownString _ => go "undefined"
  | ThrownError message => message
  end.

(** The rejection of a call whose Go method returned the error [text]. *)
Definition rejection (text : gostring) : Thrown := ThrownString text.

Definition onRejected (err : Thrown) (s : state) : state :=
  advance (setProgressVideo None
             (showError (go "Conversion Error: " ++ message_of err) s)).

Definition handleSelectFiles (videoInfos : list VideoInfo) (s : state)
  : state :=
  match videoInfos with
  | [] => s
  | _ =>
    advance (setSelectedVideos (selectedVideos s ++ map Some videoInfos) s)
  end.

(** The front end's reaction to one event of the back end. *)
Definition handle (e : Event) (s : state) : state :=
  match e with
  | ConversionProgress p sp => onProgress p sp s
  | ConversionComplete _ => onComplete s
  | ConversionError msg => onError msg s
  | ConversionNext => onNext s
  end.

(** A failed video is not put back on the list: the handlers leave the
    list as it is or take its head off. *)
Definition notRequeued (before after : state) : Prop :=
  selectedVideos after = selectedVideos before \/
  selectedVideos after = tl (selectedVideos before).

(** A queue used as an example. *)
Definition videoA : VideoInfo := mkVideoInfo (go "/videos/A.mp4") [] 100 [] [].
Definition videoB : VideoInfo := mkVideoInfo (go "/videos/B.mp4") [] 50 [] [].
Definition videoC : VideoInfo := mkVideoInfo (go "/videos/C.mp4") [] 75 [] [].

(** [A] is being converted, [B] and [C] wait. *)
Definition runningA : state :=
  mkState [Some videoB; Some videoC] (Some videoA) (go "/out") float64.zero
          [] [] false [mkCall (go "/videos/A.mp4") (go "/out") 100].

End Frontend.

(** ** Package [encoding/json], for the result type of [getVideoInfo] *)

Module json.

#[local] Set Warnings "-register-all".

(** A JSON text once its syntax is checked: the members of an object in
    the order of the text, duplicates kept; a number keeps its literal. *)
Inductive Value : Type :=
| JNull
| JBool (b : bool)
| JNumber (literal : gostring)
| JString (s : gostring)
| JArray (elems : list Value)
| JObject (members : list (gostring * Value)).

(** The bytes handed to [json.Unmarshal]: a text that fails the syntax
    check, or the value a well-formed text denotes. *)
Inductive Text : Type :=
| Malformed
| Document (v : Value).

Inductive Error : Type :=
| SyntaxError
| UnmarshalTypeError.

(** Folding of a member name, as far as it can reach an ASCII field name:
    ASCII letters lose their case, and the two letters outside ASCII that
    fold onto ASCII letters, U+017F (long s) and U+212A (Kelvin sign), are
    replaced by them. *)
Definition lowerASCII (c : ascii) : ascii :=
  if (65 <=? byteZ c) && (byteZ c <=? 90) then zbyte (byteZ c + 32) else c.

Fixpoint foldName (key : gostring) : gostring :=
  match key with
  | [] => []
  | c :: t =>
    match t with
    | c1 :: t1 =>
      if (byteZ c =? 0xC5) && (byteZ c1 =? 0xBF) then "s"%char :: foldName t1
      else
        match t1 with
        | c2 :: t2 =>
          if (byteZ c =? 0xE2) && (byteZ c1 =? 0x84) && (byteZ c2 =? 0xAA)
          then "k"%char :: foldName t2
          else lowerASCII c :: foldName t
        | [] => lowerASCII c :: foldName t
        end
    | [] => [lowerASCII c]
    end
  end.

(** Whether a member named [key] is stored in the field tagged [name]
    (the tags of this program are lower-case ASCII). *)
Definition isField (name : string) (key : gostring) : bool :=
  gostring_eqb (foldName key) (go name).

(** The result type declared in [getVideoInfo]. *)
Record Stream : Type := mkStream {
  CodecName : gostring;
  NbFrames : gostring;
  AvgFrameRate : gostring
}.

Record Format : Type := mkFormat {
  FormatDuration : gostring;
  FormatSize : gostring
}.

(** [backing] is the array behind the slice [Streams] and [len] the length
    of the slice: decoding an array into a slice writes into the elements
    the array already holds. *)
Record Result : Type := mkResult {
  backing : list Stream;
  len : nat;
  format : Format
}.

Definition Streams (r : Result) : list Stream := firstn (len r) (backing r).

Definition zeroStream : Stream := mkStream [] [] [].
Definition zeroResult : Result := mkResult [] 0 (mkFormat [] []).

(** Decoding a value into a field of type [string]: a JSON string is
    stored, [null] leaves the field, anything else is a type error and
    leaves the field.  The boolean is the error flag. *)
Definition decodeString (old : gostring) (v : Value) : gostring * bool :=
  match v with
  | JString s => (s, false)
  | JNull => (old, false)
  | _ => (old, true)
  end.

Definition decodeStreamMember (st : Stream * bool) (m : gostring * Value)
  : Stream * bool :=
  let '(s, bad) := st in
  let '(key, v) := m in
  if isField "codec_name" key then
    let '(x, e) := decodeString (CodecName s) v in
    (mkStream x (NbFrames s) (AvgFrameRate s), bad || e)
  else if isField "nb_frames" key then
    let '(x, e) := decodeString (NbFrames s) v in
    (mkStream (CodecName s) x (AvgFrameRate s), bad || e)
  else if isField "avg_frame_rate" key then
    let '(x, e) := decodeString (AvgFrameRate s) v in
    (mkStream (CodecName s) (NbFrames s) x, bad || e)
  else (s, bad).

Definition decodeStream (old : Stream) (v : Value) : Stream * bool :=
  match v with
  | JObject members => fold_left decodeStreamMember members (old, false)
  | JNull => (old, false)
  | _ => (old, true)
  end.

Definition decodeFormatMember (st : Format * bool) (m : gostring * Value)
  : Format * bool :=
  let '(f, bad) := st in
  let '(key, v) := m in
  if isField "duration" key then
    let '(x, e) := decodeString (FormatDuration f) v in
    (mkFormat x (FormatSize f), bad || e)
  else if isField "size" key then
    let '(x, e) := decodeString (FormatSize f) v in
    (mkFormat (FormatDuration f) x, bad || e)
  else (f, bad).

Definition decodeFormat (old : Format) (v : Value) : Format * bool :=
  match v with
  | JObject members => fold_left decodeFormatMember members (old, false)
  | JNull => (old, false)
  | _ => (old, true)
  end.

(** The elements of a JSON array decoded over the backing array, element
    [i] of the text into element [i] of the array (a fresh element where
    the array ends). *)
Fixpoint decodeElems (old : list Stream) (elems : list Value)
  : list Stream * bool :=
  match elems with
  | [] => ([], false)
  | v :: rest =>
    let '(s, e) := decodeStream (hd zeroStream old) v in
    let '(ss, es) := decodeElems (tl old) rest in
    (s :: ss, e || es)
  end.

Definition decodeStreams (r : Result) (v : Value) : Result * bool :=
  match v with
  | JArray [] => (mkResult [] 0 (format r), false)
  | JArray elems =>
    let '(ss, e) := decodeElems (backing r) elems in
    (mkResult (ss ++ skipn (length elems) (backing r)) (length elems)
              (format r), e)
  | JNull => (mkResult [] 0 (format r), false)
  | _ => (r, true)
  end.

Definition decodeMember (st : Result * bool) (m : gostring * Value)
  : Result * bool :=
  let '(r, bad) := st in
  let '(key, v) := m in
  if isField "streams" key then
    let '(r', e) := decodeStreams r v in (r', bad || e)
  else if isField "format" key then
    let '(f, e) := decodeFormat (format r) v in
    (mkResult (backing r) (len r) f, bad || e)
  else (r, bad).

(** [json.Unmarshal(data, &result)] on a zero [result]: the value left in
    [result] and the error returned.  A type error does not stop the
    decoding; it is returned at the end. *)
Definition Unmarshal (data : Text) : Result * option Error :=
  match data with
  | Malformed => (zeroResult, Some SyntaxError)
  | Document v =>
    let '(r, bad) :=
      match v with
      | JObject members => fold_left decodeMember members (zeroResult, false)
      | JNull => (zeroResult, false)
      | _ => (zeroResult, true)
      end in
    (r, if bad then Some UnmarshalTypeError else None)
  end.

(** Whether a value holds, where [getVideoInfo] reads a field, something
    of another JSON type than the field's. *)
Definition badString (v : Value) : bool :=
  match v with
  | JString _ | JNull => false
  | _ => true
  end.

Definition badStreamMember (m : gostring * Value) : bool :=
  (isField "codec_name" (fst m) || isField "nb_frames" (fst m)
   || isField "avg_frame_rate" (fst m)) && badString (snd m).

Definition badStream (v : Value) : bool :=
  match v with
  | JObject members => existsb badStreamMember members
  | JNull => false
  | _ => true
  end.

Definition badStreams (v : Value) : bool :=
  match v with
  | JArray elems => existsb badStream elems
  | JNull => false
  | _ => true
  end.

Definition badFormatMember (m : gostring * Value) : bool :=
  (isField "duration" (fst m) || isField "size" (fst m)) && badString (snd m).

Definition badFormat (v : Value) : bool :=
  match v with
  | JObject members => existsb badFormatMember members
  | JNull => false
  | _ => true
  end.

Definition badMember (m : gostring * Value) : bool :=
  if isField "streams" (fst m) then badStreams (snd m)
  else if isField "format" (fst m) then badFormat (snd m)
  else false.

Definition typeMismatch (v : Value) : bool :=
  match v with
  | JObject members => existsb badMember members
  | JNull => false
  | _ => true
  end.

End json.

(** ** [getVideoInfo] (app.go) *)

Module Probe.

(** How the run of the probing tool ends ([cmd.Run]): it could not be
    started, or it exited with a status. *)
Inductive Exit : Type :=
| LaunchFailed (err : gostring)
| Exited (code : Z).

Record Run : Type := mkRun {
  exit : Exit;
  stdout : json.Text;
  stderr : gostring
}.

Definition itoa (n : Z) : gostring :=
  go (NilZero.string_of_int (Z.to_int n)).

(** The error [cmd.Run] returns. *)
Definition Run_error (r : Run) : option gostring :=
  match exit r with
  | LaunchFailed err => Some err
  | Exited code =>
    if code =? 0 then None else Some (go "exit status " ++ itoa code)
  end.

Inductive Error : Type :=
| Errorf (message : gostring)
| UnmarshalError (e : json.Error).

Definition zeroVideoInfo : VideoInfo := mkVideoInfo [] [] 0 [] [].

(** [%02d] of [fmt.Sprintf]. *)
Definition pad2 (n : Z) : gostring :=
  let s := itoa n in
  if (length s <? 2)%nat then "0"%char :: s else s.

Section getVideoInfo.

(** Of the float formatting and parsing of the standard library the
    function uses three pieces that are taken as they come:
    [strconv.ParseFloat(s, 64)] on arbitrary text, of which only the value
    is used; the conversion [int(f)], whose result Go leaves to the
    platform when [f] is not an integer that fits; and [%.2f]. *)
Variable ParseFloat64 : gostring -> spec_float.
Variable int_of_float64 : spec_float -> Z.
Variable Sprintf_2f : spec_float -> gostring.

Definition timecode (duration frameRate : spec_float) : gostring :=
  let whole := int_of_float64 duration in
  let hours := Z.quot whole 3600 in
  let minutes := Z.quot (Z.rem whole 3600) 60 in
  let seconds := Z.rem whole 60 in
  let frames :=
    int_of_float64
      (float64.mul (float64.sub duration (float64.of_int whole)) frameRate) in
  pad2 hours ++ go ":" ++ pad2 minutes ++ go ":" ++ pad2 seconds
    ++ go ":" ++ pad2 frames.

Definition getVideoInfo (run : Run) (filePath : gostring)
  : VideoInfo * option Error :=
  match Run_error run with
  | Some err =>
    (zeroVideoInfo,
     Some (Errorf (go "FFprobe error: " ++ err ++ go ", stderr: "
                      ++ stderr run)))
  | None =>
    match json.Unmarshal (stdout run) with
    | (_, Some err) => (zeroVideoInfo, Some (UnmarshalError err))
    | (result, None) =>
      match json.Streams result with
      | [] =>
        (zeroVideoInfo,
         Some (Errorf (go "no streams found in the video file")))
      | stream0 :: _ =>
        let fmt := json.format result in
        let durationInSeconds := ParseFloat64 (json.FormatDuration fmt) in
        let frameRate := ParseFloat64 (json.AvgFrameRate stream0) in
        let frameCount := fst (strconv.Atoi (json.NbFrames stream0)) in
        let sizeInBytes := ParseFloat64 (json.FormatSize fmt) in
        let sizeInMB :=
          float64.div (float64.div sizeInBytes (float64.of_int 1024))
                      (float64.of_int 1024) in
        (mkVideoInfo filePath
                     (timecode durationInSeconds frameRate)
                     frameCount
                     (json.CodecName stream0)
                     (Sprintf_2f sizeInMB ++ go " MB"),
         None)
      end
    end
  end.

End getVideoInfo.

(** The three conditions of the specification: the tool exits with a
    status other than zero, its output is no JSON text, the decoded result
    has no stream. *)
Definition claimedFailure (run : Run) : Prop :=
  (exists code, exit run = Exited code /\ code <> 0) \/
  stdout run = json.Malformed \/
  json.Streams (fst (json.Unmarshal (stdout run))) = [].

End Probe.

(** ** The front end: the list of waiting videos and the user's actions *)

Module Queue.

Import Frontend.

(** The call [startConversion] makes for a video. *)
Definition callOf (folder : gostring) (v : VideoInfo) : Call :=
  mkCall (FullPath v) folder (FrameCount v).

(** The calls [startConversion] makes when [head] was just stored in
    [progressVideo]: one for a video object and a folder that is not
    empty, none otherwise. *)
Definition callsFor (folder : gostring) (head : option VideoInfo)
  : list Call :=
  match head, folder with
  | Some v, _ :: _ => [callOf folder v]
  | _, _ => []
  end.

(** [contextMenu = { show, x, y, index }]. *)
Record ContextMenu : Type := mkMenu {
  show : bool;
  x : Z;
  y : Z;
  index : Z
}.

Definition initialMenu : ContextMenu := mkMenu false 0 0 (-1).

Definition showContextMenu (clientX clientY i : Z) : ContextMenu :=
  mkMenu true clientX clientY i.

Definition closeContextMenu (m : ContextMenu) : ContextMenu :=
  mkMenu false (x m) (y m) (index m).

(** [Array.prototype.filter] with a test on the index alone; [i] is the
    index of the head. *)
Fixpoint filterIndex {A : Type} (keep : Z -> bool) (i : Z) (l : list A)
  : list A :=
  match l with
  | [] => []
  | v :: rest =>
    if keep i then v :: filterIndex keep (i + 1) rest
    else filterIndex keep (i + 1) rest
  end.

(** [deleteItem]. *)
Definition deleteItem (m : ContextMenu) (s : state) : ContextMenu * state :=
  if -1 <? index m
  then (closeContextMenu m,
        setSelectedVideos
          (filterIndex (fun i => negb (i =? index m)) 0 (selectedVideos s)) s)
  else (m, s).

(** [Array.prototype.splice]: the index it starts at, for an array of
    [len] elements.  [None] is [NaN], which counts as 0; a negative start
    counts from the end. *)
Definition spliceStart (start : option Z) (len : nat) : nat :=
  match start with
  | None => 0%nat
  | Some z =>
    if z <? 0 then Z.to_nat (Z.max (Z.of_nat len + z) 0)
    else Nat.min (Z.to_nat z) len
  end.

(** [items.splice(start, 1)]: the elements removed and the array left. *)
Definition spliceRemove {A : Type} (start : option Z) (items : list A)
  : list A * list A :=
  let k := spliceStart start (length items) in
  (firstn 1 (skipn k items), firstn k items ++ skipn (k + 1) items).

(** [items.splice(start, 0, item)]. *)
Definition spliceInsert {A : Type} (start : option Z) (item : A)
  (items : list A) : list A :=
  let k := spliceStart start (length items) in
  firstn k items ++ item :: skipn k items.

(** [drop]: the new value of [selectedVideos].  [sourceIndex] is what
    [parseInt] returned, [None] for [NaN]; an element [None] of the result
    is [undefined], the value of [reorderedItem] when nothing was
    removed. *)
Definition drop {A : Type} (sourceIndex : option Z) (targetIndex : Z)
  (selectedVideos : list A) : list (option A) :=
  let unchanged :=
    match sourceIndex with
    | Some z => z =? targetIndex
    | None => false
    end in
  if unchanged then map Some selectedVideos
  else
    let '(removed, items) := spliceRemove sourceIndex selectedVideos in
    spliceInsert (Some targetIndex) (hd_error removed) (map Some items).

(** [drop] on the component: the undefined value [drop] inserts becomes
    an undefined entry of [selectedVideos]. *)
Definition entry (o : option (option VideoInfo)) : option VideoInfo :=
  match o with
  | Some e => e
  | None => None
  end.

Definition dropRow (sourceIndex : option Z) (targetIndex : Z) (s : state)
  : state :=
  setSelectedVideos
    (map entry (drop sourceIndex targetIndex (selectedVideos s))) s.

(** The video objects among the entries of the list. *)
Definition videos (l : list (option VideoInfo)) : list VideoInfo :=
  flat_map (fun e => match e with Some v => [v] | None => [] end) l.

(** [handleSelectDestination], once the call to the back end has returned
    a folder ([inl]) or was rejected ([inr]). *)
Definition handleSelectDestination (result : gostring + Thrown) (s : state)
  : state :=
  match result with
  | inl [] => s
  | inl folder =>
    mkState (selectedVideos s) (progressVideo s) folder
            (conversionProgress s) (conversionSpeed s) (errorMessage s)
            (showErrorPopup s) (calls s)
  | inr err =>
    showError (go "Destination folder selection error: " ++ message_of err) s
  end.

(** [closeErrorPopup]. *)
Definition closeErrorPopup (s : state) : state :=
  mkState (selectedVideos s) (progressVideo s) (destinationFolder s)
          (conversionProgress s) (conversionSpeed s) [] false (calls s).

(** What reaches the component: an event of the back end, the rejection
    of a [ConvertVideo] call, or an action of the user. *)
Inductive Input : Type :=
| Backend (e : Event)
| Rejected (err : Thrown)
| FilesSelected (videoInfos : list VideoInfo)
| DestinationSelected (result : gostring + Thrown)
| ItemDeleted (i : Z)
| PopupClosed.

Definition step (s : state) (i : Input) : state :=
  match i with
  | Backend e => handle e s
  | Rejected err => onRejected err s
  | FilesSelected videoInfos => handleSelectFiles videoInfos s
  | DestinationSelected result => handleSelectDestination result s
  | ItemDeleted i => snd (deleteItem (showContextMenu 0 0 i) s)
  | PopupClosed => closeErrorPopup s
  end.

Definition run (inputs : list Input) (s : state) : state :=
  fold_left step inputs s.

(** The inputs of the back end: its events and the rejections of calls. *)
Definition fromBackend (i : Input) : bool :=
  match i with
  | Backend _ | Rejected _ => true
  | _ => false
  end.

(** The paths newly selected by an input. *)
Definition selectedBy (i : Input) : list gostring :=
  match i with
  | FilesSelected videoInfos => map FullPath videoInfos
  | _ => []
  end.

(** The videos in the order of conversion: those handed to the back end,
    then those waiting. *)
Definition order (s : state) : list gostring :=
  map callInput (calls s) ++ map FullPath (videos (selectedVideos s)).

(** A converted video: the back end reports [complete], then [next]. *)
Definition converted (outputPath : gostring) : list Input :=
  [Backend (ConversionComplete outputPath); Backend ConversionNext].


(** The inputs of the user. *)
Definition fromUser (i : Input) : bool := negb (fromBackend i).

(** What holds after [k] conversions of the videos [l]: the one at index
    [k] is in progress, those before it were handed to the back end with
    the folder [d], after the calls [c0]. *)
Definition drainedTo (c0 : list Call) (d : gostring) (l : list VideoInfo)
  (k : nat) (t : state) : Prop :=
  progressVideo t = nth_error l k /\
  selectedVideos t = map Some (skipn (S k) l) /\
  calls t = c0 ++ map (callOf d) (firstn (S k) l) /\
  destinationFolder t = d.

End Queue.

(** ** The configuration file (app.go: [loadConfig], [saveConfig]) *)

Module Config.

Import json.

(** What a Go string is once [json.Marshal] has written it and
    [json.Unmarshal] has read it back: the encoder walks the string rune
    by rune and writes [\ufffd] for every byte that starts no valid UTF-8
    sequence; everything else comes back as it was. *)
Fixpoint coerce_from (skip : nat) (s : gostring) : gostring :=
  match s with
  | [] => []
  | c :: t =>
    match skip with
    | S k => c :: coerce_from k t
    | O =>
      let '(r, w) := utf8.DecodeRune s in
      if (r =? utf8.RuneError) && (w =? 1)%nat
      then utf8.enc3 utf8.RuneError ++ coerce_from 0 t
      else c :: coerce_from (w - 1) t
    end
  end.

Definition coerce (s : gostring) : gostring := coerce_from 0 s.

(** The text [json.MarshalIndent] produces for the structure of
    [saveConfig], as the document it denotes. *)
Definition Marshal (LastDestination : gostring) : Text :=
  Document (JObject [(go "lastDestination", JString (coerce LastDestination))]).

(** The only field of the structure, tagged [lastDestination]: a member
    is stored in it when its name equals the tag up to case folding. *)
Definition isLastDestination (key : gostring) : bool :=
  gostring_eqb (foldName key) (foldName (go "lastDestination")).

Definition decodeConfigMember (st : gostring * bool) (m : gostring * Value)
  : gostring * bool :=
  let '(d, bad) := st in
  let '(key, v) := m in
  if isLastDestination key then
    let '(x, e) := decodeString d v in (x, bad || e)
  else (d, bad).

(** [json.Unmarshal(data, &config)] on a zero [config]. *)
Definition Unmarshal (data : Text) : gostring * option Error :=
  match data with
  | Malformed => ([], Some SyntaxError)
  | Document v =>
    let '(d, bad) :=
      match v with
      | JObject members => fold_left decodeConfigMember members ([], false)
      | JNull => ([], false)
      | _ => ([], true)
      end in
    (d, if bad then Some UnmarshalTypeError else None)
  end.

Definition setLastDestination (folder : gostring) (a : App) : App :=
  mkApp (appDir a) (ffmpegPath a) (ffprobePath a) folder.

(** [loadConfig]; [ReadFile] is the content of the file at [configPath],
    [None] when it cannot be read. *)
Definition loadConfig (a : App) (ReadFile : option Text) : App :=
  match ReadFile with
  | None => a
  | Some data =>
    match Unmarshal data with
    | (_, Some _) => a
    | (LastDestination, None) => setLastDestination LastDestination a
    end
  end.

(** How [ioutil.WriteFile] ends: the file holds the data, or the call
    failed and left the file with some content or none. *)
Inductive WriteFile_result : Type :=
| Written
| WriteFailed (remaining : option Text).

(** [saveConfig]: the content of the file at [configPath] afterwards. *)
Definition saveConfig (a : App) (WriteFile : WriteFile_result) : option Text :=
  match WriteFile with
  | Written => Some (Marshal (lastDestination a))
  | WriteFailed remaining => remaining
  end.

(** [GetLastDestination]. *)
Definition GetLastDestination (a : App) : gostring := lastDestination a.

End Config.

(** ** [SelectDestinationFolder] (app.go) *)

Module Destination.

Import Config.

(** What the call meets: the answer of the directory dialog (a folder,
    empty when the dialog was cancelled, or an error), the variable
    [HOME], the error of [os.Create] on the test file, if any, and how
    the configuration file gets written. *)
Record Host : Type := mkHost {
  OpenDirectoryDialog : gostring + gostring;
  HOME : gostring;
  Create_error : gostring -> option gostring;
  WriteFile : WriteFile_result
}.

Record Outcome : Type := mkOutcome {
  folder : gostring;
  err : option gostring;
  app : App;
  configFile : option json.Text
}.

Definition testFile (folder : gostring) : gostring :=
  filepath.Join [folder; go "test_write_permission.tmp"].

(** [SelectDestinationFolder]; [config] is the content of the
    configuration file before the call. *)
Definition SelectDestinationFolder (a : App) (h : Host)
  (config : option json.Text) : Outcome :=
  match OpenDirectoryDialog h with
  | inr e => mkOutcome [] (Some e) a config
  | inl chosen =>
    let folder :=
      match chosen with
      | [] =>
        match lastDestination a with
        | [] => filepath.Join [HOME h; go "Desktop"]
        | previous => previous
        end
      | _ => chosen
      end in
    match Create_error h (testFile folder) with
    | Some e =>
      mkOutcome [] (Some (go "selected folder is not writable: " ++ e))
                a config
    | None =>
      let a' := setLastDestination folder a in
      mkOutcome folder None a' (saveConfig a' (WriteFile h))
    end
  end.

(** The front end's call: what [handleSelectDestination] receives. *)
Definition answer (o : Outcome) : gostring + Frontend.Thrown :=
  match err o with
  | Some e => inr (Frontend.rejection e)
  | None => inl (folder o)
  end.

End Destination.

(** ** [findExecutable] and [cleanupLogs] (app.go) *)

Module Startup.

Import filepath.

(** [filepath.Dir]: the path up to its last separator, cleaned. *)
Fixpoint dirRev (r : gostring) : gostring :=
  match r with
  | c :: r' => if IsPathSeparator c then r else dirRev r'
  | [] => []
  end.

Definition Dir (path : gostring) : gostring :=
  Clean (rev (dirRev (rev path))).

(** What [findExecutable] asks the system: [os.Args[0]], whether
    [os.Stat] succeeds on a path, and the path [exec.LookPath] finds, if
    any. *)
Record Host : Type := mkHost {
  Args0 : gostring;
  Stat_ok : gostring -> bool;
  LookPath : gostring -> option gostring
}.

Definition possiblePaths (a : App) (h : Host) (name : gostring)
  : list gostring :=
  [ Join [Dir (Args0 h); name];
    Join [appDir a; name];
    Join [go "/usr/local/bin"; name];
    Join [go "/opt/homebrew/bin"; name] ].

Definition findExecutable (a : App) (h : Host) (name : gostring) : gostring :=
  match find (Stat_ok h) (possiblePaths a h name) with
  | Some path => path
  | None =>
    match LookPath h name with
    | Some path => path
    | None => []
    end
  end.

(** An entry of the logs directory: its name and its modification time,
    in nanoseconds. *)
Record FileInfo : Type := mkFileInfo {
  Name : gostring;
  ModTime : Z
}.

(** [time.Hour], a [Duration]: nanoseconds in an [int64]. *)
Definition Hour : Z := 3600 * 1000000000.

(** [t.Sub(u)]: the difference, or the nearest bound of [Duration] when
    it does not fit. *)
Definition Sub (t u : Z) : Z :=
  let d := t - u in
  if d <? strconv.minInt64 then strconv.minInt64
  else if strconv.maxInt64 <? d then strconv.maxInt64
  else d.

(** The loop of [cleanupLogs]: the paths handed to [os.Remove], in
    order. *)
Fixpoint removals (logsDir : gostring) (now : Z) (files : list FileInfo)
  : list gostring :=
  match files with
  | [] => []
  | file :: rest =>
    if gostring_eqb (Name file) (go "app.log") then removals logsDir now rest
    else
      let filePath := Join [logsDir; Name file] in
      if 24 * Hour <? Sub now (ModTime file)
      then filePath :: removals logsDir now rest
      else removals logsDir now rest
  end.

(** [cleanupLogs]; [ReadDir] is the listing of the directory, [None]
    when it cannot be read. *)
Definition cleanupLogs (logsDir : gostring) (ReadDir : option (list FileInfo))
  (now : Z) : list gostring :=
  match ReadDir with
  | None => []
  | Some files => removals logsDir now files
  end.

(** Where [Join] puts a file of the folder: nothing before it for the
    empty folder and for a folder that cleans to ["."], a separator for
    the root, the cleaned folder and a separator otherwise. *)
Definition under (folder : gostring) : gostring :=
  match folder with
  | [] => []
  | _ =>
    let c := Clean folder in
    if gostring_eqb c [Separator] then [Separator]
    else if gostring_eqb c (go ".") then []
    else c ++ [Separator]
  end.

(** The elements [Clean] keeps. *)
Definition keptElem (e : gostring) : Prop :=
  noSeparator e /\ e <> [] /\ e <> go ".".

End Startup.

(** ** [SelectVideoFiles] (app.go) *)

Module Selection.

(** A file the dialog returned, with what the system answers about it:
    whether [os.Stat] reports that it does not exist, and the run of the
    probing tool on it. *)
Record Selected : Type := mkSelected {
  file : gostring;
  IsNotExist : bool;
  probe : Probe.Run
}.

Section SelectVideoFiles.

Variable ParseFloat64 : gostring -> spec_float.
Variable int_of_float64 : spec_float -> Z.
Variable Sprintf_2f : spec_float -> gostring.

Definition getVideoInfo (f : Selected) : VideoInfo * option Probe.Error :=
  Probe.getVideoInfo ParseFloat64 int_of_float64 Sprintf_2f (probe f) (file f).

(** One iteration of the loop over the selected files. *)
Definition processFile (videoInfos : list VideoInfo) (f : Selected)
  : list VideoInfo :=
  if IsNotExist f then videoInfos
  else
    match getVideoInfo f with
    | (_, Some _) => videoInfos
    | (info, None) => videoInfos ++ [info]
    end.

(** [SelectVideoFiles]: the dialog answers with the files or with an
    error. *)
Definition SelectVideoFiles (dialog : list Selected + gostring)
  : list VideoInfo * option gostring :=
  match dialog with
  | inr e => ([], Some e)
  | inl files => (fold_left processFile files [], None)
  end.

(** The files that make it into the result. *)
Definition usable (f : Selected) : bool :=
  negb (IsNotExist f) &&
  match snd (getVideoInfo f) with
  | None => true
  | Some _ => false
  end.

End SelectVideoFiles.

End Selection.

(** ** The frame count in the output of the probing tool *)

Module ProbeFields.

Import json.

(** Whether the output of the probing tool names, in some element of a
    [streams] array, a member [nb_frames]. *)
Definition namesFrames (m : gostring * Value) : bool :=
  isField "nb_frames" (fst m).

Definition streamNamesFrames (v : Value) : bool :=
  match v with
  | JObject members => existsb namesFrames members
  | _ => false
  end.

Definition streamsNameFrames (m : gostring * Value) : bool :=
  isField "streams" (fst m) &&
  match snd m with
  | JArray elems => existsb streamNamesFrames elems
  | _ => false
  end.

Definition reportsFrames (data : Text) : bool :=
  match data with
  | Document (JObject members) => existsb streamsNameFrames members
  | _ => false
  end.

(** No stream of the list holds a frame count. *)
Definition noFrames (l : list Stream) : Prop :=
  Forall (fun s => NbFrames s = []) l.

End ProbeFields.

(** * Properties *)

(** ** Bytes *)

Lemma gostring_eqb_eq (a b : gostring) : gostring_eqb a b = true <-> a = b.
Proof.
  unfold gostring_eqb. destruct (list_eq_dec ascii_dec a b); split; congruence.
Qed.

Lemma byteZ_range (c : ascii) : 0 <= byteZ c < 256.
Proof.
  unfold byteZ. pose proof (N_ascii_bounded c) as H. lia.
Qed.

Lemma zbyte_byteZ (c : ascii) : zbyte (byteZ c) = c.
Proof.
  unfold zbyte. rewrite Z.mod_small by apply byteZ_range.
  unfold byteZ. rewrite N2Z.id. apply ascii_N_embedding.
Qed.

Lemma byteZ_zbyte (z : Z) : 0 <= z < 256 -> byteZ (zbyte z) = z.
Proof.
  intros H. unfold zbyte, byteZ. rewrite Z.mod_small by lia.
  rewrite N_ascii_embedding by lia. lia.
Qed.

Lemma byteZ_inj (a b : ascii) : byteZ a = byteZ b -> a = b.
Proof.
  intros H. rewrite <- (zbyte_byteZ a), <- (zbyte_byteZ b). now rewrite H.
Qed.

(** ** Bit operations as arithmetic, and UTF-8 *)

Module BitFacts.

Lemma land_disjoint (x y k : Z) :
  0 <= k -> 0 <= y < 2 ^ k -> x mod 2 ^ k = 0 -> Z.land x y = 0.
Proof.
  intros Hk Hy Hx. apply Z.bits_inj'. intros n Hn.
  rewrite Z.land_spec, Z.bits_0.
  destruct (Z.lt_ge_cases n k) as [Hlt|Hge].
  - assert (Hx' : x = (x / 2 ^ k) * 2 ^ k).
    { pose proof (Z.div_mod x (2 ^ k)) as H.
      assert (2 ^ k <> 0) by (apply Z.pow_nonzero; lia). lia. }
    rewrite Hx', Z.mul_pow2_bits_low by lia. reflexivity.
  - destruct (Z.eq_dec y 0) as [->|Hy0].
    + rewrite Z.bits_0. apply andb_false_r.
    + rewrite (Z.bits_above_log2 y n); [apply andb_false_r|lia|].
      apply Z.log2_lt_pow2; [lia|].
      apply Z.lt_le_trans with (2 ^ k); [lia|].
      apply Z.pow_le_mono_r; lia.
Qed.

Lemma lor_add (k x y : Z) :
  0 <= k -> 0 <= y < 2 ^ k -> x mod 2 ^ k = 0 -> Z.lor x y = x + y.
Proof.
  intros Hk Hy Hx. pose proof (Z.add_lor_land x y) as H.
  rewrite (land_disjoint x y k) in H by assumption. lia.
Qed.

Lemma land_mask (k x : Z) : 0 <= k -> Z.land x (2 ^ k - 1) = x mod 2 ^ k.
Proof.
  intros Hk. rewrite <- Z.land_ones by assumption.
  now rewrite Z.ones_equiv, <- Z.sub_1_r.
Qed.

Lemma land_3F x : Z.land x utf8.maskx = x mod 64.
Proof. exact (land_mask 6 x ltac:(lia)). Qed.

Lemma land_1F x : Z.land x utf8.mask2 = x mod 32.
Proof. exact (land_mask 5 x ltac:(lia)). Qed.

Lemma land_0F x : Z.land x utf8.mask3 = x mod 16.
Proof. exact (land_mask 4 x ltac:(lia)). Qed.

Lemma land_07 x : Z.land x utf8.mask4 = x mod 8.
Proof. exact (land_mask 3 x ltac:(lia)). Qed.

Lemma shiftl_6 x : Z.shiftl x 6 = x * 64.
Proof. now rewrite Z.shiftl_mul_pow2 by lia. Qed.

Lemma shiftl_12 x : Z.shiftl x 12 = x * 4096.
Proof. now rewrite Z.shiftl_mul_pow2 by lia. Qed.

Lemma shiftl_18 x : Z.shiftl x 18 = x * 262144.
Proof. now rewrite Z.shiftl_mul_pow2 by lia. Qed.

Lemma shiftr_6 x : Z.shiftr x 6 = x / 64.
Proof. now rewrite Z.shiftr_div_pow2 by lia. Qed.

Lemma shiftr_12 x : Z.shiftr x 12 = x / 4096.
Proof. now rewrite Z.shiftr_div_pow2 by lia. Qed.

Lemma shiftr_18 x : Z.shiftr x 18 = x / 262144.
Proof. now rewrite Z.shiftr_div_pow2 by lia. Qed.

Lemma lor_tx y : 0 <= y < 64 -> Z.lor utf8.tx y = 128 + y.
Proof. intros H. apply (lor_add 6); [lia|exact H|reflexivity]. Qed.

Lemma lor_t2 y : 0 <= y < 32 -> Z.lor utf8.t2 y = 192 + y.
Proof. intros H. apply (lor_add 5); [lia|exact H|reflexivity]. Qed.

Lemma lor_t3 y : 0 <= y < 16 -> Z.lor utf8.t3 y = 224 + y.
Proof. intros H. apply (lor_add 4); [lia|exact H|reflexivity]. Qed.

Lemma lor_t4 y : 0 <= y < 8 -> Z.lor utf8.t4 y = 240 + y.
Proof. intros H. apply (lor_add 3); [lia|exact H|reflexivity]. Qed.

Ltac div_lia := Z.to_euclidean_division_equations; lia.

Ltac to_arith :=
  rewrite ?land_3F, ?land_1F, ?land_0F, ?land_07,
          ?shiftl_6, ?shiftl_12, ?shiftl_18,
          ?shiftr_6, ?shiftr_12, ?shiftr_18.

End BitFacts.

Module Utf8Facts.
Import utf8 BitFacts.

(** The two-byte case of decoding and encoding. *)
Lemma decode2_encode (s0 s1 : Z) :
  0xC2 <= s0 <= 0xDF -> 0x80 <= s1 <= 0xBF ->
  let r := Z.lor (Z.shiftl (Z.land s0 mask2) 6) (Z.land s1 maskx) in
  0x80 <= r <= 0x7FF /\
  Z.lor t2 (Z.shiftr r 6) = s0 /\ Z.lor tx (Z.land r maskx) = s1.
Proof.
  intros H0 H1 r. subst r. to_arith.
  rewrite (lor_add 6 (s0 mod 32 * 64) (s1 mod 64)) by div_lia.
  to_arith.
  rewrite lor_t2, lor_tx by div_lia. div_lia.
Qed.

Lemma decode3_encode (s0 s1 s2 : Z) :
  0xE0 <= s0 <= 0xEF -> 0x80 <= s1 <= 0xBF -> 0x80 <= s2 <= 0xBF ->
  (s0 = 0xE0 -> 0xA0 <= s1) -> (s0 = 0xED -> s1 <= 0x9F) ->
  let r := Z.lor (Z.lor (Z.shiftl (Z.land s0 mask3) 12)
                        (Z.shiftl (Z.land s1 maskx) 6))
                 (Z.land s2 maskx) in
  0x800 <= r <= 0xFFFF /\ ~ (surrogateMin <= r <= surrogateMax) /\
  Z.lor t3 (Z.shiftr r 12) = s0 /\
  Z.lor tx (Z.land (Z.shiftr r 6) maskx) = s1 /\
  Z.lor tx (Z.land r maskx) = s2.
Proof.
  intros H0 H1 H2 Hlo Hhi r. subst r. to_arith.
  rewrite (lor_add 12 (s0 mod 16 * 4096) (s1 mod 64 * 64)) by div_lia.
  rewrite (lor_add 6 (s0 mod 16 * 4096 + s1 mod 64 * 64) (s2 mod 64))
    by div_lia.
  to_arith.
  rewrite lor_t3, !lor_tx by div_lia.
  unfold surrogateMin, surrogateMax. div_lia.
Qed.

Lemma decode4_encode (s0 s1 s2 s3 : Z) :
  0xF0 <= s0 <= 0xF4 -> 0x80 <= s1 <= 0xBF -> 0x80 <= s2 <= 0xBF ->
  0x80 <= s3 <= 0xBF ->
  (s0 = 0xF0 -> 0x90 <= s1) -> (s0 = 0xF4 -> s1 <= 0x8F) ->
  let r := Z.lor (Z.lor (Z.lor (Z.shiftl (Z.land s0 mask4) 18)
                               (Z.shiftl (Z.land s1 maskx) 12))
                        (Z.shiftl (Z.land s2 maskx) 6))
                 (Z.land s3 maskx) in
  0x10000 <= r <= MaxRune /\
  Z.lor t4 (Z.shiftr r 18) = s0 /\
  Z.lor tx (Z.land (Z.shiftr r 12) maskx) = s1 /\
  Z.lor tx (Z.land (Z.shiftr r 6) maskx) = s2 /\
  Z.lor tx (Z.land r maskx) = s3.
Proof.
  intros H0 H1 H2 H3 Hlo Hhi r. subst r. to_arith.
  rewrite (lor_add 18 (s0 mod 8 * 262144) (s1 mod 64 * 4096)) by div_lia.
  rewrite (lor_add 12 (s0 mod 8 * 262144 + s1 mod 64 * 4096) (s2 mod 64 * 64))
    by div_lia.
  rewrite (lor_add 6 (s0 mod 8 * 262144 + s1 mod 64 * 4096 + s2 mod 64 * 64)
                   (s3 mod 64)) by div_lia.
  to_arith.
  rewrite lor_t4, !lor_tx by div_lia.
  unfold MaxRune. div_lia.
Qed.


Ltac bool2prop :=
  repeat match goal with
  | H : (_ && _) = true |- _ => apply andb_true_iff in H; destruct H
  | H : (_ || _) = false |- _ => apply orb_false_iff in H; destruct H
  | H : (_ <? _) = true |- _ => apply Z.ltb_lt in H
  | H : (_ <? _) = false |- _ => apply Z.ltb_ge in H
  | H : (_ <=? _) = true |- _ => apply Z.leb_le in H
  | H : (_ <=? _) = false |- _ => apply Z.leb_gt in H
  | H : (_ =? _) = true |- _ => apply Z.eqb_eq in H
  | H : (_ =? _) = false |- _ => apply Z.eqb_neq in H
  | H : (_ <? _)%nat = true |- _ => apply Nat.ltb_lt in H
  | H : (_ <? _)%nat = false |- _ => apply Nat.ltb_ge in H
  | H : (_ <=? _)%nat = true |- _ => apply Nat.leb_le in H
  | H : (_ <=? _)%nat = false |- _ => apply Nat.leb_gt in H
  | H : (_ =? _)%nat = true |- _ => apply Nat.eqb_eq in H
  | H : (_ =? _)%nat = false |- _ => apply Nat.eqb_neq in H
  end.

Ltac decide_ifs :=
  repeat match goal with
  | |- context [if ?b then _ else _] =>
    let E := fresh "E" in destruct b eqn:E; bool2prop; try lia
  end.

Lemma EncodeRune_1 (r : Z) : 0 <= r < 0x80 -> EncodeRune r = [zbyte r].
Proof. intros H. unfold EncodeRune, RuneSelf. decide_ifs. reflexivity. Qed.

Lemma EncodeRune_2 (r : Z) :
  0x80 <= r <= 0x7FF ->
  EncodeRune r =
  [zbyte (Z.lor t2 (Z.shiftr r 6)); zbyte (Z.lor tx (Z.land r maskx))].
Proof. intros H. unfold EncodeRune, RuneSelf. decide_ifs. reflexivity. Qed.

Lemma EncodeRune_3 (r : Z) :
  0x800 <= r <= 0xFFFF -> ~ (surrogateMin <= r <= surrogateMax) ->
  EncodeRune r = enc3 r.
Proof.
  intros H Hs. unfold EncodeRune, RuneSelf, MaxRune in *.
  decide_ifs. reflexivity.
Qed.

Lemma EncodeRune_4 (r : Z) :
  0x10000 <= r <= MaxRune ->
  EncodeRune r =
  [ zbyte (Z.lor t4 (Z.shiftr r 18));
    zbyte (Z.lor tx (Z.land (Z.shiftr r 12) maskx));
    zbyte (Z.lor tx (Z.land (Z.shiftr r 6) maskx));
    zbyte (Z.lor tx (Z.land r maskx)) ].
Proof.
  intros H. unfold EncodeRune, RuneSelf, MaxRune, surrogateMin, surrogateMax in *.
  decide_ifs. reflexivity.
Qed.

#[local] Arguments Z.shiftl : simpl never.
#[local] Arguments Z.shiftr : simpl never.
#[local] Arguments Z.land : simpl never.
#[local] Arguments Z.lor : simpl never.

Lemma roundtrip2 (c0 c1 : ascii) :
  0xC2 <= byteZ c0 <= 0xDF -> 0x80 <= byteZ c1 <= 0xBF ->
  0x80 <= Z.lor (Z.shiftl (Z.land (byteZ c0) mask2) 6)
                (Z.land (byteZ c1) maskx) /\
  EncodeRune (Z.lor (Z.shiftl (Z.land (byteZ c0) mask2) 6)
                    (Z.land (byteZ c1) maskx)) = [c0; c1].
Proof.
  intros H0 H1.
  destruct (decode2_encode (byteZ c0) (byteZ c1) H0 H1) as (Hr & E0 & E1).
  rewrite EncodeRune_2 by exact Hr.
  rewrite E0, E1, !zbyte_byteZ. split; [lia|reflexivity].
Qed.

Lemma roundtrip3 (c0 c1 c2 : ascii) :
  0xE0 <= byteZ c0 <= 0xEF -> 0x80 <= byteZ c1 <= 0xBF ->
  0x80 <= byteZ c2 <= 0xBF ->
  (byteZ c0 = 0xE0 -> 0xA0 <= byteZ c1) ->
  (byteZ c0 = 0xED -> byteZ c1 <= 0x9F) ->
  0x80 <= Z.lor (Z.lor (Z.shiftl (Z.land (byteZ c0) mask3) 12)
                       (Z.shiftl (Z.land (byteZ c1) maskx) 6))
                (Z.land (byteZ c2) maskx) /\
  EncodeRune (Z.lor (Z.lor (Z.shiftl (Z.land (byteZ c0) mask3) 12)
                           (Z.shiftl (Z.land (byteZ c1) maskx) 6))
                    (Z.land (byteZ c2) maskx)) = [c0; c1; c2].
Proof.
  intros H0 H1 H2 Hlo Hhi.
  destruct (decode3_encode (byteZ c0) (byteZ c1) (byteZ c2) H0 H1 H2 Hlo Hhi)
    as (Hr & Hs & E0 & E1 & E2).
  rewrite EncodeRune_3 by assumption. unfold enc3.
  rewrite E0, E1, E2, !zbyte_byteZ. split; [lia|reflexivity].
Qed.

Lemma roundtrip4 (c0 c1 c2 c3 : ascii) :
  0xF0 <= byteZ c0 <= 0xF4 -> 0x80 <= byteZ c1 <= 0xBF ->
  0x80 <= byteZ c2 <= 0xBF -> 0x80 <= byteZ c3 <= 0xBF ->
  (byteZ c0 = 0xF0 -> 0x90 <= byteZ c1) ->
  (byteZ c0 = 0xF4 -> byteZ c1 <= 0x8F) ->
  0x80 <= Z.lor (Z.lor (Z.lor (Z.shiftl (Z.land (byteZ c0) mask4) 18)
                              (Z.shiftl (Z.land (byteZ c1) maskx) 12))
                       (Z.shiftl (Z.land (byteZ c2) maskx) 6))
                (Z.land (byteZ c3) maskx) /\
  EncodeRune (Z.lor (Z.lor (Z.lor (Z.shiftl (Z.land (byteZ c0) mask4) 18)
                                  (Z.shiftl (Z.land (byteZ c1) maskx) 12))
                           (Z.shiftl (Z.land (byteZ c2) maskx) 6))
                    (Z.land (byteZ c3) maskx)) = [c0; c1; c2; c3].
Proof.
  intros H0 H1 H2 H3 Hlo Hhi.
  destruct (decode4_encode (byteZ c0) (byteZ c1) (byteZ c2) (byteZ c3)
                           H0 H1 H2 H3 Hlo Hhi)
    as (Hr & E0 & E1 & E2 & E3).
  rewrite EncodeRune_4 by exact Hr.
  rewrite E0, E1, E2, E3, !zbyte_byteZ. split; [lia|reflexivity].
Qed.

#[local] Arguments Z.shiftl : simpl never.
#[local] Arguments Z.shiftr : simpl never.
#[local] Arguments Z.land : simpl never.
#[local] Arguments Z.lor : simpl never.

Ltac break_decode H :=
  repeat match type of H with
  | context [if ?b then _ else _] =>
    let E := fresh "E" in destruct b eqn:E;
    try (injection H as <- <-; lia)
  | context [match ?t with [] => _ | _ :: _ => _ end] =>
    destruct t; try (injection H as <- <-; lia)
  end.

(** A rune read from two or more bytes is at least [RuneSelf], and its
    encoding is the bytes it was read from. *)
Lemma DecodeRune_wide (s : gostring) (r : Z) (w : nat) :
  DecodeRune s = (r, w) -> (2 <= w)%nat ->
  0x80 <= r /\ EncodeRune r = firstn w s /\ (w <= length s)%nat.
Proof.
  intros H Hw. destruct s as [|c0 t]; [injection H as <- <-; lia|].
  unfold DecodeRune in H. pose proof (byteZ_range c0) as R0.
  unfold first, outside, locb, hicb in H.
  break_decode H; bool2prop.
  all: injection H as <- <-.
  all: cbn [firstn length].
  all: match goal with
       | |- ?A /\ ?B /\ ?C =>
         assert (HAB : A /\ B); [|destruct HAB; repeat split; auto; lia]
       end.
  all: match goal with
       | |- _ /\ _ = [_; _] => apply roundtrip2
       | |- _ /\ _ = [_; _; _] => apply roundtrip3
       | |- _ /\ _ = [_; _; _; _] => apply roundtrip4
       end; lia.
Qed.

End Utf8Facts.

Module StringsFacts.
Import utf8 strings BitFacts Utf8Facts.

Lemma DecodeRune_ascii (c : ascii) (t : gostring) :
  byteZ c < 0x80 -> DecodeRune (c :: t) = (byteZ c, 1%nat).
Proof.
  intros H. unfold DecodeRune, first.
  destruct (byteZ c <? 0x80) eqn:E; [reflexivity|bool2prop; lia].
Qed.

(** The width of a rune read from a non-empty string is between 1 and 4. *)
Lemma DecodeRune_width (c : ascii) (t : gostring) :
  (1 <= snd (DecodeRune (c :: t)) <= 4)%nat.
Proof.
  unfold DecodeRune, first.
  repeat match goal with
  | |- context [if ?b then _ else _] => destruct b
  | |- context [match ?l with [] => _ | _ :: _ => _ end] => destruct l
  end; simpl; lia.
Qed.

(** A rune of width one is the byte itself or [RuneError]. *)
Lemma DecodeRune_narrow (c : ascii) (t : gostring) (r : Z) :
  DecodeRune (c :: t) = (r, 1%nat) ->
  (byteZ c < 0x80 /\ r = byteZ c) \/ (0x80 <= byteZ c /\ r = RuneError).
Proof.
  unfold DecodeRune, first. intros H.
  destruct (byteZ c <? 0x80) eqn:E0; bool2prop.
  - injection H as <-. left. split; [lia|reflexivity].
  - right. split; [lia|].
    repeat match type of H with
    | context [if ?b then _ else _] => destruct b
    | context [match ?l with [] => _ | _ :: _ => _ end] => destruct l
    end; congruence.
Qed.

Lemma Map_from_skipn (f : Z -> Z) (s : gostring) :
  forall k, Map_from f k s = Map f (skipn k s).
Proof.
  induction s as [|c t IH]; intros [|k]; try reflexivity.
  simpl. apply IH.
Qed.

Lemma Map_cons (f : Z -> Z) (c : ascii) (t : gostring) :
  Map f (c :: t) =
  (let '(r, w) := DecodeRune (c :: t) in
   (if f r <? 0 then [] else EncodeRune (f r))
     ++ Map f (skipn w (c :: t))).
Proof.
  unfold Map at 1. cbn [Map_from].
  pose proof (DecodeRune_width c t) as Hw.
  destruct (DecodeRune (c :: t)) as [r w]. simpl in Hw.
  rewrite Map_from_skipn.
  destruct w as [|w]; [lia|]. simpl. now rewrite Nat.sub_0_r.
Qed.

Lemma Valid_from_skipn (s : gostring) :
  forall k, Valid_from k s = ValidString (skipn k s).
Proof.
  induction s as [|c t IH]; intros [|k]; try reflexivity.
  simpl. apply IH.
Qed.

Lemma ValidString_cons (c : ascii) (t : gostring) :
  ValidString (c :: t) =
  (let '(r, w) := DecodeRune (c :: t) in
   if (r =? RuneError) && (w =? 1)%nat then false
   else ValidString (skipn w (c :: t))).
Proof.
  unfold ValidString at 1. cbn [Valid_from].
  pose proof (DecodeRune_width c t) as Hw.
  destruct (DecodeRune (c :: t)) as [r w]. simpl in Hw.
  rewrite Valid_from_skipn.
  destruct w as [|w]; [lia|]. simpl skipn. now rewrite Nat.sub_0_r.
Qed.

Lemma RuneCount_from_skipn (s : gostring) :
  forall k, RuneCount_from k s = RuneCountInString (skipn k s).
Proof.
  induction s as [|c t IH]; intros [|k]; try reflexivity.
  simpl. apply IH.
Qed.


End StringsFacts.

(** ** [sanitizeFileName] *)

Module ListFacts.

Lemma Forall_firstn {A : Type} (P : A -> Prop) (n : nat) (l : list A) :
  Forall P l -> Forall P (firstn n l).
Proof.
  intros H. revert n. induction H as [|x l Hx Hl IH]; intros [|n];
    simpl; constructor; auto.
Qed.

Lemma Forall_skipn {A : Type} (P : A -> Prop) (n : nat) (l : list A) :
  Forall P l -> Forall P (skipn n l).
Proof.
  intros H. revert n. induction H as [|x l Hx Hl IH]; intros [|n];
    simpl; auto.
Qed.

End ListFacts.

Module SanitizeFacts.
Import ListFacts.
Import utf8 strings BitFacts Utf8Facts StringsFacts.

#[local] Arguments Z.shiftl : simpl never.
#[local] Arguments Z.shiftr : simpl never.
#[local] Arguments Z.land : simpl never.
#[local] Arguments Z.lor : simpl never.

Lemma isInvalidRune_small (r : Z) : isInvalidRune r = true -> 0 <= r < 0x80.
Proof.
  unfold isInvalidRune, invalidRunes. cbn [existsb rune_of].
  rewrite !orb_true_iff, !Z.eqb_eq. vm_compute byteZ.
  intros H. lia.
Qed.

Lemma sanitizeRune_allowed (r : Z) : isInvalidRune (sanitizeRune r) = false.
Proof.
  unfold sanitizeRune. destruct (isInvalidRune r) eqn:E; [reflexivity|exact E].
Qed.

Lemma sanitizeRune_fix (r : Z) : isInvalidRune r = false -> sanitizeRune r = r.
Proof. unfold sanitizeRune. now intros ->. Qed.

Lemma allowed_high (c : ascii) : 0x80 <= byteZ c -> allowedByte c.
Proof.
  intros H. unfold allowedByte.
  destruct (isInvalidRune (byteZ c)) eqn:E; [|reflexivity].
  apply isInvalidRune_small in E. lia.
Qed.

Lemma high_zbyte (z : Z) : 0x80 <= z < 256 -> allowedByte (zbyte z).
Proof. intros H. apply allowed_high. rewrite byteZ_zbyte; lia. Qed.

(** The encoding of a rune that is not replaced holds no replaced byte. *)
Lemma EncodeRune_allowed (r : Z) :
  isInvalidRune r = false -> Forall allowedByte (EncodeRune r).
Proof.
  intros Hr. unfold EncodeRune, enc3, RuneSelf, MaxRune, surrogateMin,
    surrogateMax.
  destruct ((0 <=? r) && (r <? 128)) eqn:E1; bool2prop.
  - constructor; [|constructor]. unfold allowedByte.
    rewrite byteZ_zbyte by lia. exact Hr.
  - destruct ((0 <=? r) && (r <=? 2047)) eqn:E2; bool2prop.
    + assert (128 <= r) by (apply andb_false_iff in E1;
        destruct E1; bool2prop; lia).
      to_arith. rewrite lor_t2, lor_tx by div_lia.
      repeat constructor; apply high_zbyte; div_lia.
    + destruct ((r <? 0) || (1114111 <? r)
                || ((55296 <=? r) && (r <=? 57343))) eqn:E3.
      * repeat constructor; apply allowed_high; vm_compute; discriminate.
      * bool2prop.
        assert (2048 <= r) by (apply andb_false_iff in E2;
          destruct E2; bool2prop; lia).
        destruct (r <=? 65535) eqn:E4; bool2prop; to_arith.
        -- rewrite lor_t3, !lor_tx by div_lia.
           repeat constructor; apply high_zbyte; div_lia.
        -- rewrite lor_t4, !lor_tx by div_lia.
           repeat constructor; apply high_zbyte; div_lia.
Qed.

Lemma Map_from_allowed (s : gostring) :
  forall k, Forall allowedByte (Map_from sanitizeRune k s).
Proof.
  induction s as [|c t IH]; intros k; [constructor|].
  destruct k as [|k]; cbn [Map_from]; [|apply IH].
  destruct (DecodeRune (c :: t)) as [r w].
  apply Forall_app. split; [|apply IH].
  destruct (sanitizeRune r <? 0); [constructor|].
  apply EncodeRune_allowed, sanitizeRune_allowed.
Qed.

Lemma sanitizeFileName_firstn (s : gostring) :
  sanitizeFileName s = firstn maxFileNameLen (Map sanitizeRune s).
Proof.
  unfold sanitizeFileName.
  destruct (maxFileNameLen <? length (Map sanitizeRune s))%nat eqn:E;
    [reflexivity|].
  apply Nat.ltb_ge in E. now rewrite firstn_all2.
Qed.

Lemma sanitizeFileName_allowed (s : gostring) :
  Forall allowedByte (sanitizeFileName s).
Proof.
  rewrite sanitizeFileName_firstn. apply Forall_firstn, Map_from_allowed.
Qed.

Lemma sanitizeFileName_length (s : gostring) :
  (length (sanitizeFileName s) <= maxFileNameLen)%nat.
Proof. rewrite sanitizeFileName_firstn. apply firstn_le_length. Qed.

Lemma sanitizeByte_ascii (c : ascii) : isASCII c -> isASCII (sanitizeByte c).
Proof.
  unfold isASCII, sanitizeByte. intros H.
  destruct (isInvalidRune (byteZ c)); [vm_compute; reflexivity|exact H].
Qed.

Lemma EncodeRune_sanitize_ascii (c : ascii) :
  isASCII c ->
  (if sanitizeRune (byteZ c) <? 0 then []
   else EncodeRune (sanitizeRune (byteZ c))) = [sanitizeByte c].
Proof.
  unfold isASCII, sanitizeRune, sanitizeByte. intros H.
  pose proof (byteZ_range c).
  destruct (isInvalidRune (byteZ c)); [reflexivity|].
  destruct (byteZ c <? 0) eqn:E; bool2prop; [lia|].
  rewrite EncodeRune_1 by lia. now rewrite zbyte_byteZ.
Qed.

(** On ASCII text [strings.Map] works byte by byte. *)
Lemma Map_sanitize_ascii (s : gostring) :
  Forall isASCII s -> Map sanitizeRune s = map sanitizeByte s.
Proof.
  induction 1 as [|c t Hc Ht IH]; [reflexivity|].
  rewrite Map_cons, DecodeRune_ascii by exact Hc.
  rewrite EncodeRune_sanitize_ascii by exact Hc.
  cbn [skipn map app]. now rewrite IH.
Qed.

Lemma ascii_valid (s : gostring) : Forall isASCII s -> ValidString s = true.
Proof.
  induction 1 as [|c t Hc Ht IH]; [reflexivity|].
  rewrite ValidString_cons, DecodeRune_ascii by exact Hc.
  unfold isASCII, RuneError in *.
  destruct (byteZ c =? 65533) eqn:E; bool2prop; [exfalso; lia|]. exact IH.
Qed.

(** Valid UTF-8 that holds none of the nine characters is left as it is. *)
Lemma Map_sanitize_fixpoint (n : nat) :
  forall s, (length s <= n)%nat -> ValidString s = true ->
            Forall allowedByte s -> Map sanitizeRune s = s.
Proof.
  induction n as [|n IH]; intros s Hlen Hv Ha.
  - destruct s; [reflexivity|simpl in Hlen; lia].
  - destruct s as [|c t]; [reflexivity|].
    rewrite Map_cons. rewrite ValidString_cons in Hv.
    pose proof (DecodeRune_width c t) as Hw.
    destruct (DecodeRune (c :: t)) as [r w] eqn:Ed. simpl in Hw.
    destruct ((r =? RuneError) && (w =? 1)%nat) eqn:Einv; [discriminate|].
    assert (Hrest : Map sanitizeRune (skipn w (c :: t)) = skipn w (c :: t)).
    { apply IH.
      - rewrite length_skipn. cbn [length] in *. lia.
      - exact Hv.
      - apply Forall_skipn, Ha. }
    rewrite Hrest.
    destruct (Nat.eq_dec w 1) as [->|Hw1].
    + destruct (DecodeRune_narrow c t r Ed) as [[Hc ->]|[_ ->]].
      * inversion Ha as [|? ? Hca Hta]; subst.
        rewrite (sanitizeRune_fix (byteZ c) Hca).
        pose proof (byteZ_range c).
        destruct (byteZ c <? 0) eqn:E; bool2prop; [lia|].
        rewrite EncodeRune_1 by (unfold RuneSelf in *; lia).
        now rewrite zbyte_byteZ.
      * rewrite Z.eqb_refl in Einv. discriminate.
    + destruct (DecodeRune_wide _ _ _ Ed) as (Hr & He & Hl); [lia|].
      assert (Hok : isInvalidRune r = false).
      { destruct (isInvalidRune r) eqn:E; [|reflexivity].
        apply isInvalidRune_small in E. lia. }
      rewrite (sanitizeRune_fix r Hok).
      destruct (r <? 0) eqn:E; bool2prop; [lia|].
      rewrite He. apply firstn_skipn.
Qed.

Lemma sanitizeFileName_fixpoint (s : gostring) :
  (length s <= maxFileNameLen)%nat -> ValidString s = true ->
  Forall allowedByte s -> sanitizeFileName s = s.
Proof.
  intros Hl Hv Ha. rewrite sanitizeFileName_firstn.
  rewrite (Map_sanitize_fixpoint (length s)) by auto.
  now apply firstn_all2.
Qed.

Lemma sanitizeFileName_ascii (s : gostring) :
  Forall isASCII s ->
  sanitizeFileName s = firstn maxFileNameLen (map sanitizeByte s).
Proof.
  intros H. now rewrite sanitizeFileName_firstn, Map_sanitize_ascii.
Qed.

End SanitizeFacts.

(** ** The output name and path *)

Module OutputPathFacts.
Import utf8 strings BitFacts Utf8Facts StringsFacts ListFacts SanitizeFacts.

(** Idempotence on ASCII names. *)
Lemma sanitizeFileName_idempotent_ascii (s : gostring) :
  Forall isASCII s ->
  sanitizeFileName (sanitizeFileName s) = sanitizeFileName s.
Proof.
  intros H. apply sanitizeFileName_fixpoint.
  - apply sanitizeFileName_length.
  - rewrite sanitizeFileName_ascii by exact H.
    apply ascii_valid, Forall_firstn. apply Forall_map.
    revert H. apply Forall_impl. intros c. apply sanitizeByte_ascii.
  - apply sanitizeFileName_allowed.
Qed.

(** C10, as the code has it.  Sanitizing a sanitized name changes nothing
    whenever the sanitized name is valid UTF-8, that is, whenever the cut
    at 200 bytes did not fall inside a character. *)
Theorem sanitizeFileName_idempotent_valid (s : gostring) :
  ValidString (sanitizeFileName s) = true ->
  sanitizeFileName (sanitizeFileName s) = sanitizeFileName s.
Proof.
  intros Hv. apply sanitizeFileName_fixpoint.
  - apply sanitizeFileName_length.
  - exact Hv.
  - apply sanitizeFileName_allowed.
Qed.

Lemma sanitizeFileName_idempotent_valid_witness :
  ValidString (sanitizeFileName (go "a/b:" ++ name250)) = true /\
  sanitizeFileName (sanitizeFileName (go "a/b:" ++ name250))
  = sanitizeFileName (go "a/b:" ++ name250).
Proof.
  split; [vm_compute; reflexivity|].
  apply (sanitizeFileName_idempotent_valid (go "a/b:" ++ name250)).
  vm_compute; reflexivity.
Defined.

(** C10, as stated, fails: a valid UTF-8 name of 201 bytes whose 200th
    byte starts a two-byte character is cut inside that character; the
    second pass replaces the orphaned byte. *)
Lemma sanitizeFileName_not_idempotent :
  ValidString name201 = true /\
  length name201 = 201%nat /\
  sanitizeFileName (sanitizeFileName name201) <> sanitizeFileName name201 /\
  map byteZ (skipn 197 (sanitizeFileName name201)) = [195; 169; 195] /\
  map byteZ (skipn 197 (sanitizeFileName (sanitizeFileName name201)))
  = [195; 169; 239].
Proof.
  split; [vm_compute; reflexivity|].
  split; [vm_compute; reflexivity|].
  split; [|split; vm_compute; reflexivity].
  intros H. apply (f_equal (skipn 197)) in H. vm_compute in H. discriminate.
Qed.



(** *** The output path *)

Import filepath.

Lemma splitElems_noSeparator (e : gostring) :
  noSeparator e -> forall cur, splitElems cur e = [rev cur ++ e].
Proof.
  induction 1 as [|c t Hc Ht IH]; intros cur; simpl.
  - now rewrite app_nil_r.
  - rewrite Hc, IH. simpl. now rewrite <- app_assoc.
Qed.

Lemma splitElems_snoc (a e : gostring) :
  noSeparator e ->
  forall cur,
    splitElems cur (a ++ Separator :: e) = splitElems cur a ++ [e].
Proof.
  intros He. induction a as [|c t IH]; intros cur; simpl.
  - now rewrite (splitElems_noSeparator e He).
  - destruct (IsPathSeparator c); [now rewrite IH|apply IH].
Qed.

Lemma cleanElems_snoc (rooted : bool) (e : gostring) :
  realElem e ->
  forall elems out,
    cleanElems rooted out (elems ++ [e]) = e :: cleanElems rooted out elems.
Proof.
  intros [H1 H2].
  induction elems as [|x rest IH]; intros out; cbn [cleanElems app].
  - now rewrite H1, H2.
  - destruct (gostring_eqb x [] || gostring_eqb x (go ".")); [apply IH|].
    destruct (isDotDot x); [|apply IH].
    destruct out as [|top out']; [apply IH|].
    destruct (isDotDot top); apply IH.
Qed.

Lemma joinElems_snoc (l : list gostring) (e : gostring) :
  l <> [] -> joinElems (l ++ [e]) = joinElems l ++ Separator :: e.
Proof.
  induction l as [|x l IH]; intros H; [congruence|].
  destruct l as [|y l]; [reflexivity|].
  change (joinElems ((x :: y :: l) ++ [e]))
    with (x ++ Separator :: joinElems ((y :: l) ++ [e])).
  rewrite IH by discriminate.
  change (joinElems (x :: y :: l)) with (x ++ Separator :: joinElems (y :: l)).
  now rewrite <- app_assoc.
Qed.


Lemma Clean_elem (e : gostring) :
  noSeparator e -> realElem e -> Clean e = e.
Proof.
  intros Hns Hreal. destruct e as [|c t] eqn:E.
  - destruct Hreal as [H _]. discriminate.
  - rewrite <- E in *. unfold Clean. rewrite E at 1.
    assert (Hc : IsPathSeparator c = false)
      by (rewrite E in Hns; now inversion Hns).
    rewrite Hc, (splitElems_noSeparator e Hns).
    cbn [rev app].
    pose proof (cleanElems_snoc false e Hreal [] []) as Hc1.
    cbn [app] in Hc1. rewrite Hc1. reflexivity.
Qed.


Lemma allowed_noSeparator (e : gostring) :
  Forall allowedByte e -> noSeparator e.
Proof.
  apply Forall_impl. intros c Hc. unfold IsPathSeparator, Separator.
  destruct (Ascii.eqb c "/") eqn:E; [|reflexivity].
  apply Ascii.eqb_eq in E. subst c. discriminate Hc.
Qed.




End OutputPathFacts.

(** ** Comparison of floats *)

Module FloatFacts.
Import float64.

Lemma hundred_eq : hundred = S754_finite false 7036874417766400 (-46).
Proof. reflexivity. Qed.

Lemma of_int_0 : of_int 0 = S754_zero false.
Proof. reflexivity. Qed.

Lemma SFcompare_refl (x : spec_float) :
  SFcompare x x = Some Eq \/ SFcompare x x = None.
Proof.
  destruct x as [s|s| |s m e]; simpl; auto; destruct s; auto;
    rewrite Z.compare_refl, Pos.compare_cont_refl; auto.
Qed.

Lemma SFcompare_antisym (x y : spec_float) :
  SFcompare y x = option_map CompOpp (SFcompare x y).
Proof.
  destruct x as [sx|sx| |sx mx ex], y as [sy|sy| |sy my ey]; simpl;
    try reflexivity;
    try (destruct sx; reflexivity); try (destruct sy; reflexivity);
    try (destruct sx, sy; reflexivity).
  destruct sx, sy; simpl; try reflexivity;
    rewrite (Z.compare_antisym ex ey);
    destruct (ex ?= ey) eqn:E; simpl; try reflexivity;
    change (Pos.compare_cont Eq my mx) with (my ?= mx)%positive;
    change (Pos.compare_cont Eq mx my) with (mx ?= my)%positive;
    rewrite (Pos.compare_antisym mx my);
    now rewrite ?CompOpp_involutive.
Qed.

(** [x < y] excludes [x = y] and gives [x <= y]. *)
Lemma lt_neq (x y : spec_float) : lt x y = true -> x <> y.
Proof.
  unfold lt, SFltb. intros H ->.
  destruct (SFcompare_refl y) as [E|E]; rewrite E in H; discriminate.
Qed.

Lemma lt_le (x y : spec_float) : lt x y = true -> le x y = true.
Proof.
  unfold lt, le, SFltb, SFleb. destruct (SFcompare x y) as [[| |]|]; auto.
Qed.

(** A number that is greater than some number and not greater than 100
    is at most 100: it is no NaN. *)
Lemma not_gt_hundred_le (l x : spec_float) :
  gt x l = true -> gt x hundred = false -> le x hundred = true.
Proof.
  unfold gt, le, SFltb, SFleb. intros Hl Hy.
  rewrite (SFcompare_antisym hundred x).
  destruct (SFcompare hundred x) as [[| |]|] eqn:E; simpl; try reflexivity;
    try discriminate.
  rewrite hundred_eq in E.
  destruct x; simpl in E; try discriminate.
  destruct l; simpl in Hl; discriminate.
Qed.

Lemma le_hundred_refl : le hundred hundred = true.
Proof. reflexivity. Qed.

End FloatFacts.

(** ** The progress monitor *)

Module MonitorFacts.
Import Monitor FloatFacts.

Lemma percentages_app (a b : list Event) :
  percentages (a ++ b) = percentages a ++ percentages b.
Proof.
  induction a as [|e a IH]; [reflexivity|].
  simpl. destruct (progressOf e); simpl; now rewrite IH.
Qed.

(** The percentage is 100 as soon as the quotient exceeds 100, so a
    percentage that is emitted is at most 100. *)
Lemma percentage_le_hundred (f l : spec_float) (totalFrames : Z) :
  float64.gt (percentage f totalFrames) l = true ->
  float64.le (percentage f totalFrames) float64.hundred = true.
Proof.
  unfold percentage.
  destruct (float64.gt _ float64.hundred) eqn:E; intros H.
  - reflexivity.
  - now apply not_gt_hundred_le with l.
Qed.

Lemma parseProgress_percentage (totalFrames : Z) (line speed : gostring)
      (p : spec_float) :
  parseProgress totalFrames line = Some (p, speed) ->
  exists f, p = percentage f totalFrames.
Proof.
  unfold parseProgress.
  destruct (strings.Contains _ _); [|discriminate].
  destruct (_ && _); [|discriminate].
  destruct (strconv.ParseFloat _) as [f [e|]]; [discriminate|].
  intros H. injection H as <- _. now exists f.
Qed.

(** What a pass through the loop can emit: nothing, and [lastProgress]
    stays; or one sample above [lastProgress], which becomes the new
    [lastProgress]. *)
Lemma tick_cases (totalFrames : Z) (st : state) (content : gostring) :
  (snd (tick totalFrames st content) = [] /\
   lastProgress (fst (tick totalFrames st content)) = lastProgress st) \/
  (exists f speed,
      let p := percentage f totalFrames in
      snd (tick totalFrames st content) = [ConversionProgress p speed] /\
      float64.gt p (lastProgress st) = true /\
      lastProgress (fst (tick totalFrames st content)) = p).
Proof.
  unfold tick. destruct (readTail _ _) as [pos1 data].
  destruct (bufio.Scan data) as [tokens [unread|]]; [left; auto|].
  destruct (parseProgress _ _) as [[p speed]|] eqn:E; [|left; auto].
  destruct (float64.gt p (lastProgress st)) eqn:G; [|left; auto].
  right. destruct (parseProgress_percentage _ _ _ _ E) as [f ->].
  exists f, speed. simpl. auto.
Qed.

Lemma ticks_increasing (totalFrames : Z) (polls : list gostring) :
  forall st,
    increasingFrom (lastProgress st)
                   (percentages (snd (ticks totalFrames st polls))) /\
    Forall (fun p => float64.le p float64.hundred = true)
           (percentages (snd (ticks totalFrames st polls))).
Proof.
  induction polls as [|content rest IH]; intros st; [simpl; auto|].
  cbn [ticks].
  pose proof (tick_cases totalFrames st content) as Ht.
  destruct (tick totalFrames st content) as [st1 ev1].
  specialize (IH st1).
  destruct (ticks totalFrames st1 rest) as [st2 ev2].
  cbn [fst snd] in *. rewrite percentages_app.
  destruct Ht as [[-> Hl]|(f & speed & -> & Hgt & Hl)].
  - simpl. now rewrite <- Hl.
  - cbn [percentages progressOf app increasingFrom].
    rewrite Hl in IH. destruct IH as [IH1 IH2].
    split; [split; assumption|].
    constructor; [|exact IH2].
    now apply percentage_le_hundred with (lastProgress st).
Qed.

Lemma increasingFrom_strict (l : list spec_float) :
  forall x, increasingFrom x l -> strictlyIncreasing l.
Proof.
  induction l as [|y t IH]; intros x H; [exact I|].
  destruct H as [_ H]. destruct t as [|z t']; [exact I|].
  split; [|now apply IH with y].
  destruct H as [H _]. split; [exact H|]. now apply lt_neq.
Qed.

Lemma strict_nonDecreasing_snoc (l : list spec_float) (top : spec_float) :
  strictlyIncreasing l ->
  Forall (fun p => float64.le p top = true) l ->
  nonDecreasing (l ++ [top]).
Proof.
  induction l as [|y t IH]; intros Hs Hf; [exact I|].
  inversion Hf as [|? ? Hy Ht]; subst.
  destruct t as [|z t']; [split; [exact Hy|exact I]|].
  destruct Hs as [[Hlt _] Hs]. split; [now apply lt_le|].
  now apply IH.
Qed.

(** C2.  A pass through the loop emits a sample only if its percentage is
    greater than [lastProgress], and [lastProgress] is then set to it; so
    the percentages emitted before the final sample increase strictly, no
    two consecutive ones are equal, and the percentages of the whole run,
    final sample of 100 included, never decrease. *)
Theorem progress_emission_monotone (opened : bool) (totalFrames : Z)
        (polls : list gostring) :
  (forall st content p speed,
      In (ConversionProgress p speed) (snd (tick totalFrames st content)) ->
      float64.gt p (lastProgress st) = true /\
      lastProgress (fst (tick totalFrames st content)) = p) /\
  strictlyIncreasing (percentages (snd (ticks totalFrames initial polls))) /\
  nonDecreasing (percentages (monitorProgress opened totalFrames polls)).
Proof.
  split; [|split].
  - intros st content p speed Hin.
    destruct (tick_cases totalFrames st content)
      as [[E _]|(f & sp & E & Hgt & Hl)]; rewrite E in Hin.
    + destruct Hin.
    + destruct Hin as [Hin|[]]. injection Hin as <- _. auto.
  - destruct (ticks_increasing totalFrames polls initial) as [H _].
    now apply increasingFrom_strict with (lastProgress initial).
  - unfold monitorProgress. destruct opened; [|exact I].
    rewrite percentages_app.
    destruct (ticks_increasing totalFrames polls initial) as [H1 H2].
    apply strict_nonDecreasing_snoc; [|exact H2].
    now apply increasingFrom_strict with (lastProgress initial).
Qed.

(** With [totalFrames = 0] the quotient is NaN or infinite: the percentage
    is NaN, 100 or minus infinity. *)
Lemma percentage_zero_total (f : spec_float) :
  percentage f 0 = S754_nan \/ percentage f 0 = float64.hundred \/
  percentage f 0 = S754_infinity true.
Proof.
  unfold percentage. rewrite of_int_0.
  destruct f as [s|s| |s m e]; simpl; auto; destruct s; simpl; auto.
Qed.

Lemma gt_nan (l : spec_float) : float64.gt S754_nan l = false.
Proof. unfold float64.gt, SFltb. now destruct l. Qed.

Lemma gt_minus_infinity (l : spec_float) :
  float64.gt (S754_infinity true) l = false.
Proof. unfold float64.gt, SFltb. destruct l as [s|s| |s m e]; try destruct s; reflexivity. Qed.

(** C3.  With [totalFrames = 0] the division is the division of floats,
    which yields an infinity or NaN and raises nothing: a pass through the
    loop emits nothing, or one sample whose percentage is 100. *)
Theorem zero_totalFrames_total (st : state) (content : gostring) :
  (forall f, percentage f 0 = S754_nan \/ percentage f 0 = float64.hundred
             \/ percentage f 0 = S754_infinity true) /\
  (snd (tick 0 st content) = [] \/
   exists speed,
     snd (tick 0 st content) = [ConversionProgress float64.hundred speed]).
Proof.
  split; [apply percentage_zero_total|].
  destruct (tick_cases 0 st content) as [[E _]|(f & sp & E & Hgt & _)];
    [left; exact E|right].
  cbv zeta in E, Hgt.
  destruct (percentage_zero_total f) as [H|[H|H]]; rewrite H in *.
  - rewrite gt_nan in Hgt. discriminate.
  - now exists sp.
  - rewrite gt_minus_infinity in Hgt. discriminate.
Qed.

End MonitorFacts.

(** ** The patterns of the monitor *)

Module RegexpFacts.
Import regexp strings ListFacts.

Lemma HasPrefix_app (s p : gostring) :
  HasPrefix s p = true <-> exists t, s = p ++ t.
Proof.
  revert s. induction p as [|c p IH]; intros s.
  - destruct s; simpl; split; eauto.
  - destruct s as [|d s]; cbn [HasPrefix app].
    + split; [discriminate|intros [t H]; discriminate].
    + destruct (Ascii.eqb_spec c d) as [->|Hne]; cbn [andb].
      * rewrite IH. split; intros [t H]; exists t; congruence.
      * split; [discriminate|]. intros [t H]. congruence.
Qed.

Lemma skipn_app_exact {A : Type} (a b : list A) : skipn (length a) (a ++ b) = b.
Proof. induction a; simpl; auto. Qed.

Lemma firstn_app_exact {A : Type} (a b : list A) : firstn (length a) (a ++ b) = a.
Proof. induction a; simpl; [reflexivity|now f_equal]. Qed.

(** The run [span] measures: its characters are in the class, the next one
    is not. *)
Lemma span_split (cls : ascii -> bool) (s : gostring) :
  Forall (fun c => cls c = true) (firstn (span cls s) s) /\
  (forall c t, skipn (span cls s) s = c :: t -> cls c = false).
Proof.
  induction s as [|c s [IH1 IH2]]; simpl.
  - split; [constructor|discriminate].
  - destruct (cls c) eqn:E; simpl.
    + split; [now constructor|exact IH2].
    + split; [constructor|]. intros d t H. now injection H as <- _.
Qed.

Lemma span_app (cls : ascii -> bool) (run rest : gostring) :
  Forall (fun c => cls c = true) run ->
  span cls (run ++ rest) = (length run + span cls rest)%nat.
Proof.
  induction 1 as [|c r Hc Hr IH]; simpl; [reflexivity|].
  now rewrite Hc, IH.
Qed.

Lemma span_stop (cls : ascii -> bool) (c : ascii) (t : gostring) :
  cls c = false -> span cls (c :: t) = 0%nat.
Proof. intros H. simpl. now rewrite H. Qed.

Lemma span_le (cls : ascii -> bool) (s : gostring) :
  (span cls s <= length s)%nat.
Proof. induction s as [|c s IH]; simpl; [lia|destruct (cls c); simpl; lia]. Qed.

(** Inside the run every suffix starts with a character of the class. *)
Lemma span_inside (cls : ascii -> bool) (s : gostring) (k : nat) :
  (k < span cls s)%nat -> exists c t, skipn k s = c :: t /\ cls c = true.
Proof.
  revert k. induction s as [|d s IH]; intros k; simpl; [lia|].
  destruct (cls d) eqn:E; [|lia]. intros H.
  destruct k as [|k]; [now exists d, s|].
  simpl. apply IH. lia.
Qed.

Lemma give_back_found {T : Type} (attempt : nat -> option T) (k : nat) (r : T) :
  attempt k = Some r -> give_back attempt k = Some r.
Proof. intros H. destruct k; simpl; now rewrite H. Qed.

Lemma give_back_none {T : Type} (attempt : nat -> option T) (k : nat) :
  (forall j, (j <= k)%nat -> attempt j = None) -> give_back attempt k = None.
Proof.
  induction k as [|k IH]; intros H; simpl.
  - now rewrite (H 0%nat).
  - rewrite (H (S k)) by lia. apply IH. intros j Hj. apply H. lia.
Qed.

(** When the longest run fails and every shorter one fails too. *)
Lemma give_back_top {T : Type} (attempt : nat -> option T) (k : nat) :
  (forall j, (j < k)%nat -> attempt j = None) ->
  give_back attempt k = attempt k.
Proof.
  intros H. destruct (attempt k) as [r|] eqn:E.
  - now apply give_back_found.
  - apply give_back_none. intros j Hj.
    destruct (Nat.eq_dec j k) as [->|Hne]; [exact E|apply H; lia].
Qed.

Lemma perl_classes_disjoint (c : ascii) : perl_s c = true -> perl_d c = false.
Proof.
  unfold perl_s, perl_d. cbn [existsb]. rewrite !orb_true_iff, !Z.eqb_eq.
  intros H. destruct (48 <=? byteZ c) eqn:E1; [|reflexivity].
  destruct (byteZ c <=? 57) eqn:E2; [|reflexivity].
  apply Z.leb_le in E1, E2. exfalso. lia.
Qed.

Lemma perl_d_S (c : ascii) : perl_d c = true -> perl_S c = true.
Proof.
  intros H. unfold perl_S. destruct (perl_s c) eqn:E; [|reflexivity].
  apply perl_classes_disjoint in E. congruence.
Qed.

End RegexpFacts.

Module PatternFacts.
Import regexp strings ListFacts RegexpFacts Monitor.

Lemma match_here_Lit (l : gostring) (re : regex) (s : gostring) :
  match_here (Lit l :: re) s =
  if HasPrefix s l then match_here re (skipn (length l) s) else None.
Proof. reflexivity. Qed.

Lemma match_here_Rep (cls : ascii -> bool) (min : nat) (capture : bool)
      (re : regex) (s : gostring) :
  match_here (Rep cls min capture :: re) s =
  give_back
    (fun k =>
       if (min <=? k)%nat then
         match match_here re (skipn k s) with
         | Some (groups, rest) =>
           Some (if capture then firstn k s :: groups else groups, rest)
         | None => None
         end
       else None)
    (span cls s).
Proof. reflexivity. Qed.

Lemma digits_here (s : gostring) :
  match_here [Rep perl_d 1 true] s =
  if (1 <=? span perl_d s)%nat
  then Some ([firstn (span perl_d s) s], skipn (span perl_d s) s) else None.
Proof.
  cbn [match_here]. destruct (span perl_d s) as [|m]; reflexivity.
Qed.

Lemma match_here_frameRegex (s : gostring) :
  match_here frameRegex s = frameAt s.
Proof.
  unfold frameRegex, frameAt. rewrite match_here_Lit.
  destruct (HasPrefix s (go "frame=")); [|reflexivity].
  change (length (go "frame=")) with 6%nat.
  set (s1 := skipn 6 s).
  rewrite match_here_Rep, give_back_top.
  - cbn [Nat.leb]. rewrite digits_here. cbv zeta.
    destruct (span perl_d (skipn (span perl_s s1) s1)); reflexivity.
  - intros j Hj. cbn [Nat.leb].
    destruct (span_inside perl_s s1 j Hj) as (c & t & E & Hc).
    rewrite digits_here, E, span_stop by now apply perl_classes_disjoint.
    reflexivity.
Qed.

Lemma match_here_speedRegex (s : gostring) :
  match_here speedRegex s = speedAt s.
Proof.
  unfold speedRegex, speedAt. cbn [match_here].
  destruct (HasPrefix s (go "speed=")); [|reflexivity].
  change (length (go "speed=")) with 6%nat.
  destruct (span perl_S (skipn 6 s)) as [|m]; reflexivity.
Qed.


Lemma FindStringSubmatch_unfold (re : regex) (s : gostring) :
  FindStringSubmatch re s =
  match match_here re s with
  | Some (groups, rest) => firstn (length s - length rest) s :: groups
  | None =>
    match s with
    | _ :: t => FindStringSubmatch re t
    | [] => []
    end
  end.
Proof. destruct s; reflexivity. Qed.

(** [FindStringSubmatch] returns [nil] when the pattern matches at no
    position, and otherwise the match at the leftmost position. *)
Lemma FindStringSubmatch_cases (re : regex) (s : gostring) :
  (FindStringSubmatch re s = [] /\
   forall pre t, s = pre ++ t -> match_here re t = None) \/
  (exists pre t groups rest,
      s = pre ++ t /\ match_here re t = Some (groups, rest) /\
      FindStringSubmatch re s = firstn (length t - length rest) t :: groups /\
      forall pre' t', s = pre' ++ t' -> (length pre' < length pre)%nat ->
                      match_here re t' = None).
Proof.
  induction s as [|c s IH]; rewrite FindStringSubmatch_unfold.
  - destruct (match_here re []) as [[groups rest]|] eqn:E.
    + right. exists [], [], groups, rest. repeat split; auto.
      simpl. intros; lia.
    + left. split; [reflexivity|]. intros pre t H.
      symmetry in H. apply app_eq_nil in H. destruct H as [_ ->]. exact E.
  - destruct (match_here re (c :: s)) as [[groups rest]|] eqn:E.
    + right. exists [], (c :: s), groups, rest. repeat split; auto.
      simpl. intros; lia.
    + destruct IH as [[Hnil Hall]|(pre & t & groups & rest & -> & Hm & Hf & Hl)].
      * left. split; [exact Hnil|]. intros pre t H.
        destruct pre as [|d pre]; simpl in H; [now subst t|].
        injection H as _ H. now apply Hall with pre.
      * right. exists (c :: pre), t, groups, rest. repeat split; auto.
        intros pre' t' H Hlen. destruct pre' as [|d pre']; simpl in H.
        -- now subst t'.
        -- injection H as _ H. apply Hl with pre'; [exact H|simpl in Hlen; lia].
Qed.

Lemma frameAt_some (t : gostring) (groups : list gostring) (rest : gostring) :
  frameAt t = Some (groups, rest) ->
  exists ws ds,
    t = go "frame=" ++ ws ++ ds ++ rest /\ groups = [ds] /\
    Forall (fun c => perl_s c = true) ws /\
    Forall (fun c => perl_d c = true) ds /\ ds <> [] /\
    (forall c u, rest = c :: u -> perl_d c = false).
Proof.
  unfold frameAt. destruct (HasPrefix t (go "frame=")) eqn:Hp; [|discriminate].
  apply HasPrefix_app in Hp. destruct Hp as [s1 ->].
  change 6%nat with (length (go "frame=")). rewrite skipn_app_exact.
  set (s2 := skipn (span perl_s s1) s1).
  destruct (1 <=? span perl_d s2)%nat eqn:Hm; [|discriminate].
  intros H. injection H as <- <-.
  exists (firstn (span perl_s s1) s1), (firstn (span perl_d s2) s2).
  destruct (span_split perl_s s1) as [Hws _].
  destruct (span_split perl_d s2) as [Hds Hnext].
  repeat split; auto.
  - rewrite (firstn_skipn _ s2). unfold s2. now rewrite (firstn_skipn _ s1).
  - apply Nat.leb_le in Hm. intros E. apply (f_equal (@length ascii)) in E.
    rewrite length_firstn in E. pose proof (span_le perl_d s2). simpl in E. lia.
Qed.

Lemma frameAt_found (ws post : gostring) (d : ascii) :
  Forall (fun c => perl_s c = true) ws -> perl_d d = true ->
  frameAt (go "frame=" ++ ws ++ d :: post) <> None.
Proof.
  intros Hws Hd. unfold frameAt.
  assert (Hp : HasPrefix (go "frame=" ++ ws ++ d :: post) (go "frame=") = true)
    by (apply HasPrefix_app; eauto).
  rewrite Hp. change 6%nat with (length (go "frame=")).
  rewrite skipn_app_exact. cbv zeta.
  assert (Hd' : perl_s d = false).
  { destruct (perl_s d) eqn:E; [|reflexivity].
    apply perl_classes_disjoint in E. congruence. }
  rewrite span_app, span_stop, Nat.add_0_r, skipn_app_exact by assumption.
  simpl. rewrite Hd. discriminate.
Qed.

Lemma speedAt_some (t : gostring) (groups : list gostring) (rest : gostring) :
  speedAt t = Some (groups, rest) ->
  exists tok,
    t = go "speed=" ++ tok ++ rest /\ groups = [tok] /\
    Forall (fun c => perl_S c = true) tok /\ tok <> [] /\
    (forall c u, rest = c :: u -> perl_S c = false).
Proof.
  unfold speedAt. destruct (HasPrefix t (go "speed=")) eqn:Hp; [|discriminate].
  apply HasPrefix_app in Hp. destruct Hp as [s1 ->].
  change 6%nat with (length (go "speed=")). rewrite skipn_app_exact.
  destruct (1 <=? span perl_S s1)%nat eqn:Hm; [|discriminate].
  intros H. injection H as <- <-.
  exists (firstn (span perl_S s1) s1).
  destruct (span_split perl_S s1) as [Htok Hnext].
  repeat split; auto.
  - now rewrite (firstn_skipn _ s1).
  - apply Nat.leb_le in Hm. intros E. apply (f_equal (@length ascii)) in E.
    rewrite length_firstn in E. pose proof (span_le perl_S s1). simpl in E. lia.
Qed.

Lemma speedAt_found (post : gostring) (c : ascii) :
  perl_S c = true -> speedAt (go "speed=" ++ c :: post) <> None.
Proof.
  intros Hc. unfold speedAt.
  assert (Hp : HasPrefix (go "speed=" ++ c :: post) (go "speed=") = true)
    by (apply HasPrefix_app; eauto).
  rewrite Hp. change 6%nat with (length (go "speed=")).
  rewrite skipn_app_exact. simpl. rewrite Hc. discriminate.
Qed.

End PatternFacts.

(** ** Telemetry read from a line *)

Module TelemetryFacts.
Import regexp strings ListFacts RegexpFacts Monitor PatternFacts FloatFacts MonitorFacts.

(** The line has the frame field exactly when the frame pattern matches;
    the group is then the run of digits of the leftmost such field. *)
Lemma frame_field_match (line : gostring) :
  hasFrameField line <->
  (1 < length (FindStringSubmatch frameRegex line))%nat.
Proof.
  split.
  - intros (pre & ws & d & post & -> & Hws & Hd).
    destruct (FindStringSubmatch_cases frameRegex
                (pre ++ go "frame=" ++ ws ++ d :: post))
      as [[_ Hall]|(p & t & groups & rest & _ & Hm & -> & _)].
    + exfalso. apply (frameAt_found ws post d Hws Hd).
      rewrite <- match_here_frameRegex. now apply Hall with pre.
    + rewrite match_here_frameRegex in Hm.
      destruct (frameAt_some _ _ _ Hm) as (? & ? & _ & -> & _). simpl. lia.
  - intros H.
    destruct (FindStringSubmatch_cases frameRegex line)
      as [[E _]|(p & t & groups & rest & -> & Hm & _ & _)].
    + rewrite E in H. simpl in H. lia.
    + rewrite match_here_frameRegex in Hm.
      destruct (frameAt_some _ _ _ Hm)
        as (ws & ds & -> & _ & Hws & Hds & Hne & _).
      destruct ds as [|d ds]; [congruence|].
      exists p, ws, d, (ds ++ rest). repeat split; auto.
      now inversion Hds.
Qed.

Lemma speed_field_match (line : gostring) :
  hasSpeedField line <->
  (1 < length (FindStringSubmatch speedRegex line))%nat.
Proof.
  split.
  - intros (pre & c & post & -> & Hc).
    destruct (FindStringSubmatch_cases speedRegex
                (pre ++ go "speed=" ++ c :: post))
      as [[_ Hall]|(p & t & groups & rest & _ & Hm & -> & _)].
    + exfalso. apply (speedAt_found post c Hc).
      rewrite <- match_here_speedRegex. now apply Hall with pre.
    + rewrite match_here_speedRegex in Hm.
      destruct (speedAt_some _ _ _ Hm) as (? & _ & -> & _). simpl. lia.
  - intros H.
    destruct (FindStringSubmatch_cases speedRegex line)
      as [[E _]|(p & t & groups & rest & -> & Hm & _ & _)].
    + rewrite E in H. simpl in H. lia.
    + rewrite match_here_speedRegex in Hm.
      destruct (speedAt_some _ _ _ Hm) as (tok & -> & _ & Htok & Hne & _).
      destruct tok as [|c tok]; [congruence|].
      exists p, c, (tok ++ rest). split; [reflexivity|now inversion Htok].
Qed.

(** Where the captured digits stand in the line. *)
Lemma frameDigits_spec (line : gostring) :
  hasFrameField line ->
  exists pre ws post,
    line = pre ++ go "frame=" ++ ws ++ frameDigits line ++ post /\
    Forall (fun c => perl_s c = true) ws /\
    Forall (fun c => perl_d c = true) (frameDigits line) /\
    frameDigits line <> [] /\
    (forall c u, post = c :: u -> perl_d c = false).
Proof.
  intros H. apply frame_field_match in H. unfold frameDigits.
  destruct (FindStringSubmatch_cases frameRegex line)
    as [[E _]|(p & t & groups & rest & -> & Hm & E & _)].
  - rewrite E in H. simpl in H. lia.
  - rewrite match_here_frameRegex in Hm.
    destruct (frameAt_some _ _ _ Hm)
      as (ws & ds & -> & -> & Hws & Hds & Hne & Hnext).
    rewrite E. cbn [nth]. exists p, ws, rest. auto.
Qed.

Lemma speedToken_spec (line : gostring) :
  hasSpeedField line ->
  exists pre post,
    line = pre ++ go "speed=" ++ speedToken line ++ post /\
    Forall (fun c => perl_S c = true) (speedToken line) /\
    speedToken line <> [] /\
    (forall c u, post = c :: u -> perl_S c = false).
Proof.
  intros H. apply speed_field_match in H. unfold speedToken.
  destruct (FindStringSubmatch_cases speedRegex line)
    as [[E _]|(p & t & groups & rest & -> & Hm & E & _)].
  - rewrite E in H. simpl in H. lia.
  - rewrite match_here_speedRegex in Hm.
    destruct (speedAt_some _ _ _ Hm) as (tok & -> & -> & Htok & Hne & Hnext).
    rewrite E. cbn [nth]. exists p, rest. auto.
Qed.

Lemma Contains_unfold (s p : gostring) :
  Contains s p =
  HasPrefix s p || match s with [] => false | _ :: t => Contains t p end.
Proof. destruct s; reflexivity. Qed.

(** A line with the frame field contains [frame=]. *)
Lemma Contains_app (pre p post : gostring) :
  Contains (pre ++ p ++ post) p = true.
Proof.
  induction pre as [|c pre IH]; rewrite Contains_unfold.
  - assert (H : HasPrefix (p ++ post) p = true) by (apply HasPrefix_app; eauto).
    cbn [app]. now rewrite H.
  - cbn [app]. rewrite IH. apply orb_true_r.
Qed.

(** [strconv.ParseFloat] on a run of digits: never a syntax error. *)
Lemma ParseFloat_digits (ds : gostring) :
  ds <> [] -> Forall (fun c => perl_d c = true) ds ->
  strconv.ParseFloat ds =
  (float64.of_int (strconv.decimal ds),
   if float64.is_inf (float64.of_int (strconv.decimal ds))
   then Some strconv.ErrRange else None).
Proof.
  intros Hne Hds. unfold strconv.ParseFloat.
  destruct ds as [|d ds]; [congruence|].
  assert (H : forallb strconv.isDigit (d :: ds) = true)
    by (apply forallb_forall; intros c Hc;
        now apply (proj1 (Forall_forall _ _) Hds)).
  rewrite H. now destruct (float64.is_inf _).
Qed.

Lemma percentage_ceiling (f : spec_float) (totalFrames : Z) :
  float64.gt (percentage f totalFrames) float64.hundred = false.
Proof.
  unfold percentage.
  destruct (float64.gt (float64.mul _ _) float64.hundred) eqn:E;
    [reflexivity|exact E].
Qed.

(** C5, as the code has it.  A line without the frame field or without the
    speed field yields no sample.  On a line with both, the digits after
    the leftmost [frame=] are read as a float; when the number is within
    the range of [float64] the percentage is the quotient by [totalFrames]
    times 100, at most 100, and the speed is the token after the leftmost
    [speed=] with surrounding Unicode white space removed; when it is
    beyond the range, [ParseFloat] reports [ErrRange] and the line yields
    no sample.  The line of the example gives 50 and [1.2x], and a monitor
    that has emitted nothing emits that sample. *)
Theorem telemetry_extraction (totalFrames : Z) (line : gostring) :
  (~ hasFrameField line \/ ~ hasSpeedField line ->
   parseProgress totalFrames line = None) /\
  (hasFrameField line -> hasSpeedField line ->
   let currentFrame := float64.of_int (strconv.decimal (frameDigits line)) in
   if float64.is_inf currentFrame
   then strconv.ParseFloat (frameDigits line) = (currentFrame, Some strconv.ErrRange)
        /\ parseProgress totalFrames line = None
   else parseProgress totalFrames line
        = Some (percentage currentFrame totalFrames,
                trim.TrimSpace (speedToken line))) /\
  (forall f, float64.gt (percentage f totalFrames) float64.hundred = false) /\
  parseProgress 100 (go "frame=  50 fps=30 q=28 size=... speed=1.2x")
  = Some (float64.of_int 50, go "1.2x") /\
  snd (tick 100 initial (go "frame=  50 fps=30 q=28 size=... speed=1.2x"))
  = [ConversionProgress (float64.of_int 50) (go "1.2x")].
Proof.
  split; [|split; [|split; [|split]]].
  - intros H. unfold parseProgress.
    destruct (Contains line (go "frame=")); [|reflexivity].
    destruct ((1 <? length (FindStringSubmatch frameRegex line))%nat) eqn:Ef;
      [|reflexivity].
    destruct ((1 <? length (FindStringSubmatch speedRegex line))%nat) eqn:Es;
      [|reflexivity].
    apply Nat.ltb_lt in Ef, Es.
    apply frame_field_match in Ef. apply speed_field_match in Es. tauto.
  - intros Hf Hs currentFrame.
    destruct (frameDigits_spec line Hf)
      as (pre & ws & post & Hline & _ & Hds & Hne & _).
    pose proof (ParseFloat_digits _ Hne Hds) as Hp.
    fold currentFrame in Hp.
    assert (Hc : Contains line (go "frame=") = true).
    { rewrite Hline. apply Contains_app. }
    apply frame_field_match, Nat.ltb_lt in Hf.
    apply speed_field_match, Nat.ltb_lt in Hs.
    unfold parseProgress. rewrite Hc, Hf, Hs. cbn [andb].
    fold (frameDigits line). fold (speedToken line). rewrite Hp.
    destruct (float64.is_inf currentFrame); auto.
  - intros f. apply percentage_ceiling.
  - vm_compute. reflexivity.
  - vm_compute. reflexivity.
Qed.

(** C5, as stated, fails: a line with both fields whose frame number has
    400 digits yields no sample, although the quotient the claim describes
    is infinite and so cut to 100, above the last percentage 0. *)
Lemma frame_number_out_of_range :
  let line := go "frame=" ++ repeat "9"%char 400 ++ go " speed=1x" in
  hasFrameField line /\ hasSpeedField line /\
  (length line <= 1024)%nat /\
  percentage (fst (strconv.ParseFloat (frameDigits line))) 100
  = float64.hundred /\
  float64.gt float64.hundred (lastProgress initial) = true /\
  parseProgress 100 line = None /\
  snd (tick 100 initial line) = [].
Proof.
  intros line. split; [|split].
  - exists [], [], "9"%char, (repeat "9"%char 399 ++ go " speed=1x").
    split; [reflexivity|]. split; [constructor|reflexivity].
  - exists (go "frame=" ++ repeat "9"%char 400 ++ go " "), "1"%char, (go "x").
    split; [vm_compute; reflexivity|reflexivity].
  - repeat split; vm_compute; try reflexivity. lia.
Qed.

End TelemetryFacts.

(** ** The read of the tail of the log *)

Module TailReadFacts.
Import Monitor.

(** On a file of at least 1024 bytes the seek succeeds and the pass reads
    the last 1024 bytes, wherever the position was. *)
Lemma readTail_long (pos : nat) (content : gostring) :
  (1024 <= length content)%nat ->
  readTail pos content
  = ((length content - 1024)%nat, skipn (length content - 1024) content) /\
  length (snd (readTail pos content)) = 1024%nat.
Proof.
  intros H. unfold readTail, Seek_end.
  destruct (Z.of_nat (length content) + -1024 <? 0) eqn:E.
  - apply Z.ltb_lt in E. lia.
  - cbn [fst snd].
    replace (Z.to_nat (Z.of_nat (length content) + -1024))
      with (length content - 1024)%nat by lia.
    split; [reflexivity|]. rewrite length_skipn. lia.
Qed.

(** On a shorter file the seek fails and the position stays: the pass reads
    from where the previous one stopped. *)
Lemma readTail_short (pos : nat) (content : gostring) :
  (length content < 1024)%nat ->
  readTail pos content = (pos, skipn pos content).
Proof.
  intros H. unfold readTail, Seek_end.
  destruct (Z.of_nat (length content) + -1024 <? 0) eqn:E; [reflexivity|].
  apply Z.ltb_ge in E. lia.
Qed.

Lemma scanLines_fits (data : gostring) :
  forall cur n,
    (N.of_nat (length data) + n < bufio.MaxScanTokenSize)%N ->
    snd (bufio.scanLines cur n data) = None.
Proof.
  unfold bufio.MaxScanTokenSize.
  induction data as [|c t IH]; intros cur n H; [reflexivity|].
  cbn [bufio.scanLines]. cbn [length] in H. unfold bufio.MaxScanTokenSize.
  destruct (Ascii.eqb c bufio.LF).
  - specialize (IH [] 0%N). destruct (bufio.scanLines [] 0 t) as [toks err].
    cbn [snd] in *. apply IH. lia.
  - destruct (65536 <=? N.succ n)%N eqn:E; [apply N.leb_le in E; lia|].
    apply IH. lia.
Qed.

(** The scanner never stops on a line too long for its buffer: a pass
    reads at most 1024 bytes. *)
Lemma tick_scan_succeeds (pos : nat) (content : gostring) :
  snd (bufio.Scan (snd (readTail pos content))) = None.
Proof.
  apply scanLines_fits. unfold bufio.MaxScanTokenSize.
  destruct (Nat.le_gt_cases 1024 (length content)) as [H|H].
  - destruct (readTail_long pos content H) as [_ ->]. lia.
  - rewrite (readTail_short pos content H). cbn [snd].
    rewrite length_skipn. lia.
Qed.

(** After a pass the position is the end of the file as it was read. *)
Lemma tick_position (totalFrames : Z) (st : state) (content : gostring) :
  position (fst (tick totalFrames st content))
  = Nat.max (fst (readTail (position st) content)) (length content).
Proof.
  unfold tick. pose proof (tick_scan_succeeds (position st) content) as H.
  destruct (readTail (position st) content) as [pos1 data]. cbn [fst snd] in *.
  destruct (bufio.Scan data) as [tokens [unread|]]; [discriminate|].
  destruct (parseProgress _ _) as [[p speed]|]; [|reflexivity].
  now destruct (float64.gt p (lastProgress st)).
Qed.

(** While the log is shorter than 1024 bytes, a pass that follows another
    one reads the bytes appended in between and nothing else. *)
Lemma short_log_reads_appended (totalFrames : Z) (st : state)
      (poll1 poll2 : gostring) :
  (position st <= length poll1)%nat ->
  (length poll1 <= length poll2)%nat -> (length poll2 < 1024)%nat ->
  readTail (position (fst (tick totalFrames st poll1))) poll2
  = (length poll1, skipn (length poll1) poll2).
Proof.
  intros H0 H1 H2. rewrite tick_position.
  rewrite (readTail_short (position st) poll1) by lia. cbn [fst].
  rewrite Nat.max_r by exact H0. apply readTail_short. exact H2.
Qed.

(** C4, on the code.  A log file of 23 bytes at the first poll holds the
    beginning of a progress line; at the second poll it holds the whole
    line, 43 bytes.  Both seeks fail and the errors are dropped.  The first
    pass reads the file from byte 0; the second reads from byte 23, where
    the first stopped, and not from the start of the file: it sees a line
    without [frame=] and emits nothing, where the whole line would give the
    sample of 50 percent. *)
Theorem short_log_not_read_from_start :
  let poll1 := go "frame=  50 fps=30 q=28 " in
  let poll2 := poll1 ++ go "size=... speed=1.2x" ++ [bufio.LF] in
  (length poll2 < 1024)%nat /\
  Seek_end (-1024) (length poll1) 0 = (0%nat, true) /\
  Seek_end (-1024) (length poll2) 23 = (23%nat, true) /\
  readTail 0 poll1 = (0%nat, poll1) /\
  readTail 23 poll2 = (23%nat, go "size=... speed=1.2x" ++ [bufio.LF]) /\
  monitorProgress true 100 [poll1; poll2] = [finalSample] /\
  parseProgress 100 (last (fst (bufio.Scan poll2)) [])
  = Some (float64.of_int 50, go "1.2x") /\
  monitorProgress true 100 [poll2]
  = [ConversionProgress (float64.of_int 50) (go "1.2x"); finalSample].
Proof. repeat split; vm_compute; try reflexivity. lia. Qed.

End TailReadFacts.

(** ** The queue driver *)

Module FrontendFacts.

Import Frontend.

Lemma startConversion_progressVideo (s : state) :
  progressVideo (startConversion s) = progressVideo s.
Proof.
  unfold startConversion.
  destruct (progressVideo s) eqn:E, (destinationFolder s); simpl; auto.
Qed.

Lemma startConversion_selectedVideos (s : state) :
  selectedVideos (startConversion s) = selectedVideos s.
Proof.
  unfold startConversion.
  destruct (progressVideo s), (destinationFolder s); reflexivity.
Qed.

Lemma startConversion_destinationFolder (s : state) :
  destinationFolder (startConversion s) = destinationFolder s.
Proof.
  unfold startConversion.
  destruct (progressVideo s), (destinationFolder s) eqn:E; cbn; auto.
Qed.

(** The call [startConversion] makes, if any: one for a video object in
    [progressVideo] and a destination folder that is not empty. *)
Lemma startConversion_calls (s : state) :
  calls (startConversion s)
  = calls s ++ match progressVideo s, destinationFolder s with
               | Some v, _ :: _ =>
                 [mkCall (FullPath v) (destinationFolder s) (FrameCount v)]
               | _, _ => []
               end.
Proof.
  unfold startConversion.
  destruct (progressVideo s), (destinationFolder s); cbn [calls];
    now rewrite ?app_nil_r.
Qed.

Lemma canStart_spec (s : state) :
  canStart s = true <-> progressVideo s = None /\ selectedVideos s <> [].
Proof.
  unfold canStart.
  destruct (progressVideo s), (selectedVideos s); split; intros H;
    try discriminate; try (destruct H; congruence); split; congruence.
Qed.

Lemma updateProgressVideo_started (s : state) :
  snd (updateProgressVideo s) = canStart s.
Proof.
  unfold updateProgressVideo, canStart.
  destruct (progressVideo s), (selectedVideos s); reflexivity.
Qed.

Lemma updateProgressVideo_running (s : state) (v : VideoInfo) :
  progressVideo s = Some v -> updateProgressVideo s = (s, false).
Proof.
  intros H. unfold updateProgressVideo. now rewrite H.
Qed.

Lemma updateProgressVideo_empty (s : state) :
  selectedVideos s = [] -> updateProgressVideo s = (s, false).
Proof.
  intros H. unfold updateProgressVideo. rewrite H.
  now destruct (progressVideo s).
Qed.

(** What [updateProgressVideo] does when it acts: the head of the list
    leaves it and is stored in [progressVideo], and [startConversion]
    makes its call, if any. *)
Lemma updateProgressVideo_marks (s : state) :
  canStart s = true ->
  exists head rest,
    selectedVideos s = head :: rest /\
    progressVideo (advance s) = head /\
    selectedVideos (advance s) = rest /\
    destinationFolder (advance s) = destinationFolder s /\
    calls (advance s)
    = calls s ++ match head, destinationFolder s with
                 | Some v, _ :: _ =>
                   [mkCall (FullPath v) (destinationFolder s) (FrameCount v)]
                 | _, _ => []
                 end.
Proof.
  unfold canStart, advance, updateProgressVideo.
  destruct (progressVideo s) eqn:Ep; [discriminate|].
  destruct (selectedVideos s) as [|head rest] eqn:Es; [discriminate|].
  intros _. exists head, rest. cbn [fst].
  rewrite startConversion_progressVideo, startConversion_selectedVideos,
    startConversion_calls, startConversion_destinationFolder.
  repeat split.
Qed.

(** C1, as the code has it.  [updateProgressVideo] acts exactly when no
    video is marked as in progress and the list is not empty; in every
    other state, in particular while a video is marked, it changes
    nothing.  When it acts it takes the head off the list, stores it in
    [progressVideo] and calls the back end for it, once, if the head is a
    video object and a destination folder is chosen; with no destination
    folder the video is marked and no call is made, and an undefined head
    is taken off with nothing marked and no call made.  So in a state with
    no video marked, a video object at the head of the list and a
    destination folder chosen, two calls in succession start exactly one
    job: the first reports that it started and makes one call to the back
    end, the second changes nothing.  In any state the second call
    changes nothing when the first left a video marked or the list
    empty. *)
Theorem updateProgressVideo_one_job (s : state) :
  let '(s1, started1) := updateProgressVideo s in
  let '(s2, started2) := updateProgressVideo s1 in
  (started1 = true <-> progressVideo s = None /\ selectedVideos s <> []) /\
  (started1 = false -> s1 = s) /\
  (progressVideo s <> None -> started1 = false /\ s1 = s) /\
  (started1 = true ->
     exists head rest,
       selectedVideos s = head :: rest /\
       progressVideo s1 = head /\ selectedVideos s1 = rest /\
       calls s1
       = calls s ++ match head, destinationFolder s with
                    | Some v, _ :: _ =>
                      [mkCall (FullPath v) (destinationFolder s)
                              (FrameCount v)]
                    | _, _ => []
                    end) /\
  (forall v rest,
     progressVideo s = None -> selectedVideos s = Some v :: rest ->
     destinationFolder s <> [] ->
     started1 = true /\
     progressVideo s1 = Some v /\ selectedVideos s1 = rest /\
     calls s1
     = calls s ++ [mkCall (FullPath v) (destinationFolder s) (FrameCount v)] /\
     started2 = false /\ s2 = s1) /\
  (progressVideo s1 <> None \/ selectedVideos s1 = [] ->
     started2 = false /\ s2 = s1).
Proof.
  destruct (updateProgressVideo s) as [s1 started1] eqn:E1.
  destruct (updateProgressVideo s1) as [s2 started2] eqn:E2.
  assert (Hst : started1 = canStart s).
  { rewrite <- updateProgressVideo_started, E1. reflexivity. }
  assert (Hs1 : s1 = advance s) by (unfold advance; now rewrite E1).
  assert (Hidle : started1 = false -> s1 = s).
  { intros ->. revert E1. unfold updateProgressVideo.
    destruct (progressVideo s), (selectedVideos s); congruence. }
  assert (Hmarked : progressVideo s <> None -> started1 = false /\ s1 = s).
  { intros Hrun. destruct (progressVideo s) eqn:Ep; [|congruence].
    rewrite (updateProgressVideo_running s v Ep) in E1.
    injection E1 as <- <-. auto. }
  assert (Hact : started1 = true ->
                 exists head rest,
                   selectedVideos s = head :: rest /\
                   progressVideo s1 = head /\ selectedVideos s1 = rest /\
                   calls s1
                   = calls s ++ match head, destinationFolder s with
                                | Some v, _ :: _ =>
                                  [mkCall (FullPath v) (destinationFolder s)
                                          (FrameCount v)]
                                | _, _ => []
                                end).
  { intros H. rewrite Hst in H.
    destruct (updateProgressVideo_marks s H)
      as (head & rest & ? & ? & ? & _ & ?).
    exists head, rest. now rewrite Hs1. }
  assert (Hsecond : progressVideo s1 <> None \/ selectedVideos s1 = [] ->
                    started2 = false /\ s2 = s1).
  { intros [H|H].
    - destruct (progressVideo s1) as [v|] eqn:Ep; [|congruence].
      rewrite (updateProgressVideo_running s1 v Ep) in E2.
      injection E2 as <- <-. auto.
    - rewrite (updateProgressVideo_empty s1 H) in E2.
      injection E2 as <- <-. auto. }
  split; [rewrite Hst; apply canStart_spec|].
  split; [exact Hidle|]. split; [exact Hmarked|]. split; [exact Hact|].
  split; [|exact Hsecond].
  intros v rest Hp Hs Hd.
  assert (H1 : started1 = true).
  { rewrite Hst. apply canStart_spec. split; [exact Hp|]. now rewrite Hs. }
  destruct (Hact H1) as (head & rest' & Es & Ep1 & Es1 & Ec1).
  rewrite Hs in Es. injection Es as <- <-.
  destruct (destinationFolder s) as [|d ds] eqn:Ed; [congruence|].
  destruct Hsecond as [H2 H3]; [left; rewrite Ep1; discriminate|].
  repeat split; assumption.
Qed.

(** C1, as stated, fails in two kinds of states.  With no destination
    folder chosen, [updateProgressVideo] marks the video and reports that
    it started, but no call to the back end is made: no job is started.
    With an undefined entry at the head of the list, as a drop leaves one
    whose source row is gone (here row 1 dragged while the list held two
    videos, dropped on row 0 when it holds one, before the video in
    progress completes), the first call takes the entry off and marks
    nothing, and the second call, right after it, is no no-op: it starts
    the next video. *)
Lemma updateProgressVideo_starts_no_job :
  (let s := mkState [Some videoA] None [] float64.zero [] [] false [] in
   let s1 := fst (updateProgressVideo s) in
   snd (updateProgressVideo s) = true /\
   progressVideo s1 = Some videoA /\ selectedVideos s1 = [] /\
   calls s1 = []) /\
  (let dragged :=
     mkState [Some videoC] (Some videoB) (go "/out") float64.zero [] [] false
             [mkCall (go "/videos/A.mp4") (go "/out") 100;
              mkCall (go "/videos/B.mp4") (go "/out") 50] in
   let s := setProgressVideo None (Queue.dropRow (Some 1) 0 dragged) in
   let s1 := fst (updateProgressVideo s) in
   let s2 := fst (updateProgressVideo s1) in
   selectedVideos s = [None; Some videoC] /\
   snd (updateProgressVideo s) = true /\
   progressVideo s1 = None /\ calls s1 = calls s /\
   snd (updateProgressVideo s1) = true /\
   progressVideo s2 = Some videoC /\
   calls s2 = calls s ++ [mkCall (go "/videos/C.mp4") (go "/out") 75]).
Proof. split; cbv zeta; repeat split. Qed.

End FrontendFacts.

(** ** The supervisor and the queue *)

Module SupervisorFacts.
Import Monitor.

(** The monitor emits progress samples only. *)
Lemma tick_only_progress (totalFrames : Z) (st : state) (content : gostring) :
  forallb isProgress (snd (tick totalFrames st content)) = true.
Proof.
  destruct (MonitorFacts.tick_cases totalFrames st content)
    as [[-> _]|(f & sp & -> & _)]; reflexivity.
Qed.

Lemma ticks_only_progress (totalFrames : Z) (polls : list gostring) :
  forall st, forallb isProgress (snd (ticks totalFrames st polls)) = true.
Proof.
  induction polls as [|c rest IH]; intros st; [reflexivity|].
  cbn [ticks]. pose proof (tick_only_progress totalFrames st c) as H1.
  destruct (tick totalFrames st c) as [st1 ev1]. specialize (IH st1).
  destruct (ticks totalFrames st1 rest) as [st2 ev2]. cbn [snd] in *.
  rewrite forallb_app, H1, IH. reflexivity.
Qed.

Lemma monitor_only_progress (opened : bool) (totalFrames : Z)
      (polls : list gostring) :
  forallb isProgress (monitorProgress opened totalFrames polls) = true.
Proof.
  unfold monitorProgress. destruct opened; [|reflexivity].
  rewrite forallb_app, ticks_only_progress. reflexivity.
Qed.

(** The monitor that could open the log ends its run with the sample of
    the [done] branch, 100 with an empty speed, and emits it once at the
    end; every sample before it comes from a poll. *)
Lemma monitor_final_sample (totalFrames : Z) (polls : list gostring) :
  exists samples,
    monitorProgress true totalFrames polls
    = samples ++ [ConversionProgress float64.hundred []] /\
    samples = snd (ticks totalFrames initial polls) /\
    (length samples <= length polls)%nat.
Proof.
  exists (snd (ticks totalFrames initial polls)).
  split; [reflexivity|split; [reflexivity|]].
  generalize initial. induction polls as [|c rest IH]; intros st; [simpl; lia|].
  cbn [ticks].
  pose proof (MonitorFacts.tick_cases totalFrames st c) as H1.
  destruct (tick totalFrames st c) as [st1 ev1]. specialize (IH st1).
  destruct (ticks totalFrames st1 rest) as [st2 ev2]. cbn [fst snd] in *.
  rewrite length_app. cbn [length].
  destruct H1 as [[-> _]|(f & sp & -> & _)]; simpl; lia.
Qed.

(** A conversion that succeeds: [ConvertVideo] returns no error, has closed
    [done], and has emitted the completion event with the output path and
    then the next-job signal, once each. *)
Lemma convert_success (a : App) (os : EncoderRun)
      (inputPath outputFolder : gostring) (totalFrames : Z) :
  MkdirAll_error os = None -> Create_error os = None ->
  Start_error os = None -> Wait_error os = None ->
  let c := ConvertVideo a os inputPath outputFolder totalFrames in
  returned c = None /\
  emitted c = [ConversionComplete (outputPath inputPath outputFolder);
               ConversionNext] /\
  doneClosed c = true /\
  monitor c = Some (logFilePath a inputPath, totalFrames).
Proof.
  intros H1 H2 H3 H4. unfold ConvertVideo. rewrite H1, H2, H3, H4.
  repeat split.
Qed.

Lemma advance_selectedVideos (s : Frontend.state) :
  Frontend.selectedVideos (Frontend.advance s) = Frontend.selectedVideos s \/
  Frontend.selectedVideos (Frontend.advance s)
  = tl (Frontend.selectedVideos s).
Proof.
  unfold Frontend.advance, Frontend.updateProgressVideo.
  destruct (Frontend.progressVideo s); [now left|].
  destruct (Frontend.selectedVideos s) as [|head rest] eqn:E; [left; exact E|].
  right. cbn [fst]. rewrite FrontendFacts.startConversion_selectedVideos.
  reflexivity.
Qed.

Lemma advance_showErrorPopup (s : Frontend.state) :
  Frontend.showErrorPopup (Frontend.advance s) = Frontend.showErrorPopup s.
Proof.
  unfold Frontend.advance, Frontend.updateProgressVideo.
  destruct (Frontend.progressVideo s); [reflexivity|].
  destruct (Frontend.selectedVideos s) as [|head rest]; [reflexivity|].
  cbn [fst]. unfold Frontend.startConversion.
  cbn [Frontend.progressVideo Frontend.destinationFolder
       Frontend.setSelectedVideos Frontend.setProgressVideo].
  now destruct head, (Frontend.destinationFolder s).
Qed.

Lemma advance_errorMessage (s : Frontend.state) :
  Frontend.errorMessage (Frontend.advance s) = Frontend.errorMessage s.
Proof.
  unfold Frontend.advance, Frontend.updateProgressVideo.
  destruct (Frontend.progressVideo s); [reflexivity|].
  destruct (Frontend.selectedVideos s) as [|head rest]; [reflexivity|].
  cbn [fst]. unfold Frontend.startConversion.
  cbn [Frontend.progressVideo Frontend.destinationFolder
       Frontend.setSelectedVideos Frontend.setProgressVideo].
  now destruct head, (Frontend.destinationFolder s).
Qed.

(** A handler that clears the marker and advances: the marker then holds
    the head of the list, which has left the list. *)
Lemma advance_cleared (t : Frontend.state) :
  Frontend.progressVideo t = None ->
  Frontend.progressVideo (Frontend.advance t)
  = match Frontend.selectedVideos t with
    | head :: _ => head
    | [] => None
    end /\
  Frontend.selectedVideos (Frontend.advance t)
  = tl (Frontend.selectedVideos t).
Proof.
  intros Hp. unfold Frontend.advance, Frontend.updateProgressVideo.
  rewrite Hp. destruct (Frontend.selectedVideos t) as [|head rest] eqn:E.
  - cbn [fst tl]. auto.
  - cbn [fst tl].
    rewrite FrontendFacts.startConversion_progressVideo,
      FrontendFacts.startConversion_selectedVideos. auto.
Qed.

(** C7, as the code has it.  When the output directory and the log file
    could be created: an encoder that runs and fails makes [ConvertVideo]
    close [done], emit one error event with the text of the process error
    and return an error that carries this text; an encoder that cannot be
    started makes it return an error that carries the text of the launch
    error and emit no event at all, the monitor not being started.  In
    both cases no completion event and no next-job signal is emitted and
    the encoder is not started again.  The front end, on the error event
    as on the rejected call, takes the marker off the failed video (the
    marker passes to the head of the list, if any, which leaves the list),
    does not put the failed video back on the list and shows a message:
    the text of the event, or [Conversion Error: ] followed by
    [err.message] of the rejection, which reads [undefined] for the string
    the call is rejected with. *)
Theorem encode_failure_handling (a : App) (os : EncoderRun)
        (inputPath outputFolder : gostring) (totalFrames : Z) :
  MkdirAll_error os = None -> Create_error os = None ->
  let c := ConvertVideo a os inputPath outputFolder totalFrames in
  (forall err, Start_error os = None -> Wait_error os = Some err ->
     returned c = Some (go "FFmpeg error: " ++ err) /\
     emitted c = [ConversionError err] /\
     doneClosed c = true) /\
  (forall err, Start_error os = Some err ->
     returned c = Some (go "failed to start FFmpeg: " ++ err) /\
     emitted c = [] /\ started c = None /\ monitor c = None) /\
  (returned c <> None ->
     existsb isCompletion (emitted c) = false /\
     ~ In ConversionNext (emitted c)) /\
  (forall s msg,
     let s1 := Frontend.onError msg s in
     Frontend.progressVideo s1
     = match Frontend.selectedVideos s with
       | head :: _ => head
       | [] => None
       end /\
     Frontend.selectedVideos s1 = tl (Frontend.selectedVideos s) /\
     Frontend.notRequeued s s1 /\
     Frontend.errorMessage s1 = msg /\
     Frontend.showErrorPopup s1 = true) /\
  (forall s err,
     let s1 := Frontend.onRejected err s in
     Frontend.progressVideo s1
     = match Frontend.selectedVideos s with
       | head :: _ => head
       | [] => None
       end /\
     Frontend.selectedVideos s1 = tl (Frontend.selectedVideos s) /\
     Frontend.notRequeued s s1 /\
     Frontend.errorMessage s1
     = go "Conversion Error: " ++ Frontend.message_of err /\
     Frontend.showErrorPopup s1 = true) /\
  (forall text,
     Frontend.message_of (Frontend.rejection text) = go "undefined").
Proof.
  intros H1 H2 c. subst c. unfold ConvertVideo. rewrite H1, H2.
  assert (Hfront : forall s message,
             let t := Frontend.setProgressVideo None
                        (Frontend.showError message s) in
             let s1 := Frontend.advance t in
             Frontend.progressVideo s1
             = match Frontend.selectedVideos s with
               | head :: _ => head
               | [] => None
               end /\
             Frontend.selectedVideos s1 = tl (Frontend.selectedVideos s) /\
             Frontend.notRequeued s s1 /\
             Frontend.errorMessage s1 = message /\
             Frontend.showErrorPopup s1 = true).
  { intros s message t s1.
    destruct (advance_cleared t eq_refl) as [Hp Hs].
    split; [exact Hp|]. split; [exact Hs|].
    split; [right; exact Hs|].
    unfold s1. now rewrite advance_errorMessage, advance_showErrorPopup. }
  split; [|split; [|split; [|split; [|split]]]].
  - intros err H3 H4. rewrite H3, H4. repeat split.
  - intros err H3. rewrite H3. repeat split.
  - destruct (Start_error os); [intros _; split; [reflexivity|intros []]|].
    destruct (Wait_error os); cbn [returned emitted]; [|congruence].
    intros _. split; [reflexivity|]. intros [H|[]]. discriminate.
  - intros s msg. apply Hfront.
  - intros s err. apply Hfront.
  - reflexivity.
Qed.

Lemma encode_failure_handling_witness :
  let os := mkRun None None None (Some (go "exit status 1")) in
  let c := ConvertVideo (mkApp [] (go "ffmpeg") (go "ffprobe") [])
                        os (go "/videos/A.mp4") (go "/out") 100 in
  returned c = Some (go "FFmpeg error: exit status 1") /\
  emitted c = [ConversionError (go "exit status 1")] /\
  doneClosed c = true.
Proof.
  intros os c.
  exact (proj1 (encode_failure_handling
                  (mkApp [] (go "ffmpeg") (go "ffprobe") [])
                  os (go "/videos/A.mp4") (go "/out") 100
                  eq_refl eq_refl)
               (go "exit status 1") eq_refl eq_refl).
Defined.

(** C7, as stated, fails: when the encoder cannot be started,
    [ConvertVideo] returns the error and emits no error event. *)
Lemma launch_failure_emits_no_event :
  let os := mkRun None None (Some (go "exec: no such file")) None in
  let c := ConvertVideo (mkApp [] (go "ffmpeg") (go "ffprobe") [])
                        os (go "/videos/A.mp4") (go "/out") 100 in
  returned c = Some (go "failed to start FFmpeg: exec: no such file") /\
  emitted c = [] /\
  (forall msg, ~ In (ConversionError msg) (emitted c)).
Proof.
  cbv zeta. split; [reflexivity|]. split; [reflexivity|]. intros msg [].
Qed.

End SupervisorFacts.

Module QueueScenarioFacts.
Import Frontend.

(** After a success the front end sees the completion event and then the
    next-job signal: [B] is started by the first, the second changes
    nothing. *)
Lemma success_starts_one_job :
  let s := handle ConversionNext
             (handle (ConversionComplete (go "/out/A_av1.mp4")) runningA) in
  progressVideo s = Some videoB /\ selectedVideos s = [Some videoC] /\
  calls s = [mkCall (go "/videos/A.mp4") (go "/out") 100;
             mkCall (go "/videos/B.mp4") (go "/out") 50].
Proof. repeat split. Qed.

(** After an encoder failure the front end sees the error event and the
    rejection of the call to [ConvertVideo]: each clears the marker and
    advances, so [B] and [C] are both started; the popup ends up with the
    message of the rejection. *)
Lemma failure_starts_two_jobs :
  let s := onRejected (rejection (go "FFmpeg error: exit status 1"))
             (handle (ConversionError (go "exit status 1")) runningA) in
  errorMessage s = go "Conversion Error: undefined" /\
  progressVideo s = Some videoC /\ selectedVideos s = [] /\
  calls s = [mkCall (go "/videos/A.mp4") (go "/out") 100;
             mkCall (go "/videos/B.mp4") (go "/out") 50;
             mkCall (go "/videos/C.mp4") (go "/out") 75].
Proof. repeat split. Qed.

End QueueScenarioFacts.

(** ** The prober *)

Module JsonFacts.
Import json.

Lemma decodeString_bad (old : gostring) (v : Value) :
  snd (decodeString old v) = badString v.
Proof. now destruct v. Qed.

Lemma fold_flag {S M : Type} (step : S * bool -> M -> S * bool)
      (bad : M -> bool) :
  (forall s b m, snd (step (s, b) m) = b || bad m) ->
  forall ms s b, snd (fold_left step ms (s, b)) = b || existsb bad ms.
Proof.
  intros Hstep. induction ms as [|m ms IH]; intros s b; simpl.
  - now rewrite orb_false_r.
  - specialize (Hstep s b m). destruct (step (s, b) m) as [s' b'].
    simpl in Hstep. rewrite IH, Hstep. now rewrite orb_assoc.
Qed.

Lemma decodeStreamMember_bad (s : Stream) (b : bool) (m : gostring * Value) :
  snd (decodeStreamMember (s, b) m) = b || badStreamMember m.
Proof.
  destruct m as [key v]. unfold decodeStreamMember, badStreamMember.
  cbn [fst snd].
  destruct (isField "codec_name" key).
  { pose proof (decodeString_bad (CodecName s) v) as H.
    destruct (decodeString (CodecName s) v). simpl in *. now rewrite H. }
  destruct (isField "nb_frames" key).
  { pose proof (decodeString_bad (NbFrames s) v) as H.
    destruct (decodeString (NbFrames s) v). simpl in *. now rewrite H. }
  destruct (isField "avg_frame_rate" key).
  { pose proof (decodeString_bad (AvgFrameRate s) v) as H.
    destruct (decodeString (AvgFrameRate s) v). simpl in *. now rewrite H. }
  simpl. now rewrite orb_false_r.
Qed.

Lemma decodeStream_bad (old : Stream) (v : Value) :
  snd (decodeStream old v) = badStream v.
Proof.
  destruct v; try reflexivity. unfold decodeStream, badStream.
  now rewrite (fold_flag decodeStreamMember badStreamMember
                         decodeStreamMember_bad).
Qed.

Lemma decodeFormatMember_bad (f : Format) (b : bool) (m : gostring * Value) :
  snd (decodeFormatMember (f, b) m) = b || badFormatMember m.
Proof.
  destruct m as [key v]. unfold decodeFormatMember, badFormatMember.
  cbn [fst snd].
  destruct (isField "duration" key).
  { pose proof (decodeString_bad (FormatDuration f) v) as H.
    destruct (decodeString (FormatDuration f) v). simpl in *. now rewrite H. }
  destruct (isField "size" key).
  { pose proof (decodeString_bad (FormatSize f) v) as H.
    destruct (decodeString (FormatSize f) v). simpl in *. now rewrite H. }
  simpl. now rewrite orb_false_r.
Qed.

Lemma decodeFormat_bad (old : Format) (v : Value) :
  snd (decodeFormat old v) = badFormat v.
Proof.
  destruct v; try reflexivity. unfold decodeFormat, badFormat.
  now rewrite (fold_flag decodeFormatMember badFormatMember
                         decodeFormatMember_bad).
Qed.

Lemma decodeElems_bad (elems : list Value) :
  forall old, snd (decodeElems old elems) = existsb badStream elems.
Proof.
  induction elems as [|v rest IH]; intros old; [reflexivity|].
  cbn [decodeElems existsb].
  pose proof (decodeStream_bad (hd zeroStream old) v) as H.
  destruct (decodeStream (hd zeroStream old) v) as [s e].
  specialize (IH (tl old)). destruct (decodeElems (tl old) rest) as [ss es].
  simpl in *. now rewrite H, IH.
Qed.

Lemma decodeStreams_bad (r : Result) (v : Value) :
  snd (decodeStreams r v) = badStreams v.
Proof.
  destruct v as [| | | |elems|]; try reflexivity.
  destruct elems as [|e elems]; [reflexivity|].
  unfold decodeStreams, badStreams.
  pose proof (decodeElems_bad (e :: elems) (backing r)) as H.
  destruct (decodeElems (backing r) (e :: elems)). exact H.
Qed.

Lemma decodeMember_bad (r : Result) (b : bool) (m : gostring * Value) :
  snd (decodeMember (r, b) m) = b || badMember m.
Proof.
  destruct m as [key v]. unfold decodeMember, badMember. cbn [fst snd].
  destruct (isField "streams" key).
  { pose proof (decodeStreams_bad r v) as H.
    destruct (decodeStreams r v). simpl in *. now rewrite H. }
  destruct (isField "format" key).
  { pose proof (decodeFormat_bad (format r) v) as H.
    destruct (decodeFormat (format r) v). simpl in *. now rewrite H. }
  simpl. now rewrite orb_false_r.
Qed.

(** [json.Unmarshal] returns an error exactly on a malformed text and on a
    document with a value of the wrong type where a field is read. *)
Lemma Unmarshal_error (data : Text) :
  snd (Unmarshal data) =
  match data with
  | Malformed => Some SyntaxError
  | Document v => if typeMismatch v then Some UnmarshalTypeError else None
  end.
Proof.
  destruct data as [|v]; [reflexivity|].
  unfold Unmarshal, typeMismatch.
  destruct v; try reflexivity.
  pose proof (fold_flag decodeMember badMember decodeMember_bad
                        members zeroResult false) as H.
  destruct (fold_left decodeMember members (zeroResult, false)) as [r bad].
  simpl in *. now rewrite H.
Qed.

End JsonFacts.

Module ProbeFacts.
Import json Probe JsonFacts.

Section Probe.

Variable ParseFloat64 : gostring -> spec_float.
Variable int_of_float64 : spec_float -> Z.
Variable Sprintf_2f : spec_float -> gostring.

#[local] Abbreviation probe :=
  (getVideoInfo ParseFloat64 int_of_float64 Sprintf_2f).

(** C8, as the code has it.  [getVideoInfo] returns an error, and the zero
    descriptor with it, exactly when the tool cannot be started or exits
    with a status other than zero, when [json.Unmarshal] rejects its
    output, which it does for a malformed text and for a well-formed one
    that holds a value of the wrong type where a field is read, or when the
    decoded result has no stream.  In every other case it returns no error
    and a descriptor with the path, the codec name of the first stream and
    its frame count as [Atoi] reads it. *)
Theorem probe_failure_conditions (run : Run) (filePath : gostring) :
  (snd (probe run filePath) <> None <->
   (exists err, exit run = LaunchFailed err) \/
   (exists code, exit run = Exited code /\ code <> 0) \/
   stdout run = Malformed \/
   (exists v, stdout run = Document v /\ typeMismatch v = true) \/
   Streams (fst (Unmarshal (stdout run))) = []) /\
  (snd (probe run filePath) <> None -> fst (probe run filePath) = zeroVideoInfo) /\
  (snd (probe run filePath) = None ->
   exists stream0 rest,
     Streams (fst (Unmarshal (stdout run))) = stream0 :: rest /\
     FullPath (fst (probe run filePath)) = filePath /\
     Codec (fst (probe run filePath)) = CodecName stream0 /\
     FrameCount (fst (probe run filePath))
     = fst (strconv.Atoi (NbFrames stream0))).
Proof.
  unfold probe, getVideoInfo, Run_error.
  pose proof (Unmarshal_error (stdout run)) as Hu.
  destruct (exit run) as [err|code] eqn:Ee.
  { split; [|split]; cbn [fst snd]; try congruence.
    split; [intros _; left; eauto|discriminate]. }
  destruct (Z.eqb_spec code 0) as [->|Hcode].
  2:{ split; [|split]; cbn [fst snd]; try congruence.
      split; [intros _; right; left; eauto|discriminate]. }
  destruct (Unmarshal (stdout run)) as [result uerr]. cbn [fst snd] in *.
  destruct uerr as [e|].
  { split; [|split]; cbn [fst snd]; try congruence.
    split; [intros _|discriminate].
    destruct (stdout run) as [|v] eqn:Es; [auto|].
    right; right; right; left. exists v. split; [reflexivity|].
    destruct (typeMismatch v); [reflexivity|discriminate]. }
  destruct (Streams result) as [|stream0 rest] eqn:Est.
  { split; [|split]; cbn [fst snd]; try congruence.
    split; [intros _; auto 6|discriminate]. }
  split; [|split]; cbn [fst snd]; try congruence.
  - split; [congruence|].
    intros [[err H]|[(c & H & Hc)|[H|[(v & H & Hv)|H]]]]; try congruence.
    + rewrite H in Hu. discriminate.
    + rewrite H, Hv in Hu. discriminate.
  - intros _. exists stream0, rest. repeat split.
Qed.

End Probe.

(** C8, as stated, fails: the tool exits with status 0 and prints a
    well-formed JSON text with one stream, in which the duration is a
    number and not a string; [json.Unmarshal] reports the type error and
    [getVideoInfo] returns it. *)
Lemma wrong_type_is_an_error :
  let doc :=
    JObject
      [ (go "streams",
         JArray [JObject [ (go "codec_name", JString (go "h264"));
                           (go "nb_frames", JString (go "100"));
                           (go "avg_frame_rate", JString (go "25/1")) ]]);
        (go "format",
         JObject [ (go "duration", JNumber (go "4.0"));
                   (go "size", JString (go "1048576")) ]) ] in
  let run := Probe.mkRun (Exited 0) (Document doc) [] in
  ~ claimedFailure run /\
  length (Streams (fst (Unmarshal (stdout run)))) = 1%nat /\
  forall ParseFloat64 int_of_float64 Sprintf_2f,
    getVideoInfo ParseFloat64 int_of_float64 Sprintf_2f run (go "/videos/A.mp4")
    = (zeroVideoInfo, Some (UnmarshalError UnmarshalTypeError)).
Proof.
  cbv zeta. split; [|split; [reflexivity|intros; reflexivity]].
  intros [(code & H & Hc)|[H|H]].
  - injection H as <-. congruence.
  - discriminate.
  - vm_compute in H. discriminate.
Qed.

End ProbeFacts.

(** * Further properties *)

Module QueueFacts.

Import Frontend Queue.

(** One call to [updateProgressVideo] with a destination chosen: the
    order of conversion is kept. *)
Lemma advance_cases (s : state) :
  (canStart s = false /\ advance s = s) \/
  (exists head rest,
      progressVideo s = None /\ selectedVideos s = head :: rest /\
      progressVideo (advance s) = head /\
      selectedVideos (advance s) = rest /\
      destinationFolder (advance s) = destinationFolder s /\
      calls (advance s) = calls s ++ callsFor (destinationFolder s) head).
Proof.
  destruct (canStart s) eqn:Hc.
  - right.
    destruct (FrontendFacts.updateProgressVideo_marks s Hc)
      as (head & rest & Es & Ep & Er & Ed & Ec).
    apply FrontendFacts.canStart_spec in Hc. destruct Hc as [Hp _].
    exists head, rest. repeat split; auto.
  - left. split; [reflexivity|].
    unfold advance, updateProgressVideo. unfold canStart in Hc.
    destruct (progressVideo s); [reflexivity|].
    destruct (selectedVideos s); [reflexivity|discriminate].
Qed.

Lemma advance_destinationFolder (s : state) :
  destinationFolder (advance s) = destinationFolder s.
Proof.
  destruct (advance_cases s) as [[_ ->]|(v & rest & _ & _ & _ & _ & H & _)];
    auto.
Qed.

Lemma advance_order (s : state) :
  destinationFolder s <> [] -> order (advance s) = order s.
Proof.
  intros Hd.
  destruct (advance_cases s) as [[_ ->]|(v & rest & _ & Es & _ & Er & _ & Ec)];
    auto.
  unfold order. rewrite Er, Ec, Es.
  destruct (destinationFolder s); [congruence|].
  rewrite map_app, <- app_assoc. now destruct v.
Qed.

Lemma advance_calls (s : state) :
  exists more, calls (advance s) = calls s ++ more.
Proof.
  destruct (advance_cases s) as [[_ ->]|(v & rest & _ & _ & _ & _ & _ & Ec)].
  - exists []. now rewrite app_nil_r.
  - eexists. exact Ec.
Qed.

Lemma advance_kept (s t : state) (added : list gostring) :
  destinationFolder s <> [] ->
  destinationFolder t = destinationFolder s ->
  order t = order s ++ added ->
  calls t = calls s ->
  destinationFolder (advance t) <> [] /\
  order (advance t) = order s ++ added /\
  exists more, calls (advance t) = calls s ++ more.
Proof.
  intros Hd Ed Eo Ec. rewrite advance_destinationFolder, Ed.
  split; [exact Hd|]. rewrite advance_order by congruence.
  split; [exact Eo|]. rewrite <- Ec. apply advance_calls.
Qed.

Lemma same_kept (s t : state) :
  destinationFolder s <> [] ->
  destinationFolder t = destinationFolder s ->
  order t = order s ->
  calls t = calls s ->
  destinationFolder t <> [] /\
  order t = order s ++ [] /\
  exists more, calls t = calls s ++ more.
Proof.
  intros Hd Ed Eo Ec. rewrite app_nil_r. repeat split; try congruence.
  exists []. now rewrite app_nil_r.
Qed.

(** Every input but a deletion keeps the order and adds the newly
    selected videos at its end. *)
Lemma step_order (s : state) (i : Input) :
  destinationFolder s <> [] ->
  (forall n, i <> ItemDeleted n) ->
  destinationFolder (step s i) <> [] /\
  order (step s i) = order s ++ selectedBy i /\
  exists more, calls (step s i) = calls s ++ more.
Proof.
  intros Hd Hi.
  destruct i as [e|message|videoInfos|result|n|]; cbn [step selectedBy].
  - destruct e; cbn [handle].
    + now apply same_kept.
    + apply advance_kept; auto. now rewrite app_nil_r.
    + apply advance_kept; auto. now rewrite app_nil_r.
    + apply advance_kept; auto. now rewrite app_nil_r.
  - apply advance_kept; auto. now rewrite app_nil_r.
  - unfold handleSelectFiles. destruct videoInfos as [|v l].
    + now apply same_kept.
    + apply advance_kept; auto.
      unfold order. cbn [selectedVideos setSelectedVideos calls].
      assert (Ev : forall a b, videos (a ++ map Some b) = videos a ++ b).
      { intros a b. unfold videos. rewrite flat_map_app. f_equal.
        induction b as [|x b IHb]; [reflexivity|]. cbn. now rewrite IHb. }
      now rewrite Ev, map_app, app_assoc.
  - unfold handleSelectDestination, showError.
    destruct result as [[|c folder]|message].
    + now apply same_kept.
    + rewrite app_nil_r. repeat split; try discriminate.
      exists []. now rewrite app_nil_r.
    + now apply same_kept.
  - exfalso. now apply (Hi n).
  - now apply same_kept.
Qed.

(** X1. With a destination folder chosen, the videos are handed to the
    back end in the order in which they were selected: whatever events
    the back end sends and whatever the user selects, as long as nothing
    is deleted, the calls made followed by the waiting videos are the
    former ones followed by the newly selected videos; no call is ever
    taken back. *)
Theorem conversion_order_kept (inputs : list Input) (s : state) :
  destinationFolder s <> [] ->
  (forall i n, In i inputs -> i <> ItemDeleted n) ->
  order (run inputs s) = order s ++ concat (map selectedBy inputs) /\
  exists more, calls (run inputs s) = calls s ++ more.
Proof.
  revert s. induction inputs as [|i inputs IH]; intros s Hd Hi.
  - cbn. rewrite app_nil_r. split; auto. exists []. now rewrite app_nil_r.
  - cbn [run fold_left map concat].
    destruct (step_order s i Hd) as (Hd' & Ho & more & Hc).
    { intros n. apply Hi. now left. }
    destruct (IH (step s i) Hd') as (Ho' & more' & Hc').
    { intros j n Hj. apply Hi. now right. }
    unfold run in *. rewrite Ho', Ho, Hc', Hc, <- !app_assoc.
    split; [reflexivity|]. eexists. reflexivity.
Qed.

Lemma conversion_order_kept_witness :
  order (run [FilesSelected [videoC]; Backend (ConversionComplete []);
              Backend ConversionNext] runningA)
  = order runningA ++ [FullPath videoC].
Proof.
  refine (proj1 (conversion_order_kept
           [FilesSelected [videoC]; Backend (ConversionComplete []);
            Backend ConversionNext] runningA _ _)).
  - discriminate.
  - intros i n [<-|[<-|[<-|[]]]]; discriminate.
Defined.

(** ** Draining the list *)

Lemma skipn_cons_nth {A : Type} (l : list A) (k : nat) (v : A) (rest : list A) :
  skipn k l = v :: rest ->
  nth_error l k = Some v /\ skipn (S k) l = rest /\
  firstn (S k) l = firstn k l ++ [v].
Proof.
  revert l. induction k as [|k IH]; intros [|a l] H; try discriminate.
  - cbn in H. injection H as -> ->. auto.
  - cbn [skipn] in H. destruct (IH l H) as (H1 & H2 & H3).
    cbn [nth_error]. split; [exact H1|]. split; [exact H2|].
    change (firstn (S (S k)) (a :: l)) with (a :: firstn (S k) l).
    now rewrite H3.
Qed.

Lemma skipn_nil_nth {A : Type} (l : list A) (k : nat) :
  skipn k l = [] ->
  nth_error l k = None /\ skipn (S k) l = [] /\
  firstn (S k) l = firstn k l.
Proof.
  revert l. induction k as [|k IH]; intros [|a l] H; try discriminate; auto.
  cbn [skipn] in H. destruct (IH l H) as (H1 & H2 & H3).
  cbn [nth_error]. split; [exact H1|]. split; [exact H2|].
  change (firstn (S (S k)) (a :: l)) with (a :: firstn (S k) l).
  now rewrite H3.
Qed.

Lemma converted_drains c0 d l k t outputPath :
  d <> [] ->
  drainedTo c0 d l k t ->
  drainedTo c0 d l (S k) (run (converted outputPath) t).
Proof.
  intros Hd (Hp & Hs & Hc & Ed).
  cbn [run converted fold_left step handle]. unfold onNext, onComplete.
  set (t1 := setProgressVideo None t).
  destruct (advance_cases t1)
    as [[Hc1 E1]|(v & rest & _ & Es & Ep & Er & Ed1 & Ec1)].
  - rewrite E1.
    assert (Es : selectedVideos t = []).
    { unfold canStart in Hc1. cbn in Hc1. now destruct (selectedVideos t). }
    assert (E2 : advance t1 = t1).
    { exact E1. }
    rewrite E2. rewrite Es in Hs. symmetry in Hs.
    apply map_eq_nil in Hs.
    destruct (skipn_nil_nth l (S k) Hs) as (H1 & H2 & H3).
    unfold drainedTo.
    cbn [progressVideo selectedVideos calls destinationFolder t1
         setProgressVideo].
    rewrite H1, H2, H3, Es. auto.
  - cbn in Es. rewrite Es in Hs. symmetry in Hs.
    destruct (skipn (S k) l) as [|x after] eqn:Ek; [discriminate|].
    cbn [map] in Hs. injection Hs as <- <-.
    destruct (skipn_cons_nth l (S k) x after Ek) as (H1 & H2 & H3).
    assert (E2 : advance (advance t1) = advance t1).
    { destruct (advance_cases (advance t1)) as [[_ E]|(v' & rest' & Ep' & _)];
        auto. congruence. }
    rewrite E2. unfold drainedTo. rewrite Ep, Er, Ed1, Ec1, H1, H2, H3.
    cbn [destinationFolder calls t1 setProgressVideo]. rewrite Ed, Hc.
    destruct d; [congruence|].
    rewrite map_app, <- app_assoc. auto.
Qed.

(** X2. With a destination folder chosen, videos selected while
    nothing runs and nothing waits are all converted, one at a time and in
    their order: after [k] of them were reported complete, the video in
    progress is the one at index [k] (none once all are through), those
    behind it wait, and the back end was called once for each video up to
    that one. *)
Theorem queue_drained (s : state) (l : list VideoInfo)
  (outputPaths : list gostring) :
  progressVideo s = None ->
  selectedVideos s = [] ->
  destinationFolder s <> [] ->
  let k := length outputPaths in
  let s' := run (concat (map converted outputPaths)) (handleSelectFiles l s) in
  progressVideo s' = nth_error l k /\
  selectedVideos s' = map Some (skipn (S k) l) /\
  calls s' = calls s ++ map (callOf (destinationFolder s)) (firstn (S k) l).
Proof.
  intros Hp Hs Hd k s'.
  assert (H0 : drainedTo (calls s) (destinationFolder s) l 0
                 (handleSelectFiles l s)).
  { unfold handleSelectFiles, drainedTo. destruct l as [|v l].
    - cbn. rewrite app_nil_r. auto.
    - set (t := setSelectedVideos _ s).
      destruct (advance_cases t)
        as [[Hc _]|(v' & rest & _ & Es & Ep & Er & Ed & Ec)].
      + unfold canStart, t in Hc. cbn in Hc. rewrite Hp, Hs in Hc. discriminate.
      + unfold t in Es. cbn in Es. rewrite Hs in Es. cbn in Es.
        injection Es as <- <-.
        rewrite Ep, Er, Ed, Ec. cbn.
        destruct (destinationFolder s); [congruence|auto]. }
  assert (H : forall outs t j,
             drainedTo (calls s) (destinationFolder s) l j t ->
             drainedTo (calls s) (destinationFolder s) l (length outs + j)
               (run (concat (map converted outs)) t)).
  { induction outs as [|o outs IH]; intros t j Ht; [exact Ht|].
    cbn [map concat]. unfold run. rewrite fold_left_app.
    replace (length (o :: outs) + j)%nat with (length outs + S j)%nat
      by (cbn; lia).
    apply IH. now apply converted_drains. }
  specialize (H outputPaths _ 0%nat H0).
  rewrite Nat.add_0_r in H. destruct H as (H1 & H2 & H3 & _). auto.
Qed.

Lemma queue_drained_witness :
  let s := mkState [] None (go "/out") float64.zero [] [] false [] in
  let s' := run (concat (map converted [go "/out/A_av1.mp4"]))
                (handleSelectFiles [videoA; videoB] s) in
  progressVideo s' = Some videoB /\
  selectedVideos s' = [] /\
  calls s' = [callOf (go "/out") videoA; callOf (go "/out") videoB].
Proof.
  apply (queue_drained (mkState [] None (go "/out") float64.zero [] [] false [])
           [videoA; videoB] [go "/out/A_av1.mp4"]).
  - reflexivity.
  - reflexivity.
  - discriminate.
Defined.

(** ** Without a destination folder *)

Lemma advance_running (s : state) (v : VideoInfo) :
  progressVideo s = Some v -> advance s = s.
Proof.
  intros H. destruct (advance_cases s) as [[_ E]|(v' & rest & E & _)];
    [exact E|congruence].
Qed.

Lemma user_step_running (s : state) (i : Input) (v : VideoInfo) :
  progressVideo s = Some v ->
  fromUser i = true ->
  progressVideo (step s i) = Some v /\ calls (step s i) = calls s.
Proof.
  intros Hp Hi. destruct i as [e|message|videoInfos|result|n|];
    try discriminate; cbn [step].
  - unfold handleSelectFiles. destruct videoInfos; [auto|].
    rewrite (advance_running _ v) by exact Hp. auto.
  - unfold handleSelectDestination.
    destruct result as [[|c folder]|message]; auto.
  - unfold deleteItem. destruct (-1 <? _); auto.
  - auto.
Qed.

(** X3. Videos selected before any destination folder is chosen block
    the list: the first one is taken off the list and marked as in
    progress without the back end being called, and whatever the user does
    afterwards (choosing a destination, selecting more videos, deleting
    entries, closing the error popup) it stays marked and no call is
    made. *)
Theorem selection_without_destination_blocks (s : state) (v : VideoInfo)
  (l : list VideoInfo) (inputs : list Input) :
  destinationFolder s = [] ->
  progressVideo s = None ->
  selectedVideos s = [] ->
  forallb fromUser inputs = true ->
  let s' := run inputs (handleSelectFiles (v :: l) s) in
  progressVideo s' = Some v /\ calls s' = calls s /\
  selectedVideos (handleSelectFiles (v :: l) s) = map Some l.
Proof.
  intros Hd Hp Hs Hi s'.
  assert (H0 : (progressVideo (handleSelectFiles (v :: l) s) = Some v /\
                calls (handleSelectFiles (v :: l) s) = calls s) /\
               selectedVideos (handleSelectFiles (v :: l) s) = map Some l).
  { unfold handleSelectFiles. set (t := setSelectedVideos _ s).
    destruct (advance_cases t)
      as [[Hc _]|(v' & rest & _ & Es & Ep & Er & _ & Ec)].
    - unfold canStart, t in Hc. cbn in Hc. rewrite Hp, Hs in Hc. discriminate.
    - unfold t in Es, Ec. cbn in Es, Ec. rewrite Hs in Es. cbn in Es.
      injection Es as <- <-. rewrite Hd in Ec. cbn in Ec.
      rewrite app_nil_r in Ec. auto. }
  destruct H0 as [H0 Hlist].
  cut (progressVideo s' = Some v /\ calls s' = calls s);
    [intros [? ?]; auto|].
  unfold s'. clear s' Hlist. revert H0.
  generalize (handleSelectFiles (v :: l) s) as t.
  induction inputs as [|i inputs IH]; intros t [H1 H2]; [auto|].
  cbn [forallb] in Hi. apply andb_prop in Hi. destruct Hi as [Hi Hr].
  cbn [run fold_left].
  destruct (user_step_running t i v H1 Hi) as [H3 H4].
  apply (IH Hr). split; congruence.
Qed.

Lemma selection_without_destination_blocks_witness :
  let s := mkState [] None [] float64.zero [] [] false [] in
  let s' := run [DestinationSelected (inl (go "/out")); FilesSelected [videoB]]
                (handleSelectFiles [videoA] s) in
  progressVideo s' = Some videoA /\ calls s' = [] /\
  selectedVideos (handleSelectFiles [videoA] s) = [].
Proof.
  apply (selection_without_destination_blocks
           (mkState [] None [] float64.zero [] [] false []) videoA []
           [DestinationSelected (inl (go "/out")); FilesSelected [videoB]]);
    reflexivity.
Defined.

(** ** The calls made *)



(** ** After a failed conversion *)

(** X5. When the encoder fails the back end both emits an error event
    and rejects the call; the front end answers each by starting the next
    waiting video, so with two or more videos waiting two calls are made,
    in either order of arrival, and the first of the two videos is no
    longer the one in progress. *)
Theorem failure_starts_two_videos (s : state) (a b c : VideoInfo)
  (rest : list (option VideoInfo)) (error : gostring) (err : Thrown)
  (inputs : list Input) :
  progressVideo s = Some a ->
  selectedVideos s = Some b :: Some c :: rest ->
  destinationFolder s <> [] ->
  inputs = [Backend (ConversionError error); Rejected err] \/
  inputs = [Rejected err; Backend (ConversionError error)] ->
  let s' := run inputs s in
  calls s' = calls s ++ [callOf (destinationFolder s) b;
                         callOf (destinationFolder s) c] /\
  progressVideo s' = Some c /\
  selectedVideos s' = rest.
Proof.
  intros Hp Hs Hd Hi s'. unfold s'. clear s'.
  assert (Hnext : forall t v l,
             progressVideo t = None -> selectedVideos t = Some v :: l ->
             progressVideo (advance t) = Some v /\
             selectedVideos (advance t) = l /\
             destinationFolder (advance t) = destinationFolder t /\
             (destinationFolder t <> [] ->
              calls (advance t) = calls t ++ [callOf (destinationFolder t) v])).
  { intros t v l Ht Hl.
    destruct (advance_cases t)
      as [[Hc _]|(v' & l' & _ & Es & Ep & Er & Ed & Ec)].
    - unfold canStart in Hc. rewrite Ht, Hl in Hc. discriminate.
    - rewrite Hl in Es. injection Es as <- <-.
      repeat split; auto. intros Hne. rewrite Ec. unfold callsFor.
      destruct (destinationFolder t); congruence. }
  assert (Htwo : forall t1 t2,
             progressVideo t1 = None ->
             selectedVideos t1 = Some b :: Some c :: rest ->
             destinationFolder t1 = destinationFolder s ->
             calls t1 = calls s ->
             (forall u, progressVideo u = Some b ->
                        progressVideo (t2 u) = None /\
                        selectedVideos (t2 u) = selectedVideos u /\
                        destinationFolder (t2 u) = destinationFolder u /\
                        calls (t2 u) = calls u) ->
             let u := advance (t2 (advance t1)) in
             calls u = calls s ++ [callOf (destinationFolder s) b;
                                   callOf (destinationFolder s) c] /\
             progressVideo u = Some c /\ selectedVideos u = rest).
  { intros t1 t2 H1 H2 H3 H4 Ht2 u.
    destruct (Hnext t1 b (Some c :: rest) H1 H2) as (Pb & Sb & Db & Cb).
    destruct (Ht2 (advance t1) Pb) as (P2 & S2 & D2 & C2).
    destruct (Hnext (t2 (advance t1)) c rest P2 ltac:(congruence))
      as (Pc & Sc & Dc & Cc).
    unfold u. rewrite Cc by congruence. rewrite C2, Cb by congruence.
    rewrite D2, Db, H3, H4, <- app_assoc. auto. }
  destruct Hi as [-> | ->]; cbn [run fold_left step handle];
    unfold onError, onRejected.
  - apply (Htwo (setProgressVideo None (showError error s))
                (fun u =>
                   setProgressVideo None
                     (showError (go "Conversion Error: " ++ message_of err)
                                u)));
      auto.
  - apply (Htwo (setProgressVideo None
                   (showError (go "Conversion Error: " ++ message_of err) s))
                (fun u => setProgressVideo None (showError error u)));
      auto.
Qed.

Lemma failure_starts_two_videos_witness :
  let s' := run [Backend (ConversionError []); Rejected (rejection [])]
                runningA in
  calls s' = calls runningA ++ [callOf (go "/out") videoB;
                                callOf (go "/out") videoC] /\
  progressVideo s' = Some videoC /\
  selectedVideos s' = [].
Proof.
  apply (failure_starts_two_videos runningA videoA videoB videoC [] []
           (rejection [])
           [Backend (ConversionError []); Rejected (rejection [])]).
  - reflexivity.
  - reflexivity.
  - discriminate.
  - left. reflexivity.
Defined.

End QueueFacts.

Module ListEditFacts.

Import Frontend Queue.

Lemma filterIndex_all {A : Type} (keep : Z -> bool) (l : list A) (i : Z) :
  (forall j, i <= j -> keep j = true) -> filterIndex keep i l = l.
Proof.
  revert i. induction l as [|v l IH]; intros i H; [reflexivity|].
  cbn [filterIndex]. rewrite (H i) by lia. f_equal. apply IH.
  intros j Hj. apply H. lia.
Qed.

Lemma filterIndex_remove {A : Type} (l : list A) (i : Z) (n : nat) :
  filterIndex (fun j => negb (j =? i + Z.of_nat n)) i l
  = firstn n l ++ skipn (S n) l.
Proof.
  revert i n. induction l as [|v l IH]; intros i n.
  - now destruct n.
  - cbn [filterIndex]. destruct n as [|n].
    + replace (i + Z.of_nat 0) with i by lia. rewrite Z.eqb_refl.
      cbn [negb firstn skipn app]. apply filterIndex_all.
      intros j Hj. apply negb_true_iff, Z.eqb_neq. lia.
    + destruct (Z.eqb_spec i (i + Z.of_nat (S n))) as [E|_]; [lia|].
      cbn [negb firstn skipn app]. f_equal.
      replace (i + Z.of_nat (S n)) with (i + 1 + Z.of_nat n) by lia.
      apply IH.
Qed.

(** X6. Deleting from the context menu removes the entry at the menu's
    index and nothing else: the entries before and after it keep their
    order, the video in progress, the destination and the calls made are
    untouched; an index past the end removes nothing, and with a
    negative index nothing happens at all, not even closing the menu. *)
Theorem deleteItem_removes_one (m : ContextMenu) (s : state) :
  let n := Z.to_nat (index m) in
  let m' := fst (deleteItem m s) in
  let s' := snd (deleteItem m s) in
  progressVideo s' = progressVideo s /\
  destinationFolder s' = destinationFolder s /\
  calls s' = calls s /\
  (index m < 0 -> m' = m /\ s' = s) /\
  (0 <= index m ->
   show m' = false /\
   selectedVideos s'
   = firstn n (selectedVideos s) ++ skipn (S n) (selectedVideos s)) /\
  (0 <= index m < Z.of_nat (length (selectedVideos s)) ->
   S (length (selectedVideos s')) = length (selectedVideos s)) /\
  (Z.of_nat (length (selectedVideos s)) <= index m ->
   selectedVideos s' = selectedVideos s).
Proof.
  intros n m' s'. unfold m', s', deleteItem.
  destruct (Z.ltb_spec (-1) (index m)) as [H|H]; cbn [fst snd].
  - cbn [progressVideo destinationFolder calls selectedVideos
         setSelectedVideos closeContextMenu show].
    assert (E : filterIndex (fun i => negb (i =? index m)) 0 (selectedVideos s)
                = firstn n (selectedVideos s)
                  ++ skipn (S n) (selectedVideos s)).
    { rewrite <- (filterIndex_remove (selectedVideos s) 0 n).
      unfold n. now rewrite Z2Nat.id by lia. }
    rewrite E.
    repeat split; auto; try lia.
    + intros Hr. rewrite length_app, length_firstn, length_skipn. lia.
    + intros Hr. rewrite firstn_all2 by lia. rewrite skipn_all2 by lia.
      apply app_nil_r.
  - repeat split; auto; lia.
Qed.

(** ** Reordering by drag and drop *)

Lemma Permutation_remove {A : Type} (l : list A) (k : nat) (v : A) :
  nth_error l k = Some v ->
  Permutation l (v :: firstn k l ++ skipn (S k) l).
Proof.
  revert l. induction k as [|k IH]; intros [|a l] H; try discriminate.
  - cbn in H. injection H as ->. reflexivity.
  - cbn [nth_error] in H. cbn [firstn skipn app].
    rewrite perm_swap. constructor. now apply IH.
Qed.

Lemma nth_error_insert {A : Type} (l : list A) (k : nat) (v : A) :
  (k <= length l)%nat ->
  nth_error (firstn k l ++ v :: skipn k l) k = Some v.
Proof.
  intros H. rewrite nth_error_app2; rewrite length_firstn, Nat.min_l by lia;
    [|lia]. now rewrite Nat.sub_diag.
Qed.

(** X7. Dropping row [sourceIndex] on row [targetIndex], both rows of
    the list, reorders it: the result holds the same videos, as many as
    before and none undefined, and the dragged video is at
    [targetIndex]. *)
Theorem drop_reorders {A : Type} (l : list A) (sourceIndex targetIndex : Z) :
  0 <= sourceIndex < Z.of_nat (length l) ->
  0 <= targetIndex < Z.of_nat (length l) ->
  exists l',
    drop (Some sourceIndex) targetIndex l = map Some l' /\
    Permutation l l' /\
    length l' = length l /\
    nth_error l' (Z.to_nat targetIndex) = nth_error l (Z.to_nat sourceIndex).
Proof.
  intros Hs Ht. unfold drop.
  destruct (Z.eqb_spec sourceIndex targetIndex) as [->|Hne].
  - exists l. auto.
  - unfold spliceRemove, spliceInsert, spliceStart.
    destruct (Z.ltb_spec sourceIndex 0) as [?|_]; [lia|].
    destruct (Z.ltb_spec targetIndex 0) as [?|_]; [lia|].
    set (i := Z.to_nat sourceIndex). set (j := Z.to_nat targetIndex).
    assert (Hi : (i < length l)%nat) by (unfold i; lia).
    assert (Hj : (j < length l)%nat) by (unfold j; lia).
    rewrite (Nat.min_l i (length l)) by lia.
    destruct (nth_error l i) as [v|] eqn:Ev;
      [|apply nth_error_None in Ev; lia].
    assert (Eh : firstn 1 (skipn i l) = [v]).
    { destruct (nth_error_split l i Ev) as (l1 & l2 & -> & El).
      rewrite skipn_app, El, Nat.sub_diag. rewrite skipn_all2 by lia.
      reflexivity. }
    rewrite Eh. cbn [hd_error].
    set (items := firstn i l ++ skipn (i + 1) l).
    assert (Hl : S (length items) = length l).
    { unfold items. rewrite length_app, length_firstn, length_skipn. lia. }
    rewrite length_map. rewrite (Nat.min_l j (length items)) by lia.
    exists (firstn j items ++ v :: skipn j items).
    split; [|split; [|split]].
    + rewrite map_app, firstn_map. cbn [map]. now rewrite skipn_map.
    + rewrite <- Permutation_middle, firstn_skipn. unfold items.
      rewrite Nat.add_1_r. now apply Permutation_remove.
    + rewrite length_app. cbn [length]. rewrite length_firstn, length_skipn.
      lia.
    + apply nth_error_insert. lia.
Qed.

Lemma drop_reorders_witness :
  exists l',
    drop (Some 0) 2 [videoA; videoB; videoC] = map Some l' /\
    Permutation [videoA; videoB; videoC] l' /\
    length l' = 3%nat /\
    nth_error l' 2 = Some videoA.
Proof.
  apply (drop_reorders [videoA; videoB; videoC] 0 2); cbn; lia.
Defined.

(** X8. A drop whose source row no longer exists (the list got shorter
    while the row was dragged) removes nothing and inserts an undefined
    entry at the target: the list grows by one. *)
Theorem drop_stale_source {A : Type} (l : list A)
        (sourceIndex targetIndex : Z) :
  Z.of_nat (length l) <= sourceIndex ->
  0 <= targetIndex < Z.of_nat (length l) ->
  let j := Z.to_nat targetIndex in
  drop (Some sourceIndex) targetIndex l
  = map Some (firstn j l) ++ None :: map Some (skipn j l).
Proof.
  intros Hs Ht j. unfold drop.
  destruct (Z.eqb_spec sourceIndex targetIndex) as [?|_]; [lia|].
  unfold spliceRemove, spliceInsert, spliceStart.
  destruct (Z.ltb_spec sourceIndex 0) as [?|_]; [lia|].
  destruct (Z.ltb_spec targetIndex 0) as [?|_]; [lia|].
  rewrite (Nat.min_r (Z.to_nat sourceIndex) (length l)) by lia.
  rewrite skipn_all, firstn_all. rewrite skipn_all2 by lia.
  cbn [firstn hd_error]. rewrite app_nil_r, length_map.
  rewrite (Nat.min_l (Z.to_nat targetIndex) (length l)) by lia. fold j.
  now rewrite firstn_map, skipn_map.
Qed.

Lemma drop_stale_source_witness :
  drop (Some 2) 0 [videoA; videoB]
  = map Some (firstn 0 [videoA; videoB])
    ++ None :: map Some (skipn 0 [videoA; videoB]).
Proof.
  apply (drop_stale_source [videoA; videoB] 2 0); cbn; lia.
Defined.

End ListEditFacts.

Module PathFacts.

Import filepath Startup.

Lemma gostring_eqb_neq (a b : gostring) : a <> b -> gostring_eqb a b = false.
Proof.
  intros H. destruct (gostring_eqb a b) eqn:E; [|reflexivity].
  apply gostring_eqb_eq in E. contradiction.
Qed.

Lemma splitElems_elems (path : gostring) :
  forall cur, Forall (fun c => IsPathSeparator c = false) cur ->
              Forall noSeparator (splitElems cur path).
Proof.
  induction path as [|c t IH]; intros cur Hcur; cbn [splitElems].
  - constructor; [|constructor]. unfold noSeparator. now apply Forall_rev.
  - destruct (IsPathSeparator c) eqn:E.
    + constructor; [unfold noSeparator; now apply Forall_rev|].
      apply IH. constructor.
    + apply IH. now constructor.
Qed.

Lemma cleanElems_kept (rooted : bool) (elems : list gostring) :
  forall out,
    Forall noSeparator elems -> Forall keptElem out ->
    Forall keptElem (cleanElems rooted out elems).
Proof.
  induction elems as [|e rest IH]; intros out He Hout; [exact Hout|].
  inversion He as [|? ? He1 He2]; subst. cbn [cleanElems].
  destruct (gostring_eqb e []) eqn:E1; cbn [orb]; [now apply IH|].
  destruct (gostring_eqb e (go ".")) eqn:E2; [now apply IH|].
  assert (Hk : keptElem e).
  { repeat split; auto; intros ->; discriminate. }
  destruct (isDotDot e).
  - destruct out as [|top out'].
    + apply IH; auto. destruct rooted; auto.
    + inversion Hout; subst. destruct (isDotDot top).
      * apply IH; auto. destruct rooted; auto.
      * apply IH; auto.
  - apply IH; auto.
Qed.

Lemma joinElems_kept (X : list gostring) :
  X <> [] -> Forall keptElem X ->
  (exists c t, joinElems X = c :: t /\ IsPathSeparator c = false) /\
  joinElems X <> go ".".
Proof.
  intros Hne HX. destruct X as [|e X']; [congruence|].
  inversion HX as [|? ? (Hns & He & Hdot) _]; subst.
  destruct e as [|c t]; [congruence|].
  assert (Hc : IsPathSeparator c = false) by now inversion Hns.
  destruct X' as [|e2 X2]; cbn [joinElems].
  - split; [now exists c, t|exact Hdot].
  - cbn [app]. split; [now exists c, (t ++ Separator :: joinElems (e2 :: X2))|].
    intros H. injection H as _ H. now destruct t.
Qed.

Lemma Clean_parts (c : ascii) (rest : gostring) :
  Forall keptElem
    (rev (cleanElems (IsPathSeparator c) [] (splitElems [] (c :: rest)))).
Proof.
  apply Forall_rev, cleanElems_kept; [|constructor].
  apply splitElems_elems. constructor.
Qed.

(** [Clean] never returns the empty path. *)
Lemma Clean_nonempty (path : gostring) : Clean path <> [].
Proof.
  destruct path as [|c rest]; [discriminate|]. unfold Clean.
  pose proof (Clean_parts c rest) as HX.
  destruct (IsPathSeparator c); [discriminate|].
  destruct (rev _) as [|x0 xs] eqn:EX; [discriminate|].
  destruct (joinElems_kept (x0 :: xs)) as [(c' & t' & E & _) _];
    [discriminate|exact HX|]. rewrite E. discriminate.
Qed.

Lemma Join_nonempty (folder name : gostring) :
  name <> [] -> Join [folder; name] <> [].
Proof.
  intros Hn. destruct folder as [|c rest]; cbn [Join].
  - destruct name; [congruence|]. apply Clean_nonempty.
  - apply Clean_nonempty.
Qed.

Lemma under_shape (folder : gostring) :
  under folder = [] \/ exists d, under folder = d ++ [Separator].
Proof.
  unfold under. destruct folder as [|c rest]; [now left|].
  destruct (gostring_eqb _ [Separator]); [right; now exists []|].
  destruct (gostring_eqb _ (go ".")); [now left|].
  right. now eexists.
Qed.

(** A file joined to a folder lies right under the cleaned folder. *)
Lemma Join_under (folder file : gostring) :
  noSeparator file -> realElem file ->
  Join [folder; file] = under folder ++ file.
Proof.
  intros Hns Hreal.
  assert (Hne : file <> []).
  { destruct Hreal as [H _]. intros ->. discriminate. }
  destruct folder as [|c rest].
  - destruct file as [|f0 ftl]; [congruence|].
    change (Join [[]; f0 :: ftl]) with (Clean (f0 :: ftl)).
    now apply OutputPathFacts.Clean_elem.
  - cbn [Join joinElems]. unfold under, Clean. cbn [app].
    change (c :: rest ++ Separator :: file)
      with ((c :: rest) ++ Separator :: file).
    rewrite (OutputPathFacts.splitElems_snoc (c :: rest) file Hns).
    rewrite (OutputPathFacts.cleanElems_snoc _ file Hreal).
    pose proof (Clean_parts c rest) as HX.
    set (X := cleanElems (IsPathSeparator c) [] (splitElems [] (c :: rest)))
      in *.
    cbn [rev]. destruct (rev X) as [|x0 xs] eqn:EX.
    + cbn [app joinElems]. destruct (IsPathSeparator c); [reflexivity|].
      cbn. now destruct file.
    + rewrite OutputPathFacts.joinElems_snoc by discriminate.
      destruct (joinElems_kept (x0 :: xs)) as [(c' & t' & E & Hc') Hdot];
        [discriminate|exact HX|].
      destruct (IsPathSeparator c).
      * rewrite (gostring_eqb_neq (Separator :: joinElems (x0 :: xs))
                                  [Separator])
          by (rewrite E; discriminate).
        rewrite (gostring_eqb_neq (Separator :: joinElems (x0 :: xs)) (go "."))
          by discriminate.
        cbn [app]. now rewrite <- app_assoc.
      * rewrite (gostring_eqb_neq (joinElems (x0 :: xs)) [Separator]).
        2:{ rewrite E. intros H. injection H as -> _. discriminate. }
        rewrite (gostring_eqb_neq (joinElems (x0 :: xs)) (go "."))
          by exact Hdot.
        now rewrite <- app_assoc.
Qed.

Lemma lastElemRev_app (f r : gostring) :
  noSeparator f -> (r = [] \/ exists t, r = Separator :: t) ->
  lastElemRev (f ++ r) = f.
Proof.
  intros Hf Hr. induction Hf as [|c f Hc Hf IH]; cbn [app lastElemRev].
  - destruct Hr as [->|(t & ->)]; reflexivity.
  - rewrite Hc. now rewrite IH.
Qed.

(** The last element of a path that ends with a file name is the name. *)
Lemma Base_file (dir file : gostring) :
  noSeparator file -> file <> [] ->
  (dir = [] \/ exists d, dir = d ++ [Separator]) ->
  Base (dir ++ file) = file.
Proof.
  intros Hns Hne Hdir. unfold Base.
  destruct (dir ++ file) as [|p0 ptl] eqn:Ep.
  - apply app_eq_nil in Ep. destruct Ep as [_ Ep]. contradiction.
  - rewrite <- Ep, rev_app_distr.
    assert (Hrev : noSeparator (rev file))
      by (unfold noSeparator; now apply Forall_rev).
    destruct (rev file) as [|r0 rtl] eqn:Er.
    + apply (f_equal (@rev ascii)) in Er. rewrite rev_involutive in Er.
      cbn in Er. congruence.
    + cbn [app dropSeparators].
      assert (H0 : IsPathSeparator r0 = false) by now inversion Hrev.
      rewrite H0.
      change (r0 :: rtl ++ rev dir) with ((r0 :: rtl) ++ rev dir).
      rewrite lastElemRev_app; auto.
      * rewrite <- Er, rev_involutive. destruct file; [congruence|reflexivity].
      * destruct Hdir as [->|(d & ->)]; [now left|].
        right. rewrite rev_app_distr. now eexists.
Qed.

End PathFacts.

Module OutputFacts.

Import filepath Startup PathFacts.

Lemma suffixed_elem (name suffix : gostring) :
  Forall allowedByte name -> noSeparator suffix -> (3 <= length suffix)%nat ->
  noSeparator (name ++ suffix) /\ realElem (name ++ suffix).
Proof.
  intros H Hs Hl. split.
  - apply Forall_app. split; [now apply OutputPathFacts.allowed_noSeparator|].
    exact Hs.
  - assert (Hlen : forall x, (length x <= 2)%nat ->
                             gostring_eqb (name ++ suffix) x = false).
    { intros x Hx. apply gostring_eqb_neq. intros E.
      apply (f_equal (@length ascii)) in E. rewrite length_app in E. lia. }
    unfold realElem, isDotDot. rewrite !Hlen by (simpl; lia). auto.
Qed.

(** The output path: the file right under the destination folder. *)
Lemma outputPath_under (inputPath outputFolder : gostring) :
  outputPath inputPath outputFolder
  = under outputFolder ++ outputFileName inputPath ++ go "_av1.mp4".
Proof.
  destruct (suffixed_elem (outputFileName inputPath) (go "_av1.mp4"))
    as [Hns Hreal];
    [apply SanitizeFacts.sanitizeFileName_allowed|repeat constructor
    |cbn; lia|].
  unfold outputPath. now apply Join_under.
Qed.

(** X9. The converted file is written right under the destination
    folder, whatever the name of the input: its path is the cleaned
    folder, a separator, and the sanitized name with [_av1.mp4]; its last
    element is that name, at most 208 bytes long.  The log of the encoder
    is named after the same sanitized name. *)
Theorem output_under_destination (a : App) (inputPath outputFolder : gostring) :
  let name := outputFileName inputPath in
  outputPath inputPath outputFolder
  = under outputFolder ++ name ++ go "_av1.mp4" /\
  Base (outputPath inputPath outputFolder) = name ++ go "_av1.mp4" /\
  (length (Base (outputPath inputPath outputFolder)) <= 208)%nat /\
  Base (logFilePath a inputPath) = name ++ go "_ffmpeg.log".
Proof.
  intros name.
  assert (Ha : Forall allowedByte name)
    by apply SanitizeFacts.sanitizeFileName_allowed.
  assert (Hl : (length name <= 200)%nat)
    by apply SanitizeFacts.sanitizeFileName_length.
  destruct (suffixed_elem name (go "_av1.mp4") Ha) as [Hns Hreal];
    [repeat constructor|cbn; lia|].
  destruct (suffixed_elem name (go "_ffmpeg.log") Ha) as [Hns' Hreal'];
    [repeat constructor|cbn; lia|].
  assert (E : outputPath inputPath outputFolder
              = under outputFolder ++ name ++ go "_av1.mp4")
    by apply outputPath_under.
  assert (Hne : forall suffix,
             (3 <= length suffix)%nat -> name ++ suffix <> []).
  { intros suffix H0 H1. apply (f_equal (@length ascii)) in H1.
    rewrite length_app in H1. cbn in H1. lia. }
  assert (B : Base (outputPath inputPath outputFolder) = name ++ go "_av1.mp4").
  { rewrite E. apply Base_file; auto using under_shape.
    apply Hne. cbn. lia. }
  split; [exact E|]. split; [exact B|]. split.
  - rewrite B, length_app. cbn [length go list_ascii_of_string]. lia.
  - unfold logFilePath. fold name.
    assert (E' : exists folder,
               Join [appDir a; go "logs"; name ++ go "_ffmpeg.log"]
               = Join [folder; name ++ go "_ffmpeg.log"]).
    { destruct (appDir a) as [|c rest].
      - now exists (go "logs").
      - exists ((c :: rest) ++ Separator :: go "logs").
        cbn [Join joinElems app]. now rewrite <- app_assoc. }
    destruct E' as (folder & ->). rewrite Join_under by assumption.
    apply Base_file; auto using under_shape. apply Hne. cbn. lia.
Qed.

End OutputFacts.

Module ConfigFacts.

Import json Config.

Lemma coerce_valid (s : gostring) :
  forall skip, utf8.Valid_from skip s = true -> coerce_from skip s = s.
Proof.
  induction s as [|c t IH]; intros skip H; [reflexivity|].
  cbn [coerce_from utf8.Valid_from] in *. destruct skip as [|k].
  - destruct (utf8.DecodeRune (c :: t)) as [r w].
    destruct ((r =? utf8.RuneError) && (w =? 1)%nat); [discriminate|].
    now rewrite IH.
  - now rewrite IH.
Qed.

Lemma Unmarshal_Marshal (s : gostring) :
  Unmarshal (Marshal s) = (coerce s, None).
Proof. reflexivity. Qed.

(** X10. What [saveConfig] writes, [loadConfig] reads back: a
    destination that is valid UTF-8 is restored as it was, whatever the
    application held before loading; in any other destination the bytes
    that are no valid UTF-8 come back as U+FFFD. *)
Theorem config_round_trip (saved fresh : App) :
  let loaded := loadConfig fresh (saveConfig saved Written) in
  lastDestination loaded = coerce (lastDestination saved) /\
  (utf8.ValidString (lastDestination saved) = true ->
   lastDestination loaded = lastDestination saved) /\
  appDir loaded = appDir fresh /\
  ffmpegPath loaded = ffmpegPath fresh /\
  ffprobePath loaded = ffprobePath fresh.
Proof.
  intros loaded. unfold loaded, loadConfig, saveConfig.
  rewrite Unmarshal_Marshal. cbn. repeat split.
  intros H. now apply coerce_valid.
Qed.

End ConfigFacts.

Module DestinationFacts.

Import Config Destination.

(** X11. [SelectDestinationFolder] either fails, returning the empty
    folder and leaving the application and its configuration file as
    they were, or succeeds with a folder that is never empty (a cancelled
    dialog falls back on the last destination and, when there is none,
    on [Desktop] joined to [$HOME]), which it remembers and writes to the
    configuration file; the front end then takes that folder as its
    destination. *)
Theorem SelectDestinationFolder_outcome (a : App) (h : Host)
        (config : option json.Text) :
  let o := SelectDestinationFolder a h config in
  (err o <> None /\ folder o = [] /\ app o = a /\ configFile o = config) \/
  (err o = None /\ folder o <> [] /\
   Create_error h (testFile (folder o)) = None /\
   lastDestination (app o) = folder o /\
   (WriteFile h = Written ->
    lastDestination (loadConfig a (configFile o)) = coerce (folder o)) /\
   (forall s, Frontend.destinationFolder
                (Queue.handleSelectDestination (answer o) s) = folder o) /\
   (forall chosen, OpenDirectoryDialog h = inl chosen -> chosen <> [] ->
                   folder o = chosen) /\
   (OpenDirectoryDialog h = inl [] -> lastDestination a <> [] ->
    folder o = lastDestination a) /\
   (OpenDirectoryDialog h = inl [] -> lastDestination a = [] ->
    folder o = filepath.Join [HOME h; go "Desktop"])).
Proof.
  intros o. unfold o, SelectDestinationFolder.
  destruct (OpenDirectoryDialog h) as [chosen|e].
  2:{ left. cbn. repeat split. discriminate. }
  set (f := match chosen with [] => _ | _ => chosen end).
  assert (Hf : f <> []).
  { unfold f. destruct chosen; [|discriminate].
    destruct (lastDestination a); [|discriminate].
    apply PathFacts.Join_nonempty. discriminate. }
  destruct (Create_error h (testFile f)) as [e|] eqn:Ec.
  - left. cbn. repeat split. discriminate.
  - right. cbn [err folder app configFile].
    split; [reflexivity|]. split; [exact Hf|]. split; [exact Ec|].
    split; [reflexivity|]. split; [|split; [|split; [|split]]].
    + intros ->. reflexivity.
    + intros s. unfold answer. cbn [err folder].
      unfold Queue.handleSelectDestination.
      destruct f; [congruence|reflexivity].
    + intros c E Hc. injection E as <-. unfold f. destruct chosen; congruence.
    + intros E Hl. injection E as ->. unfold f.
      destruct (lastDestination a); congruence.
    + intros E Hl. injection E as ->. unfold f. now rewrite Hl.
Qed.

End DestinationFacts.

Module StartupFacts.

Import filepath Startup PathFacts.

Lemma find_none_iff {A : Type} (f : A -> bool) (l : list A) :
  find f l = None <-> forall x, In x l -> f x = false.
Proof.
  split; [apply find_none|]. induction l as [|a l IH]; intros H; [reflexivity|].
  cbn. rewrite (H a) by now left. apply IH. intros x Hx. apply H. now right.
Qed.

(** X12. [findExecutable] returns the empty path exactly when the tool
    is in none of the four places it looks at and not on [PATH]; a copy
    next to the program is preferred to every other, and a copy in one
    of the four places to what [PATH] would give. *)
Theorem findExecutable_found (a : App) (h : Host) (name : gostring) :
  name <> [] ->
  (forall path, LookPath h name = Some path -> path <> []) ->
  let found := findExecutable a h name in
  (found = [] <->
   (forall path, In path (possiblePaths a h name) -> Stat_ok h path = false) /\
   LookPath h name = None) /\
  (Stat_ok h (Join [Dir (Args0 h); name]) = true ->
   found = Join [Dir (Args0 h); name]) /\
  (found <> [] ->
   (In found (possiblePaths a h name) /\ Stat_ok h found = true) \/
   ((forall path, In path (possiblePaths a h name) -> Stat_ok h path = false)
    /\ LookPath h name = Some found)).
Proof.
  intros Hn Hl found. unfold found, findExecutable.
  assert (Hp : forall path, In path (possiblePaths a h name) -> path <> []).
  { intros path [<-|[<-|[<-|[<-|[]]]]]; now apply Join_nonempty. }
  split; [|split].
  - destruct (find _ _) as [path|] eqn:Ef.
    + destruct (find_some _ _ Ef) as [Hi Hs]. split.
      * intros ->. now elim (Hp [] Hi).
      * intros [Hall _]. rewrite (Hall path Hi) in Hs. discriminate.
    + rewrite find_none_iff in Ef.
      destruct (LookPath h name) as [path|] eqn:El.
      * split; [intros ->; now elim (Hl [] eq_refl)|].
        intros [_ H]. discriminate.
      * split; auto.
  - intros Hs. cbn [possiblePaths find]. now rewrite Hs.
  - destruct (find _ _) as [path|] eqn:Ef.
    + intros _. left. destruct (find_some _ _ Ef). auto.
    + rewrite find_none_iff in Ef.
      destruct (LookPath h name) as [path|] eqn:El; [|congruence].
      intros _. right. auto.
Qed.

Lemma findExecutable_found_witness :
  let h := mkHost (go "/opt/av1/bin/converter")
                  (fun path => gostring_eqb path (go "/usr/local/bin/ffmpeg"))
                  (fun _ => Some (go "/usr/bin/ffmpeg")) in
  let a := mkApp (go "/opt/av1/bin") [] [] [] in
  let found := findExecutable a h (go "ffmpeg") in
  (found = [] <->
   (forall path, In path (possiblePaths a h (go "ffmpeg")) ->
                 Stat_ok h path = false) /\
   LookPath h (go "ffmpeg") = None) /\
  (Stat_ok h (Join [Dir (Args0 h); go "ffmpeg"]) = true ->
   found = Join [Dir (Args0 h); go "ffmpeg"]) /\
  (found <> [] ->
   (In found (possiblePaths a h (go "ffmpeg")) /\ Stat_ok h found = true) \/
   ((forall path, In path (possiblePaths a h (go "ffmpeg")) ->
                  Stat_ok h path = false)
    /\ LookPath h (go "ffmpeg") = Some found)).
Proof.
  intros h a.
  apply (findExecutable_found a h (go "ffmpeg")).
  - discriminate.
  - intros path E. injection E as <-. discriminate.
Defined.

(** ** [cleanupLogs] *)

Lemma Sub_day (now modTime : Z) :
  (24 * Hour <? Sub now modTime) = (24 * Hour <? now - modTime).
Proof.
  unfold Sub, Hour, strconv.minInt64, strconv.maxInt64.
  destruct (Z.ltb_spec (now - modTime) (- 2 ^ 63)) as [H|H].
  - destruct (Z.ltb_spec (24 * (3600 * 1000000000)) (- 2 ^ 63)),
             (Z.ltb_spec (24 * (3600 * 1000000000)) (now - modTime));
      try reflexivity; lia.
  - destruct (Z.ltb_spec (2 ^ 63 - 1) (now - modTime)) as [H'|H'];
      [|reflexivity].
    destruct (Z.ltb_spec (24 * (3600 * 1000000000)) (2 ^ 63 - 1)),
             (Z.ltb_spec (24 * (3600 * 1000000000)) (now - modTime));
      try reflexivity; lia.
Qed.

Lemma removals_In (logsDir : gostring) (now : Z) (files : list FileInfo)
      (path : gostring) :
  In path (removals logsDir now files) <->
  exists file, In file files /\ path = Join [logsDir; Name file] /\
               Name file <> go "app.log" /\
               24 * Hour < now - ModTime file.
Proof.
  induction files as [|f rest IH]; cbn [removals].
  - split; [intros []|intros (file & [] & _)].
  - destruct (gostring_eqb (Name f) (go "app.log")) eqn:En.
    + apply gostring_eqb_eq in En. rewrite IH. split.
      * intros (file & Hi & H). exists file. split; [now right|exact H].
      * intros (file & [<-|Hi] & Hp & Hn & Ht); [congruence|].
        exists file. auto.
    + assert (Hn : Name f <> go "app.log").
      { intros E. apply gostring_eqb_eq in E. congruence. }
      rewrite Sub_day. destruct (Z.ltb_spec (24 * Hour) (now - ModTime f)).
      * cbn [In]. rewrite IH. split.
        -- intros [<-|(file & Hi & H')].
           ++ exists f. split; [now left|auto].
           ++ exists file. split; [now right|exact H'].
        -- intros (file & [<-|Hi] & Hp & Hn' & Ht); [now left|].
           right. exists file. auto.
      * rewrite IH. split.
        -- intros (file & Hi & H'). exists file. split; [now right|exact H'].
        -- intros (file & [<-|Hi] & Hp & Hn' & Ht); [lia|].
           exists file. auto.
Qed.

(** X13. [cleanupLogs] hands to [os.Remove] exactly the entries of the
    logs directory, other than [app.log], that were last modified more
    than 24 hours ago; the application's own log [app.log] is never
    among them, and nothing is removed when the directory cannot be
    read. *)
Theorem cleanupLogs_removes_old (logsDir : gostring) (now : Z)
        (files : list FileInfo) :
  (forall file, In file files ->
                noSeparator (Name file) /\ realElem (Name file)) ->
  (forall path,
      In path (cleanupLogs logsDir (Some files) now) <->
      exists file, In file files /\ path = Join [logsDir; Name file] /\
                   Name file <> go "app.log" /\
                   24 * Hour < now - ModTime file) /\
  ~ In (Join [logsDir; go "app.log"]) (cleanupLogs logsDir (Some files) now) /\
  cleanupLogs logsDir None now = [].
Proof.
  intros Hnames. cbn [cleanupLogs]. split; [|split; [|reflexivity]].
  - intros path. apply removals_In.
  - rewrite removals_In. intros (file & Hi & Hp & Hn & _).
    destruct (Hnames file Hi) as [Hns Hreal].
    rewrite (Join_under logsDir (Name file)) in Hp by assumption.
    rewrite (Join_under logsDir (go "app.log")) in Hp.
    + apply app_inv_head in Hp. congruence.
    + repeat constructor.
    + split; reflexivity.
Qed.

Lemma cleanupLogs_removes_old_witness :
  let files := [mkFileInfo (go "A_ffmpeg.log") 0; mkFileInfo (go "app.log") 0;
                mkFileInfo (go "B_ffmpeg.log") (30 * Hour)] in
  ~ In (go "/opt/av1/logs/app.log")
       (cleanupLogs (go "/opt/av1/logs") (Some files) (48 * Hour)).
Proof.
  refine (proj1 (proj2 (cleanupLogs_removes_old (go "/opt/av1/logs") (48 * Hour)
     [mkFileInfo (go "A_ffmpeg.log") 0; mkFileInfo (go "app.log") 0;
      mkFileInfo (go "B_ffmpeg.log") (30 * Hour)] _))).
  intros file [<-|[<-|[<-|[]]]]; cbn [Name];
    (split; [unfold noSeparator; vm_compute go; repeat constructor
            |split; reflexivity]).
Defined.

End StartupFacts.

Module SelectionFacts.

Import Selection.

Section SelectVideoFiles.

Variable ParseFloat64 : gostring -> spec_float.
Variable int_of_float64 : spec_float -> Z.
Variable Sprintf_2f : spec_float -> gostring.

#[local] Abbreviation info :=
  (fun f => fst (getVideoInfo ParseFloat64 int_of_float64 Sprintf_2f f)).
#[local] Abbreviation good :=
  (usable ParseFloat64 int_of_float64 Sprintf_2f).
#[local] Abbreviation select :=
  (SelectVideoFiles ParseFloat64 int_of_float64 Sprintf_2f).

Lemma processFile_fold (files : list Selected) :
  forall acc,
    fold_left (processFile ParseFloat64 int_of_float64 Sprintf_2f) files acc
    = acc ++ map info (filter good files).
Proof.
  induction files as [|f rest IH]; intros acc; cbn [fold_left filter].
  - now rewrite app_nil_r.
  - rewrite IH. unfold processFile, usable.
    destruct (IsNotExist f); cbn [negb andb]; [reflexivity|].
    destruct (getVideoInfo _ _ _ f) as [i [e|]] eqn:E; cbn [snd fst];
      [reflexivity|].
    cbn [map]. rewrite E. cbn [fst]. now rewrite <- app_assoc.
Qed.

Lemma info_FullPath (f : Selected) :
  good f = true -> FullPath (info f) = file f.
Proof.
  unfold usable, getVideoInfo, Probe.getVideoInfo.
  destruct (IsNotExist f); [discriminate|]. cbn [negb andb].
  destruct (Probe.Run_error (probe f)); [discriminate|].
  destruct (json.Unmarshal _) as [r [e|]]; [discriminate|].
  destruct (json.Streams r); [discriminate|]. reflexivity.
Qed.

(** X14. Once the dialog has answered, [SelectVideoFiles] returns no
    error: a file that does not exist or cannot be probed is left out
    and the others are still processed.  The result describes exactly
    the files that exist and can be probed, in the order of the
    selection, each under its own path. *)
Theorem SelectVideoFiles_keeps_usable (files : list Selected) :
  snd (select (inl files)) = None /\
  fst (select (inl files)) = map info (filter good files) /\
  map FullPath (fst (select (inl files))) = map file (filter good files) /\
  (length (fst (select (inl files))) <= length files)%nat.
Proof.
  cbn [SelectVideoFiles fst snd]. rewrite processFile_fold. cbn [app].
  split; [reflexivity|]. split; [reflexivity|]. split.
  - rewrite map_map. apply map_ext_in. intros f Hf.
    apply filter_In in Hf. now apply info_FullPath.
  - rewrite length_map. apply filter_length_le.
Qed.

End SelectVideoFiles.

End SelectionFacts.

Module SampleFacts.

Import Monitor regexp strings.

Lemma above_nonnegative (x y : spec_float) :
  float64.le float64.zero x = true -> float64.gt y x = true ->
  float64.gt y float64.zero = true.
Proof.
  unfold float64.le, float64.gt, float64.zero, SFleb, SFltb.
  destruct x as [[|]|[|]| |[|] mx ex], y as [[|]|[|]| |[|] my ey];
    cbn; intros H1 H2; try reflexivity; try discriminate.
Qed.

Lemma increasingFrom_positive (l : list spec_float) :
  forall x, float64.le float64.zero x = true -> increasingFrom x l ->
            Forall (fun p => float64.gt p float64.zero = true) l.
Proof.
  induction l as [|y l IH]; intros x Hx H; [constructor|].
  destruct H as [Hy Hl].
  assert (H0 : float64.gt y float64.zero = true)
    by (apply (above_nonnegative x); assumption).
  constructor; [exact H0|]. apply (IH y); [|exact Hl].
  now apply FloatFacts.lt_le.
Qed.

(** X15. Every percentage the monitor reports lies above 0 and at most
    at 100: no sample is negative, zero, infinite or not a number,
    whatever the log holds and whatever the frame count is. *)
Theorem samples_within_range (opened : bool) (totalFrames : Z)
        (polls : list gostring) :
  Forall (fun p => float64.gt p float64.zero = true /\
                   float64.le p float64.hundred = true)
         (percentages (monitorProgress opened totalFrames polls)).
Proof.
  unfold monitorProgress. destruct opened; [|constructor].
  rewrite MonitorFacts.percentages_app. apply Forall_app. split.
  - destruct (MonitorFacts.ticks_increasing totalFrames polls initial)
      as [Hinc Hle].
    apply (increasingFrom_positive _ (lastProgress initial) eq_refl) in Hinc.
    rewrite Forall_forall in *. intros p Hp. split; auto.
  - constructor; [|constructor].
    split; [reflexivity|apply FloatFacts.le_hundred_refl].
Qed.

(** ** An unknown frame count *)

Lemma hundred_not_above : float64.gt float64.hundred float64.hundred = false.
Proof. reflexivity. Qed.

Lemma tick_zero_total (st : state) (content : gostring) :
  (snd (tick 0 st content) = [] /\
   lastProgress (fst (tick 0 st content)) = lastProgress st) \/
  (exists speed,
      snd (tick 0 st content) = [ConversionProgress float64.hundred speed] /\
      lastProgress (fst (tick 0 st content)) = float64.hundred).
Proof.
  destruct (MonitorFacts.tick_cases 0 st content)
    as [H|(f & speed & Hs & Hg & Hl)]; [now left|].
  cbv zeta in *.
  destruct (MonitorFacts.percentage_zero_total f) as [E|[E|E]];
    rewrite E in *.
  - rewrite MonitorFacts.gt_nan in Hg. discriminate.
  - right. now exists speed.
  - rewrite MonitorFacts.gt_minus_infinity in Hg. discriminate.
Qed.

Lemma ticks_zero_done (polls : list gostring) :
  forall st, lastProgress st = float64.hundred ->
             snd (ticks 0 st polls) = [].
Proof.
  induction polls as [|c rest IH]; intros st Hst; [reflexivity|].
  cbn [ticks].
  destruct (tick_zero_total st c) as [[He Hl]|(speed & He & Hl)].
  - destruct (tick 0 st c) as [st1 ev1] eqn:Et. cbn [fst snd] in *.
    specialize (IH st1 ltac:(congruence)).
    destruct (ticks 0 st1 rest) as [st2 ev2]. cbn [snd] in *.
    now rewrite He, IH.
  - pose proof (MonitorFacts.tick_cases 0 st c) as Hc.
    destruct Hc as [[Hc _]|(f & sp & Hc & Hg & _)]; [congruence|].
    cbv zeta in *. rewrite He in Hc. injection Hc as Hp _.
    rewrite <- Hp, Hst in Hg. rewrite hundred_not_above in Hg. discriminate.
Qed.

(** X16. With a frame count of 0 (the probe found no usable
    [nb_frames]) the progress bar carries no information: the monitor
    reports at most one sample before the final one, and that sample is
    100. *)
Theorem unknown_frame_count_single_sample (polls : list gostring) :
  monitorProgress true 0 polls = [finalSample] \/
  exists speed,
    monitorProgress true 0 polls
    = [ConversionProgress float64.hundred speed; finalSample].
Proof.
  unfold monitorProgress.
  assert (H : forall polls st,
             snd (ticks 0 st polls) = [] \/
             exists speed,
               snd (ticks 0 st polls)
               = [ConversionProgress float64.hundred speed]).
  { clear polls. induction polls as [|c rest IH]; intros st; [now left|].
    cbn [ticks].
    destruct (tick_zero_total st c) as [[He Hl]|(speed & He & Hl)].
    - destruct (tick 0 st c) as [st1 ev1] eqn:Et. cbn [fst snd] in *.
      specialize (IH st1).
      destruct (ticks 0 st1 rest) as [st2 ev2]. cbn [snd] in *.
      now rewrite He.
    - destruct (tick 0 st c) as [st1 ev1] eqn:Et. cbn [fst snd] in *.
      pose proof (ticks_zero_done rest st1 Hl) as Hd.
      destruct (ticks 0 st1 rest) as [st2 ev2]. cbn [snd] in *.
      right. exists speed. now rewrite He, Hd. }
  destruct (H polls initial) as [->|(speed & ->)]; [now left|].
  right. now exists speed.
Qed.

(** ** The window of a poll *)

(** X17. Once the log holds 1024 bytes or more, a poll depends on the
    last 1024 bytes of the log only: it reports what a poll of a file
    holding just these bytes would report, and leaves the file position
    at the end of the log. *)
Theorem poll_reads_last_1024 (totalFrames : Z) (st : state)
        (content : gostring) :
  (1024 <= length content)%nat ->
  let window := skipn (length content - 1024) content in
  let fresh := mkState 0 (lastProgress st) in
  snd (tick totalFrames st content) = snd (tick totalFrames fresh window) /\
  lastProgress (fst (tick totalFrames st content))
  = lastProgress (fst (tick totalFrames fresh window)) /\
  position (fst (tick totalFrames st content)) = length content.
Proof.
  intros Hlen window fresh.
  assert (Hw : length window = 1024%nat).
  { unfold window. rewrite length_skipn. lia. }
  destruct (TailReadFacts.readTail_long (position st) content Hlen) as [E1 _].
  destruct (TailReadFacts.readTail_long 0 window) as [E2 _]; [lia|].
  rewrite Hw in E2. cbn [Nat.sub skipn] in E2.
  split; [|split].
  - unfold tick. rewrite E1. cbn [position fresh]. rewrite E2. fold window.
    cbn [lastProgress].
    destruct (bufio.Scan window) as [tokens [unread|]]; [reflexivity|].
    destruct (parseProgress _ _) as [[p sp]|]; [|reflexivity].
    destruct (float64.gt _ _); reflexivity.
  - unfold tick. rewrite E1. cbn [position fresh]. rewrite E2. fold window.
    cbn [lastProgress].
    destruct (bufio.Scan window) as [tokens [unread|]]; [reflexivity|].
    destruct (parseProgress _ _) as [[p sp]|]; [|reflexivity].
    destruct (float64.gt _ _); reflexivity.
  - rewrite TailReadFacts.tick_position, E1. cbn [fst]. lia.
Qed.

Lemma poll_reads_last_1024_witness :
  let content := go "frame= 10 speed=1x " ++ repeat "a"%char 1024 in
  let window := skipn (length content - 1024) content in
  snd (tick 100 initial content)
  = snd (tick 100 (mkState 0 float64.zero) window) /\
  lastProgress (fst (tick 100 initial content))
  = lastProgress (fst (tick 100 (mkState 0 float64.zero) window)) /\
  position (fst (tick 100 initial content)) = length content.
Proof.
  apply (poll_reads_last_1024 100 initial
           (go "frame= 10 speed=1x " ++ repeat "a"%char 1024)).
  rewrite length_app, repeat_length. cbn. lia.
Defined.

(** ** The field a sample is read from *)

Lemma HasPrefix_long (s t p : gostring) :
  (length p <= length s)%nat -> HasPrefix (s ++ t) p = HasPrefix s p.
Proof.
  revert s. induction p as [|c p IH]; intros s H.
  - destruct s, t; reflexivity.
  - destruct s as [|d s]; [cbn in H; lia|]. cbn [HasPrefix app].
    rewrite IH by (cbn in H; lia). reflexivity.
Qed.

Lemma Contains_false (s p : gostring) :
  Contains s p = false ->
  forall a b, s = a ++ b -> HasPrefix b p = false.
Proof.
  intros H a. revert s H. induction a as [|c a IH]; intros s H b ->.
  - rewrite TelemetryFacts.Contains_unfold in H.
    now apply orb_false_iff in H.
  - rewrite TelemetryFacts.Contains_unfold in H.
    apply orb_false_iff in H. destruct H as [_ H]. cbn [app] in H.
    now apply (IH _ H).
Qed.

Lemma digit_not_space (c : ascii) : perl_d c = true -> perl_s c = false.
Proof.
  intros H. destruct (perl_s c) eqn:E; [|reflexivity].
  apply RegexpFacts.perl_classes_disjoint in E. congruence.
Qed.

Lemma frameAt_field (ws ds rest : gostring) :
  Forall (fun c => perl_s c = true) ws ->
  Forall (fun c => perl_d c = true) ds -> ds <> [] ->
  (forall c u, rest = c :: u -> perl_d c = false) ->
  frameAt (go "frame=" ++ ws ++ ds ++ rest) = Some ([ds], rest).
Proof.
  intros Hws Hds Hne Hrest. unfold frameAt.
  assert (E0 : HasPrefix (go "frame=" ++ ws ++ ds ++ rest) (go "frame=") = true)
    by (apply RegexpFacts.HasPrefix_app; now eexists).
  rewrite E0.
  change (skipn 6 (go "frame=" ++ ws ++ ds ++ rest)) with (ws ++ ds ++ rest).
  assert (E1 : span perl_s (ws ++ ds ++ rest) = length ws).
  { rewrite RegexpFacts.span_app by exact Hws.
    destruct ds as [|d ds']; [congruence|]. inversion Hds; subst.
    cbn [app]. rewrite RegexpFacts.span_stop by now apply digit_not_space.
    lia. }
  rewrite E1, RegexpFacts.skipn_app_exact.
  assert (E2 : span perl_d (ds ++ rest) = length ds).
  { rewrite RegexpFacts.span_app by exact Hds.
    destruct rest as [|c u]; [cbn; lia|].
    rewrite RegexpFacts.span_stop by now apply (Hrest c u). lia. }
  rewrite E2, RegexpFacts.skipn_app_exact, RegexpFacts.firstn_app_exact.
  destruct ds; [congruence|reflexivity].
Qed.

(** X18. A line that holds several [frame=] fields is read at its
    first one: when no [frame=] starts before it, the digits captured
    are those of that field, whatever follows, later fields included.
    (The encoder ends its progress lines with a carriage return, which
    does not end a line for the scanner.) *)
Theorem first_frame_field_wins (pre ws ds rest : gostring) :
  Contains (pre ++ go "frame") (go "frame=") = false ->
  Forall (fun c => perl_s c = true) ws ->
  Forall (fun c => perl_d c = true) ds -> ds <> [] ->
  (forall c u, rest = c :: u -> perl_d c = false) ->
  frameDigits (pre ++ go "frame=" ++ ws ++ ds ++ rest) = ds.
Proof.
  intros Hpre Hws Hds Hne Hrest. unfold frameDigits.
  induction pre as [|c pre IH].
  - cbn [app]. rewrite PatternFacts.FindStringSubmatch_unfold.
    rewrite PatternFacts.match_here_frameRegex.
    rewrite frameAt_field by assumption. reflexivity.
  - rewrite PatternFacts.FindStringSubmatch_unfold.
    rewrite PatternFacts.match_here_frameRegex.
    assert (Hc : frameAt ((c :: pre) ++ go "frame=" ++ ws ++ ds ++ rest)
                 = None).
    { unfold frameAt.
      replace ((c :: pre) ++ go "frame=" ++ ws ++ ds ++ rest)
        with (((c :: pre) ++ go "frame") ++ go "=" ++ ws ++ ds ++ rest)
        by (rewrite <- app_assoc; reflexivity).
      rewrite HasPrefix_long by (rewrite length_app; cbn; lia).
      now rewrite (Contains_false _ _ Hpre [] _ eq_refl). }
    rewrite Hc. cbn [app]. apply IH.
    rewrite TelemetryFacts.Contains_unfold in Hpre.
    apply orb_false_iff in Hpre. now destruct Hpre.
Qed.

Lemma first_frame_field_wins_witness :
  frameDigits (go "fps=30 " ++ go "frame=" ++ go "  " ++ go "10"
                 ++ go " speed=1x" ++ [bufio.CR] ++ go "frame=  20 speed=2x")
  = go "10".
Proof.
  apply (first_frame_field_wins (go "fps=30 ") (go "  ") (go "10")
           (go " speed=1x" ++ [bufio.CR] ++ go "frame=  20 speed=2x")).
  - reflexivity.
  - repeat constructor.
  - repeat constructor.
  - discriminate.
  - intros c u E. injection E as <- _. reflexivity.
Defined.

End SampleFacts.

Module FrameCountFacts.

Import json Probe ProbeFields.

Lemma decodeStreamMember_frames (s : Stream) (b : bool) (m : gostring * Value) :
  namesFrames m = false ->
  NbFrames (fst (decodeStreamMember (s, b) m)) = NbFrames s.
Proof.
  unfold namesFrames, decodeStreamMember. destruct m as [key v]. cbn [fst].
  intros ->. destruct (isField "codec_name" key).
  - now destruct (decodeString (CodecName s) v).
  - destruct (isField "avg_frame_rate" key); [|reflexivity].
    now destruct (decodeString (AvgFrameRate s) v).
Qed.

Lemma decodeStream_frames (old : Stream) (v : Value) :
  streamNamesFrames v = false ->
  NbFrames (fst (decodeStream old v)) = NbFrames old.
Proof.
  destruct v as [| | | | |members]; try reflexivity.
  cbn [streamNamesFrames decodeStream]. intros H.
  generalize false as b. revert old H.
  induction members as [|m ms IH]; intros old H b; [reflexivity|].
  cbn [existsb] in H. apply orb_false_iff in H. destruct H as [Hm Hms].
  cbn [fold_left].
  pose proof (decodeStreamMember_frames old b m Hm) as E.
  destruct (decodeStreamMember (old, b) m) as [s' b']. cbn [fst] in E.
  rewrite IH by exact Hms. exact E.
Qed.

Lemma decodeElems_frames (elems : list Value) :
  forall old,
    existsb streamNamesFrames elems = false -> noFrames old ->
    noFrames (fst (decodeElems old elems)).
Proof.
  induction elems as [|v rest IH]; intros old H Hold; [constructor|].
  cbn [existsb] in H. apply orb_false_iff in H. destruct H as [Hv Hrest].
  cbn [decodeElems].
  pose proof (decodeStream_frames (hd zeroStream old) v Hv) as E.
  destruct (decodeStream (hd zeroStream old) v) as [s e]. cbn [fst] in E.
  assert (Htl : noFrames (tl old)) by (destruct Hold; [constructor|assumption]).
  specialize (IH (tl old) Hrest Htl).
  destruct (decodeElems (tl old) rest) as [ss es]. cbn [fst] in *.
  constructor; [|exact IH]. rewrite E. destruct Hold; [reflexivity|assumption].
Qed.

Lemma decodeMember_frames (r : Result) (b : bool) (m : gostring * Value) :
  streamsNameFrames m = false -> noFrames (backing r) ->
  noFrames (backing (fst (decodeMember (r, b) m))).
Proof.
  unfold streamsNameFrames, decodeMember. destruct m as [key v].
  cbn [fst snd]. intros H Hr.
  destruct (isField "streams" key); cbn [andb] in H.
  - destruct v as [| | | |elems|]; cbn [decodeStreams fst backing];
      try exact Hr; try constructor.
    destruct elems as [|e0 rest]; [constructor|].
    pose proof (decodeElems_frames (e0 :: rest) (backing r) H Hr) as E.
    destruct (decodeElems (backing r) (e0 :: rest)) as [ss e].
    cbn [fst backing] in *. apply Forall_app. split; [exact E|].
    now apply ListFacts.Forall_skipn.
  - destruct (isField "format" key); [|exact Hr].
    now destruct (decodeFormat (format r) v).
Qed.

Lemma Unmarshal_frames (data : Text) :
  reportsFrames data = false -> noFrames (backing (fst (Unmarshal data))).
Proof.
  destruct data as [|v]; [constructor|].
  destruct v as [| | | | |members]; try constructor.
  cbn [reportsFrames Unmarshal].
  assert (H : forall ms r b,
             existsb streamsNameFrames ms = false -> noFrames (backing r) ->
             noFrames (backing (fst (fold_left decodeMember ms (r, b))))).
  { induction ms as [|m ms IH]; intros r b H Hr; [exact Hr|].
    cbn [existsb] in H. apply orb_false_iff in H. destruct H as [Hm Hms].
    cbn [fold_left].
    pose proof (decodeMember_frames r b m Hm Hr) as E.
    destruct (decodeMember (r, b) m) as [r' b']. now apply IH. }
  intros Hms. specialize (H members zeroResult false Hms ltac:(constructor)).
  destruct (fold_left decodeMember members (zeroResult, false)) as [r bad].
  exact H.
Qed.

(** X19. When the output of the probing tool names no [nb_frames] in
    its streams, as for containers that do not store a frame count, the
    descriptor carries the frame count 0. *)
Theorem missing_frame_count_is_zero
        (ParseFloat64 : gostring -> spec_float)
        (int_of_float64 : spec_float -> Z)
        (Sprintf_2f : spec_float -> gostring)
        (run : Run) (filePath : gostring) :
  reportsFrames (stdout run) = false ->
  FrameCount (fst (getVideoInfo ParseFloat64 int_of_float64 Sprintf_2f
                                run filePath)) = 0.
Proof.
  intros H. apply Unmarshal_frames in H. unfold getVideoInfo.
  destruct (Run_error run); [reflexivity|].
  destruct (Unmarshal (stdout run)) as [r [e|]]; [reflexivity|].
  cbn [fst] in H. unfold Streams.
  destruct (firstn (len r) (backing r)) as [|stream0 rest] eqn:E;
    [reflexivity|].
  cbn [fst FrameCount].
  assert (H0 : noFrames (firstn (len r) (backing r)))
    by now apply ListFacts.Forall_firstn.
  rewrite E in H0. inversion H0 as [|? ? Hs _]; subst. now rewrite Hs.
Qed.

Lemma missing_frame_count_is_zero_witness :
  let doc :=
    JObject
      [ (go "streams",
         JArray [JObject [ (go "codec_name", JString (go "h264"));
                           (go "avg_frame_rate", JString (go "25/1")) ]]);
        (go "format",
         JObject [ (go "duration", JString (go "4.0"));
                   (go "size", JString (go "1048576")) ]) ] in
  let run := Probe.mkRun (Exited 0) (Document doc) [] in
  FrameCount (fst (getVideoInfo (fun _ => float64.zero) (fun _ => 0)
                                (fun _ => go "1.00") run (go "/videos/A.mkv")))
  = 0.
Proof.
  intros doc run.
  apply (missing_frame_count_is_zero (fun _ => float64.zero) (fun _ => 0)
           (fun _ => go "1.00") run (go "/videos/A.mkv")).
  reflexivity.
Defined.

End FrameCountFacts.

Module ConversionFacts.

Import Monitor.

(** X20. A call of [ConvertVideo] ends in one of three ways.  It
    returns no error exactly when all four steps (output directory, log
    file, start of the encoder, its exit) succeed, and then emits
    [complete] followed by [next]; it emits one error event exactly when
    the started encoder fails; when the encoder could not be started or
    the preparation failed, nothing is emitted and nothing was started.
    The monitor is spawned exactly when the encoder was started, and is
    then always told to stop. *)
Theorem ConvertVideo_outcomes (a : App) (os : EncoderRun)
        (inputPath outputFolder : gostring) (totalFrames : Z) :
  let c := ConvertVideo a os inputPath outputFolder totalFrames in
  let setup := MkdirAll_error os = None /\ Create_error os = None /\
               Start_error os = None in
  (returned c = None <-> setup /\ Wait_error os = None) /\
  (returned c = None ->
   emitted c = [ConversionComplete (outputPath inputPath outputFolder);
                ConversionNext]) /\
  (forall e, setup -> Wait_error os = Some e ->
             emitted c = [ConversionError e]) /\
  (~ setup -> emitted c = [] /\ started c = None) /\
  (started c <> None <-> setup) /\
  (monitor c <> None <-> setup) /\
  (doneClosed c = true <-> setup) /\
  (setup -> monitor c = Some (logFilePath a inputPath, totalFrames) /\
            started c
            = Some (ffmpegArgs a inputPath
                               (outputPath inputPath outputFolder))).
Proof.
  intros c setup. unfold c, setup, ConvertVideo.
  destruct (MkdirAll_error os), (Create_error os), (Start_error os),
    (Wait_error os); cbn;
    repeat split; try intros; try discriminate; try congruence;
    repeat match goal with
           | H : _ /\ _ |- _ => destruct H
           | H : ~ _ |- _ => try (exfalso; apply H; repeat split; reflexivity)
           end; try discriminate; try congruence; auto.
Qed.

(** X21. A run of the monitor is a list of progress samples, at most
    one for each poll, followed by the final sample of 100 with an empty
    speed; a monitor that cannot open the log reports nothing, not even
    the final sample. *)
Theorem monitor_run_shape (totalFrames : Z) (polls : list gostring) :
  (exists samples,
      monitorProgress true totalFrames polls = samples ++ [finalSample] /\
      (length samples <= length polls)%nat /\
      forallb isProgress samples = true) /\
  monitorProgress false totalFrames polls = [].
Proof.
  split; [|reflexivity].
  destruct (SupervisorFacts.monitor_final_sample totalFrames polls)
    as (samples & E & Es & Hl).
  exists samples. split; [exact E|]. split; [exact Hl|].
  rewrite Es. apply SupervisorFacts.ticks_only_progress.
Qed.

(** X22. The scanner never stops on an error: a poll reads at most
    1024 bytes, or what a short log holds behind the file position, which
    is less, and no line of that size fills the scanner's buffer.  The
    branch that logs a scanning error is never taken. *)
Theorem scanner_never_fails (totalFrames : Z) (st : state)
        (content : gostring) :
  let data := snd (readTail (position st) content) in
  (length data <= 1024)%nat /\
  snd (bufio.Scan data) = None /\
  position (fst (tick totalFrames st content))
  = Nat.max (fst (readTail (position st) content)) (length content).
Proof.
  intros data. split; [|split].
  - unfold data.
    destruct (Nat.le_gt_cases 1024 (length content)) as [H|H].
    + destruct (TailReadFacts.readTail_long (position st) content H) as [_ E].
      lia.
    + rewrite TailReadFacts.readTail_short by exact H. cbn [snd].
      rewrite length_skipn. lia.
  - apply TailReadFacts.tick_scan_succeeds.
  - apply TailReadFacts.tick_position.
Qed.

End ConversionFacts.

Module NamingFacts.

Import filepath Startup PathFacts strings.

Lemma Ext_rev_dot (e r : gostring) :
  Forall (fun c => IsPathSeparator c = false /\ c <> "."%char) e ->
  forall acc, Ext_rev (e ++ "."%char :: r) acc = "."%char :: rev e ++ acc.
Proof.
  induction 1 as [|c e [Hs Hd] _ IH]; intros acc; cbn [app Ext_rev rev].
  - reflexivity.
  - rewrite Hs. destruct (Ascii.eqb_spec c "."); [contradiction|].
    rewrite IH, <- app_assoc. reflexivity.
Qed.

Lemma Ext_of_file (stem ext : gostring) :
  Forall (fun c => IsPathSeparator c = false /\ c <> "."%char) ext ->
  Ext (stem ++ go "." ++ ext) = go "." ++ ext.
Proof.
  intros H. unfold Ext. rewrite !rev_app_distr.
  cbn [go list_ascii_of_string rev app].
  rewrite <- app_assoc. cbn [app].
  rewrite Ext_rev_dot by now apply Forall_rev.
  now rewrite rev_involutive, app_nil_r.
Qed.

Lemma TrimSuffix_app (stem suffix : gostring) :
  TrimSuffix (stem ++ suffix) suffix = stem.
Proof.
  unfold TrimSuffix, HasSuffix.
  assert (E : HasPrefix (rev (stem ++ suffix)) (rev suffix) = true).
  { apply RegexpFacts.HasPrefix_app. exists (rev stem). apply rev_app_distr. }
  rewrite E, length_app.
  replace (length stem + length suffix - length suffix)%nat with (length stem)
    by lia.
  apply RegexpFacts.firstn_app_exact.
Qed.

(** X23. A name that needs no cleaning is kept: for an input
    [dir/stem.ext] whose stem is valid UTF-8, at most 200 bytes long and
    free of the nine replaced characters, the output is named
    [stem_av1.mp4], right under the destination folder.  Only the last
    extension is removed. *)
Theorem safe_name_kept (dir stem ext outputFolder : gostring) :
  dir = [] \/ (exists d, dir = d ++ [Separator]) ->
  Forall allowedByte stem ->
  utf8.ValidString stem = true ->
  (length stem <= 200)%nat ->
  Forall (fun c => IsPathSeparator c = false /\ c <> "."%char) ext ->
  let inputPath := dir ++ stem ++ go "." ++ ext in
  outputFileName inputPath = stem /\
  outputPath inputPath outputFolder
  = under outputFolder ++ stem ++ go "_av1.mp4".
Proof.
  intros Hdir Hstem Hvalid Hlen Hext inputPath.
  assert (Hfile : noSeparator (stem ++ go "." ++ ext)).
  { apply Forall_app. split; [now apply OutputPathFacts.allowed_noSeparator|].
    constructor; [reflexivity|].
    eapply Forall_impl; [|exact Hext]. now intros c [Hc _]. }
  assert (Hbase : Base inputPath = stem ++ go "." ++ ext).
  { unfold inputPath. apply Base_file; auto.
    intros E. apply app_eq_nil in E. destruct E as [_ E]. discriminate. }
  assert (Hname : outputFileName inputPath = stem).
  { unfold outputFileName. cbv zeta. rewrite Hbase, Ext_of_file by exact Hext.
    rewrite TrimSuffix_app.
    now apply SanitizeFacts.sanitizeFileName_fixpoint. }
  split; [exact Hname|].
  rewrite OutputFacts.outputPath_under. now rewrite Hname.
Qed.

Lemma safe_name_kept_witness :
  outputFileName (go "/videos/" ++ go "A.part1" ++ go "." ++ go "mp4")
  = go "A.part1" /\
  outputPath (go "/videos/" ++ go "A.part1" ++ go "." ++ go "mp4") (go "/out/")
  = under (go "/out/") ++ go "A.part1" ++ go "_av1.mp4".
Proof.
  apply (safe_name_kept (go "/videos/") (go "A.part1") (go "mp4") (go "/out/")).
  - right. now exists (go "/videos").
  - repeat constructor; discriminate.
  - reflexivity.
  - cbn. lia.
  - repeat constructor; discriminate.
Defined.

End NamingFacts.

Module ShortLogFacts.

Import Monitor.

(** X24. While the log is shorter than 1024 bytes a poll reads only
    what was appended since the previous poll: it reports what a poll of
    a file holding just the appended bytes would report, so a progress
    line is seen from the byte at which the previous poll stopped, not
    from its start. *)
Theorem short_log_poll_reads_appended (totalFrames : Z) (st : state)
        (poll1 poll2 : gostring) :
  (position st <= length poll1)%nat ->
  (length poll1 <= length poll2)%nat ->
  (length poll2 < 1024)%nat ->
  let st1 := fst (tick totalFrames st poll1) in
  let appended := skipn (length poll1) poll2 in
  snd (tick totalFrames st1 poll2)
  = snd (tick totalFrames (mkState 0 (lastProgress st1)) appended) /\
  position (fst (tick totalFrames st1 poll2)) = length poll2.
Proof.
  intros H0 H1 H2 st1 appended.
  pose proof (TailReadFacts.short_log_reads_appended totalFrames st poll1 poll2
                H0 H1 H2) as E1.
  fold st1 in E1.
  assert (Ha : (length appended < 1024)%nat).
  { unfold appended. rewrite length_skipn. lia. }
  pose proof (TailReadFacts.readTail_short 0 appended Ha) as E2.
  cbn [skipn] in E2.
  split.
  - unfold tick. rewrite E1. cbn [position]. rewrite E2. fold appended.
    cbn [lastProgress].
    destruct (bufio.Scan appended) as [tokens [unread|]]; [reflexivity|].
    destruct (parseProgress _ _) as [[p sp]|]; [|reflexivity].
    destruct (float64.gt _ _); reflexivity.
  - rewrite TailReadFacts.tick_position, E1. cbn [fst]. lia.
Qed.

Lemma short_log_poll_reads_appended_witness :
  let poll1 := go "frame=  50 fps=30 " in
  let poll2 := go "frame=  50 fps=30 speed=1.2x" in
  let st1 := fst (tick 100 initial poll1) in
  snd (tick 100 st1 poll2)
  = snd (tick 100 (mkState 0 (lastProgress st1)) (skipn (length poll1) poll2))
  /\ position (fst (tick 100 st1 poll2)) = length poll2.
Proof.
  apply (short_log_poll_reads_appended 100 initial (go "frame=  50 fps=30 ")
           (go "frame=  50 fps=30 speed=1.2x")); cbn; lia.
Defined.

End ShortLogFacts.
